(** * fr-jboard: the feed ingestion and enrichment pipeline of [app.js]

    A shallow embedding of the functions of [src/app.js] that carry the
    pipeline: tag normalisation, the semantic extractor, the enrichment
    engine, the prepared statements over the [jobs] table and the feed
    orchestrator [processFeed].

    Conventions.
    - A JavaScript string is the list of its UTF-16 code units ([jsstring]).
      Literals of the source are written as Rocq strings and decoded from
      UTF-8 by [JS].
    - Library functions the source imports ([html-to-text], [slugify],
      [Date], [JSON.parse], [String.prototype.toLowerCase], ...) are fields of
      a record [Builtins]; every definition that calls one takes the record as
      its first argument.
    - Regular expressions are values of [regex] run by a backtracking matcher
      that follows the ECMAScript matching rules. *)

From Stdlib Require Import List NArith ZArith Bool Ascii String Lia.
From Stdlib Require Import Permutation Sorted.
From Stdlib Require DecimalN DecimalFacts.
Import ListNotations.

Open Scope string_scope.
Open Scope list_scope.
Set Warnings "-register-all,-abstract-large-number".

(* ------------------------------------------------------------------ *)
(** ** JavaScript strings *)

Module JSStr.

(** A code unit of a JavaScript string. *)
Definition cu := N.
Definition jsstring := list N.

(** Decoding of a UTF-8 literal into UTF-16 code units (one to four bytes
    per code point; a code point above U+FFFF becomes a surrogate pair). *)
Fixpoint JS (s : string) : jsstring :=
  match s with
  | EmptyString => []
  | String a s1 =>
    let b1 := N_of_ascii a in
    if (b1 <? 128)%N then b1 :: JS s1 else
    match s1 with
    | EmptyString => [b1]
    | String a2 s2 =>
      let b2 := N.land (N_of_ascii a2) 63 in
      if (b1 <? 224)%N then (N.land b1 31 * 64 + b2)%N :: JS s2 else
      match s2 with
      | EmptyString => [b1]
      | String a3 s3 =>
        let b3 := N.land (N_of_ascii a3) 63 in
        if (b1 <? 240)%N then (N.land b1 15 * 4096 + b2 * 64 + b3)%N :: JS s3 else
        match s3 with
        | EmptyString => [b1]
        | String a4 s4 =>
          let b4 := N.land (N_of_ascii a4) 63 in
          let cp := (N.land b1 7 * 262144 + b2 * 4096 + b3 * 64 + b4 - 65536)%N in
          (55296 + N.shiftr cp 10)%N :: (56320 + N.land cp 1023)%N :: JS s4
        end
      end
    end
  end.

Definition eqb (a b : jsstring) : bool :=
  if list_eq_dec N.eq_dec a b then true else false.

(** ToBoolean of a string: the empty string is the only falsy one. *)
Definition nonempty (s : jsstring) : bool :=
  match s with [] => false | _ :: _ => true end.

(** [a || b] on strings. *)
Definition or_else (a b : jsstring) : jsstring :=
  if nonempty a then a else b.

(** WhiteSpace and LineTerminator of ECMAScript: what [trim] strips and
    what the class escape \s matches. *)
Definition isWhiteSpace (c : N) : bool :=
  ((9 <=? c) && (c <=? 13) || (c =? 32) || (c =? 160) || (c =? 5760)
   || (8192 <=? c) && (c <=? 8202) || (c =? 8232) || (c =? 8233)
   || (c =? 8239) || (c =? 8287) || (c =? 12288) || (c =? 65279))%N.

Fixpoint trimStart (s : jsstring) : jsstring :=
  match s with
  | c :: r => if isWhiteSpace c then trimStart r else s
  | [] => []
  end.

Definition trimEnd (s : jsstring) : jsstring := rev (trimStart (rev s)).

(** String.prototype.trim *)
Definition trim (s : jsstring) : jsstring := trimEnd (trimStart s).

(** String.prototype.slice(from, to) for 0 <= from <= to. *)
Definition slice (from to : nat) (s : jsstring) : jsstring :=
  firstn (to - from) (skipn from s).

(** String.prototype.startsWith *)
Fixpoint startsWith (p s : jsstring) : bool :=
  match p, s with
  | [], _ => true
  | a :: p', b :: s' => (a =? b)%N && startsWith p' s'
  | _ :: _, [] => false
  end.

(** String.prototype.includes *)
Fixpoint includes (s p : jsstring) : bool :=
  startsWith p s ||
  match s with
  | [] => false
  | _ :: s' => includes s' p
  end.

(** Array.prototype.join over strings. *)
Fixpoint join (sep : jsstring) (l : list jsstring) : jsstring :=
  match l with
  | [] => []
  | [x] => x
  | x :: r => x ++ sep ++ join sep r
  end.

(** The decimal rendering of a non-negative integer, as in a template
    literal. *)
Fixpoint uint_digits (d : Decimal.uint) : jsstring :=
  match d with
  | Decimal.Nil => []
  | Decimal.D0 d => 48%N :: uint_digits d
  | Decimal.D1 d => 49%N :: uint_digits d
  | Decimal.D2 d => 50%N :: uint_digits d
  | Decimal.D3 d => 51%N :: uint_digits d
  | Decimal.D4 d => 52%N :: uint_digits d
  | Decimal.D5 d => 53%N :: uint_digits d
  | Decimal.D6 d => 54%N :: uint_digits d
  | Decimal.D7 d => 55%N :: uint_digits d
  | Decimal.D8 d => 56%N :: uint_digits d
  | Decimal.D9 d => 57%N :: uint_digits d
  end.

Definition N_to_string (n : N) : jsstring := uint_digits (N.to_uint n).

Definition Z_to_string (z : Z) : jsstring :=
  match z with
  | Zneg p => 45%N :: N_to_string (Npos p)
  | _ => N_to_string (Z.to_N z)
  end.

Definition isDigit (c : N) : bool := ((48 <=? c) && (c <=? 57))%N.

(** Number(s) for a string of decimal digits. *)
Definition digits_to_N (s : jsstring) : N :=
  fold_left (fun acc c => (acc * 10 + (c - 48))%N) s 0%N.

End JSStr.
Import JSStr.

(* ------------------------------------------------------------------ *)
(** ** JavaScript values that reach the tag normaliser *)

(** The elements of a tag array: strings in [extractTags], any JSON value
    when the array was produced by [JSON.parse] on the AI output.  Numbers
    are the integer-valued ones (their rendering is the decimal one). *)
Inductive jsval : Type :=
| JNull
| JBool (b : bool)
| JNum (n : Z)
| JStr (s : jsstring)
| JArr (l : list jsval)
| JObj.

(** ToBoolean *)
Definition truthy (v : jsval) : bool :=
  match v with
  | JNull => false
  | JBool b => b
  | JNum n => negb (n =? 0)%Z
  | JStr s => nonempty s
  | JArr _ => true
  | JObj => true
  end.

(** String(v): Array.prototype.toString joins with "," and renders null as
    the empty string. *)
Fixpoint ToString (v : jsval) : jsstring :=
  match v with
  | JNull => JS "null"
  | JBool true => JS "true"
  | JBool false => JS "false"
  | JNum n => Z_to_string n
  | JStr s => s
  | JArr l =>
    join (JS ",")
      (map (fun e => match e with JNull => [] | _ => ToString e end) l)
  | JObj => JS "[object Object]"
  end.

(* ------------------------------------------------------------------ *)
(** ** Regular expressions

    The fragment of ECMAScript patterns the source uses, and a backtracking
    matcher in continuation-passing style that follows the specification's
    matcher semantics: alternatives are tried left to right, a greedy
    quantifier tries one more iteration first, a lazy one tries the
    continuation first, and an iteration past the minimum that consumes
    nothing is rejected. *)

Module Regex.

(** A member of a character class. *)
Inductive citem : Type :=
| CChar (c : N)
| CSpace        (* \s *)
| CNotSpace     (* \S *)
| CDigit        (* \d *)
| CWord.        (* \w *)

Inductive regex : Type :=
| Eps
| Chr (c : N)
| Dot                               (* .  *)
| Class (items : list citem)        (* [...]  *)
| NotClass (items : list citem)     (* [^...] *)
| WordB                             (* \b *)
| Eoi                               (* $  *)
| Seq (r1 r2 : regex)
| Alt (r1 r2 : regex)
| Rep (greedy : bool) (lo : nat) (hi : option nat) (r : regex)
| Group (i : nat) (r : regex)       (* capturing group number i *)
| NotAhead (r : regex).             (* (?!r) *)

(** Canonicalize of the i flag (no u flag): the upper-case mapping of one
    code unit.  Exact on ASCII and Latin-1 letters, which are the only cased
    characters of the source's patterns; other code units are compared as
    they are. *)
Definition canonicalize (ignoreCase : bool) (c : N) : N :=
  if ignoreCase
  then if ((97 <=? c) && (c <=? 122)
           || (224 <=? c) && (c <=? 254) && negb (c =? 247))%N
       then (c - 32)%N else c
  else c.

Definition isWordChar (c : N) : bool :=
  ((48 <=? c) && (c <=? 57) || (65 <=? c) && (c <=? 90)
   || (97 <=? c) && (c <=? 122) || (c =? 95))%N.

Definition isLineTerminator (c : N) : bool :=
  ((c =? 10) || (c =? 13) || (c =? 8232) || (c =? 8233))%N.

Definition citem_matches (ignoreCase : bool) (c : N) (it : citem) : bool :=
  match it with
  | CChar a => (canonicalize ignoreCase a =? canonicalize ignoreCase c)%N
  | CSpace => isWhiteSpace c
  | CNotSpace => negb (isWhiteSpace c)
  | CDigit => isDigit c
  | CWord => isWordChar c
  end.

(** The state of a match: the code unit before the current position (for
    \b), the input from the current position on, the position, and the
    captures made so far (latest first). *)
Record mstate : Type := {
  before : option N;
  rest : jsstring;
  pos : nat;
  caps : list (nat * jsstring)
}.

Definition cont := mstate -> option mstate.
Definition matcher := mstate -> cont -> option mstate.

Definition orElse (a : option mstate) (b : unit -> option mstate) : option mstate :=
  match a with
  | Some y => Some y
  | None => b tt
  end.

Definition oneChar (p : N -> bool) : matcher := fun x k =>
  match rest x with
  | c :: tl =>
    if p c
    then k {| before := Some c; rest := tl; pos := S (pos x); caps := caps x |}
    else None
  | [] => None
  end.

Definition wordBefore (x : mstate) : bool :=
  match before x with Some c => isWordChar c | None => false end.

Definition wordAfter (x : mstate) : bool :=
  match rest x with c :: _ => isWordChar c | [] => false end.

(** RepeatMatcher.  [fuel] bounds the number of iterations; every iteration
    either lowers [lo] or consumes a code unit, so [lo] plus the length of
    the remaining input, plus one, is never exhausted. *)
Fixpoint repeat (fuel : nat) (m : matcher) (greedy : bool) (lo : nat)
    (hi : option nat) (x : mstate) (k : cont) : option mstate :=
  match fuel with
  | O => None
  | S fuel' =>
    match hi with
    | Some O => k x
    | _ =>
      let d : cont := fun y =>
        if Nat.eqb lo 0 && Nat.eqb (pos y) (pos x) then None
        else repeat fuel' m greedy (Nat.pred lo) (option_map Nat.pred hi) y k in
      if negb (Nat.eqb lo 0) then m x d
      else if greedy then orElse (m x d) (fun _ => k x)
      else orElse (k x) (fun _ => m x d)
    end
  end.

Fixpoint run (ignoreCase : bool) (r : regex) : matcher :=
  match r with
  | Eps => fun x k => k x
  | Chr a =>
    oneChar (fun c => (canonicalize ignoreCase a =? canonicalize ignoreCase c)%N)
  | Dot => oneChar (fun c => negb (isLineTerminator c))
  | Class items => oneChar (fun c => existsb (citem_matches ignoreCase c) items)
  | NotClass items =>
    oneChar (fun c => negb (existsb (citem_matches ignoreCase c) items))
  | WordB => fun x k => if xorb (wordBefore x) (wordAfter x) then k x else None
  | Eoi => fun x k => match rest x with [] => k x | _ :: _ => None end
  | Seq r1 r2 => fun x k => run ignoreCase r1 x (fun y => run ignoreCase r2 y k)
  | Alt r1 r2 => fun x k =>
    orElse (run ignoreCase r1 x k) (fun _ => run ignoreCase r2 x k)
  | Rep greedy lo hi r1 => fun x k =>
    repeat (S (lo + List.length (rest x))) (run ignoreCase r1) greedy lo hi x k
  | Group i r1 => fun x k =>
    run ignoreCase r1 x (fun y =>
      k {| before := before y; rest := rest y; pos := pos y;
           caps := (i, firstn (pos y - pos x) (rest x)) :: caps y |})
  | NotAhead r1 => fun x k =>
    match run ignoreCase r1 x (fun y => Some y) with
    | Some _ => None
    | None => k x
    end
  end.

(** What [exec] returns: where the match starts, the matched text, the
    captures and the state after the match. *)
Record match_result : Type := {
  index : nat;
  matched : jsstring;
  after : mstate
}.

Definition match_at (ignoreCase : bool) (r : regex) (x : mstate)
  : option match_result :=
  match run ignoreCase r {| before := before x; rest := rest x; pos := pos x;
                            caps := [] |} (fun y => Some y) with
  | Some y => Some {| index := pos x;
                      matched := firstn (pos y - pos x) (rest x);
                      after := y |}
  | None => None
  end.

(** The value of capture group [i]: [None] is undefined. *)
Fixpoint lookup_cap (i : nat) (l : list (nat * jsstring)) : option jsstring :=
  match l with
  | [] => None
  | (j, v) :: l' => if Nat.eqb i j then Some v else lookup_cap i l'
  end.

Definition group (i : nat) (res : match_result) : option jsstring :=
  lookup_cap i (caps (after res)).

(** RegExp.prototype.exec without the g and y flags, also
    String.prototype.match: the leftmost match. *)
Fixpoint scan (ignoreCase : bool) (r : regex) (bef : option N) (s : jsstring)
    (p : nat) : option match_result :=
  match match_at ignoreCase r {| before := bef; rest := s; pos := p; caps := [] |} with
  | Some res => Some res
  | None =>
    match s with
    | [] => None
    | c :: s' => scan ignoreCase r (Some c) s' (S p)
    end
  end.

Definition exec (ignoreCase : bool) (r : regex) (s : jsstring) : option match_result :=
  scan ignoreCase r None s 0.

(** RegExp.prototype.test *)
Definition test (ignoreCase : bool) (r : regex) (s : jsstring) : bool :=
  match exec ignoreCase r s with Some _ => true | None => false end.

(** String.prototype.replace with a g-flagged pattern; [f] computes the
    replacement of a match. *)
Fixpoint replace_loop (fuel : nat) (ignoreCase : bool) (r : regex)
    (f : match_result -> jsstring) (x : mstate) : jsstring :=
  match fuel with
  | O => rest x
  | S fuel' =>
    let step :=
      match rest x with
      | [] => []
      | c :: s' =>
        c :: replace_loop fuel' ignoreCase r f
               {| before := Some c; rest := s'; pos := S (pos x); caps := [] |}
      end in
    match match_at ignoreCase r x with
    | Some res =>
      if Nat.eqb (pos (after res)) (pos x)
      then f res ++ step
      else f res ++ replace_loop fuel' ignoreCase r f (after res)
    | None => step
    end
  end.

Definition replace_all (ignoreCase : bool) (r : regex)
    (f : match_result -> jsstring) (s : jsstring) : jsstring :=
  replace_loop (S (List.length s)) ignoreCase r f
    {| before := None; rest := s; pos := 0; caps := [] |}.

(** String.prototype.split with a pattern (no limit, no capture in the
    separator): [acc] holds, reversed, the code units since the end of the
    last separator. *)
Fixpoint split_loop (fuel : nat) (r : regex) (acc : jsstring) (x : mstate)
  : list jsstring :=
  match fuel with
  | O => [rev acc ++ rest x]
  | S fuel' =>
    match rest x with
    | [] => [rev acc]
    | c :: s' =>
      let next := {| before := Some c; rest := s'; pos := S (pos x); caps := [] |} in
      match match_at false r x with
      | Some res =>
        if Nat.eqb (pos (after res)) (pos x) && negb (nonempty acc)
        then split_loop fuel' r (c :: acc) next
        else rev acc :: split_loop fuel' r [] (after res)
      | None => split_loop fuel' r (c :: acc) next
      end
    end
  end.

Definition split (r : regex) (s : jsstring) : list jsstring :=
  match s with
  | [] =>
    match match_at false r {| before := None; rest := []; pos := 0; caps := [] |} with
    | Some _ => []
    | None => [[]]
    end
  | _ :: _ =>
    split_loop (2 * List.length s + 2) r []
      {| before := None; rest := s; pos := 0; caps := [] |}
  end.

(** [reached x y]: the state y is reached from x by consuming input. *)
Definition reached (x y : mstate) : bool :=
  Nat.eqb (pos y + List.length (rest y)) (pos x + List.length (rest x))
  && Nat.leb (List.length (rest y)) (List.length (rest x)).

(** A matcher calls its continuation only on states reached from its own
    state, and its result depends on the continuation on those states
    only. *)
Definition local (m : matcher) : Prop :=
  forall x k k',
    (forall y, reached x y = true -> k y = k' y) -> m x k = m x k'.

(** *** Pattern notation *)

Fixpoint seq (l : list regex) : regex :=
  match l with
  | [] => Eps
  | [r] => r
  | r :: l' => Seq r (seq l')
  end.

Fixpoint alt (l : list regex) : regex :=
  match l with
  | [] => Eps
  | [r] => r
  | r :: l' => Alt r (alt l')
  end.

(** A literal text. *)
Definition lit (s : string) : regex := seq (map Chr (JS s)).
(** The alternatives (a|b|...) of literal texts. *)
Definition lits (l : list string) : regex := alt (map lit l).
(** The members of a class given as a text. *)
Definition chars (s : string) : list citem := map CChar (JS s).

Definition star (r : regex) : regex := Rep true 0 None r.        (* r*  *)
Definition plus (r : regex) : regex := Rep true 1 None r.        (* r+  *)
Definition opt (r : regex) : regex := Rep true 0 (Some 1) r.     (* r?  *)
Definition lazy_star (r : regex) : regex := Rep false 0 None r.  (* r*? *)
Definition times (lo hi : nat) (r : regex) : regex := Rep true lo (Some hi) r.
Definition ws : regex := Class [CSpace].                         (* \s *)
Definition digit : regex := Class [CDigit].                      (* \d *)
Definition word : regex := Class [CWord].                        (* \w *)
Definition any : regex := Class [CSpace; CNotSpace].             (* [\s\S] *)

End Regex.

(* ------------------------------------------------------------------ *)
(** ** Imported libraries and configuration *)

(** The options [convert] of html-to-text is called with. *)
Record convert_options : Type := {
  wordwrap : N;
  ignoreHref : bool
}.

(** An integer-valued JavaScript number, or NaN. *)
Definition jsnum := option Z.

(** What the source takes from the language and from its imports. *)
Record Builtins : Type := {
  (** String.prototype.toLowerCase and toUpperCase *)
  toLowerCase : jsstring -> jsstring;
  toUpperCase : jsstring -> jsstring;
  (** html-to-text: convert(html, options) *)
  convert : jsstring -> convert_options -> jsstring;
  (** slugify(s, { lower: true, strict: true }) *)
  slugify : jsstring -> jsstring;
  (** JSON.parse on a text that starts with a bracket and ends with one:
      the array, or [None] when it throws. *)
  JSON_parse_array : jsstring -> option (list jsval);
  (** new Date(d).getTime() / 1000, floored: [None] is NaN. *)
  date_seconds : jsstring -> jsnum;
  (** new Date().toISOString() *)
  now_iso : jsstring;
  (** Math.floor(Date.now() / 1000), also strftime('%s','now') *)
  now_seconds : Z;
  (** new URL(u).hostname *)
  url_hostname : jsstring -> jsstring
}.

(** The environment variables read at start-up.  [PROFESSION_KEYWORDS] is
    the list after lower-casing, splitting, trimming and filtering. *)
Record Config : Type := {
  FEED_URL : jsstring;
  MAX_JOBS : nat;
  HAS_OPENAI : bool;
  TARGET_PROFESSION : jsstring;
  TARGET_LANG : jsstring;
  AI_PROCESS_LIMIT : nat;
  PROFESSION_KEYWORDS : list jsstring
}.

(** The answer of openai.chat.completions.create: it throws, or resolves
    to a response whose first choice may hold a content. *)
Inductive ai_result : Type :=
| AIThrows (message : jsstring)
| AIResponds (content : option jsstring).

(** The chat backend, by the number of the call in the run and the system
    and user messages. *)
Definition ai_backend := nat -> jsstring -> jsstring -> ai_result.

(* ------------------------------------------------------------------ *)
(** ** Tools (OUTILS) *)

Section Tools.
Variable B : Builtins.
Variable cfg : Config.

Import Regex.

(** mkSlug *)
Definition mkSlug (s : jsstring) : jsstring :=
  slice 0 120 (slugify B (or_else s (JS "emploi"))).

(** unixtime *)
Definition unixtime (d : jsstring) : jsnum := date_seconds B d.

(** truncateWords *)
Definition truncateWords (txt : jsstring) (n : nat) : jsstring :=
  let words := split (plus ws) txt in
  if Nat.leb (List.length words) n then txt
  else join (JS " ") (firstn n words) ++ JS "…".

(** The loop of uniqNormTags: [seen] is the Set, [out] the array. *)
Fixpoint uniqNormTags_loop (tags : list jsval) (seen out : list jsstring)
  : list jsstring :=
  match tags with
  | [] => out
  | t :: tags' =>
    if negb (truthy t) then uniqNormTags_loop tags' seen out else
    let t := toLowerCase B (trim (ToString t)) in
    if negb (nonempty t) then uniqNormTags_loop tags' seen out else
    if existsb (JSStr.eqb t) seen then uniqNormTags_loop tags' seen out else
    uniqNormTags_loop tags' (t :: seen) (out ++ [t])
  end.

(** uniqNormTags *)
Definition uniqNormTags (tags : list jsval) : list jsstring :=
  firstn 8 (uniqNormTags_loop tags [] []).

(** tagSlug *)
Definition tagSlug (t : jsstring) : jsstring := mkSlug t.

Definition quotes : list citem := [CChar 34; CChar 39].

(** sanitizeHtml *)
Definition sanitizeHtml (html : jsstring) : jsstring :=
  if negb (nonempty html) then [] else
  let del (r : regex) (s : jsstring) := replace_all true r (fun _ => []) s in
  let s := del (seq [lit "<script"; WordB; star (NotClass (chars "<"));
                     star (seq [NotAhead (lit "</script>"); lit "<";
                                star (NotClass (chars "<"))]);
                     lit "</script>"]) html in
  let s := del (seq [lit "<"; opt (lit "/");
                     lits ["iframe"; "object"; "embed"; "link"; "style"; "noscript"];
                     WordB; star (NotClass (chars ">")); lit ">"]) s in
  let s := del (seq [ws; lit "on"; plus word; star ws; lit "="; star ws;
                     Class quotes; star (NotClass quotes); Class quotes]) s in
  let s := del (seq [ws; lit "on"; plus word; star ws; lit "="; star ws;
                     plus (NotClass [CSpace; CChar 62])]) s in
  let s := del (seq [ws; Group 1 (lits ["href"; "src"]); star ws; lit "=";
                     star ws; Class quotes; star ws; lit "javascript:";
                     star (NotClass quotes); Class quotes]) s in
  del (seq [ws; Group 1 (lits ["href"; "src"]); star ws; lit "="; star ws;
            lit "javascript:"; plus (NotClass [CSpace; CChar 62])]) s.

(** stripDocumentTags *)
Definition stripDocumentTags (html : jsstring) : jsstring :=
  if negb (nonempty html) then [] else
  let del (r : regex) (s : jsstring) := replace_all true r (fun _ => []) s in
  let tag (name : string) :=
    seq [lit "<"; opt (lit "/"); lit name; star (NotClass (chars ">")); lit ">"] in
  let s := del (seq [lit "<!DOCTYPE"; star (NotClass (chars ">")); lit ">"]) html in
  let s := del (tag "html") s in
  let s := del (tag "head") s in
  let s := del (tag "body") s in
  let s := del (seq [lit "<meta"; star (NotClass (chars ">")); lit ">"]) s in
  let s := del (seq [lit "<title"; star (NotClass (chars ">")); lit ">";
                     lazy_star Dot; lit "</title>"]) s in
  trim s.

(** escapeHtml *)
Definition escapeHtml (s : jsstring) : jsstring :=
  replace_all false (Class (chars "&<>" ++ quotes))
    (fun res =>
       match matched res with
       | [38%N] => JS "&amp;"
       | [60%N] => JS "&lt;"
       | [62%N] => JS "&gt;"
       | [34%N] => JS "&quot;"
       | [39%N] => JS "&#39;"
       | other => other
       end) s.

(** matchesProfession *)
Definition matchesProfession (title company description : jsstring) : bool :=
  let text := toLowerCase B (title ++ JS " " ++ company ++ JS " " ++ description) in
  existsb (fun keyword => includes text keyword) (PROFESSION_KEYWORDS cfg).

(** PROFESSION_TAGS *)
Definition PROFESSION_TAGS : list (jsstring * list jsstring) :=
  [ (JS "conducteur routier",
     map JS ["permis ce"; "permis c"; "spl"; "poids lourd"; "super poids lourd";
             "fimo"; "fco"; "adr"; "matières dangereuses"; "tachygraphe";
             "semi-remorque"; "remorque"; "solo"; "plateau"; "citerne"; "bâché";
             "frigorifique"; "distribution"; "navettes"; "régional"; "national";
             "international"; "travail de nuit"; "week-end"; "rotation";
             "planification de tournée"]);
    (JS "truck driver",
     map JS ["class 1"; "class a"; "cdl"; "long haul"; "regional"; "local";
             "tanker"; "flatbed"; "otr"; "hazmat"]);
    (JS "chauffeur poids lourd",
     map JS ["pl"; "spl"; "permIs c"; "permis ce"; "fimo"; "fco"]);
    (JS "warehouse",
     map JS ["chariot"; "cariste"; "préparateur"; "expédition"; "réception";
             "inventaire"]) ].

Fixpoint lookup_tags (key : jsstring) (l : list (jsstring * list jsstring))
  : option (list jsstring) :=
  match l with
  | [] => None
  | (k, v) :: l' => if JSStr.eqb key k then Some v else lookup_tags key l'
  end.

(** extractTags *)
Definition extractTags (title company html : jsstring) : list jsstring :=
  let text :=
    toLowerCase B
      (title ++ JS " " ++ company ++ JS " "
       ++ slice 0 1000 (convert B html {| wordwrap := 120; ignoreHref := false |})) in
  let profKey := toLowerCase B (TARGET_PROFESSION cfg) in
  let profTags :=
    match lookup_tags profKey PROFESSION_TAGS with
    | Some l => l
    | None =>
      match lookup_tags (JS "conducteur routier") PROFESSION_TAGS with
      | Some l => l
      | None => []
      end
    end in
  let found := filter (fun tag => includes text tag) profTags in
  let push (r : regex) (tag : string) (found : list jsstring) :=
    if test true r text then found ++ [JS tag] else found in
  let found :=
    push (Group 1 (lits ["télétravail"; "remote"; "travail à distance"]))
      "télétravail" found in
  let found :=
    push (Group 1 (alt [lit "temps plein";
                        seq [lit "full"; opt (Class [CChar 45; CSpace]); lit "time"];
                        lit "plein temps"]))
      "temps plein" found in
  let found :=
    push (Group 1 (alt [lit "temps partiel";
                        seq [lit "part"; opt (Class [CChar 45; CSpace]); lit "time"];
                        lit "mi-temps"]))
      "temps partiel" found in
  let found := push (Group 1 (lits ["cdi"; "permanent"])) "cdi" found in
  let found :=
    push (Group 1 (lits ["cdd"; "intérim"; "interim"; "contrat"; "temporaire"]))
      "contrat" found in
  let found := found ++ [toLowerCase B (TARGET_PROFESSION cfg)] in
  uniqNormTags (map JStr found).

End Tools.

(* ------------------------------------------------------------------ *)
(** ** Semantic extractor (parseMeta) *)

Inductive employment : Type :=
| FULL_TIME | PART_TIME | CONTRACTOR | INTERN | TEMPORARY.

Inductive salary_unit : Type := YEAR | MONTH | WEEK | DAY | HOUR.

Inductive currency_code : Type := EUR | USD | GBP | CHF.

(** The salary object; [None] in [min] and [max] is null. *)
Record salary_fact : Type := {
  currency : currency_code;
  min : option N;
  max : option N;
  unit : salary_unit
}.

Record meta : Type := {
  employmentType : employment;
  isRemote : bool;
  salary : option salary_fact;
  experienceRequirements : option jsstring;
  experienceInPlaceOfEducation : bool
}.

Section SemanticExtractor.
Variable B : Builtins.

Import Regex.

(** The text parseMeta works on. *)
Definition metaText (textHTML title : jsstring) : jsstring :=
  toLowerCase B
    (convert B textHTML {| wordwrap := 1000; ignoreHref := false |}
     ++ JS " " ++ title).

Definition employmentOf (text : jsstring) : employment :=
  if test true
       (seq [Group 1 (alt [lit "temps partiel";
                           seq [lit "part"; opt (Class [CChar 45; CSpace]); lit "time"];
                           lit "mi-temps"]); WordB]) text
  then PART_TIME
  else if test true
       (seq [Group 1 (lits ["cdd"; "intérim"; "interim"; "contrat"; "contractor";
                            "zeitarbeit"; "befristet"]); WordB]) text
  then CONTRACTOR
  else if test true
       (seq [Group 1 (lits ["stage"; "stagiaire"; "internship"; "praktikum"]);
             WordB]) text
  then INTERN
  else if test true (Group 1 (lits ["temporaire"; "seasonal"; "saison"])) text
  then TEMPORARY
  else FULL_TIME.

Definition remoteOf (text : jsstring) : bool :=
  test true
    (Group 1 (lits ["télétravail"; "remote"; "travail à distance"; "home office";
                    "homeoffice"; "telecommute"])) text.

(** Unité de salaire *)
Definition unitOf (text : jsstring) : salary_unit :=
  let has (l : list string) := test true (seq [WordB; Group 1 (lits l); WordB]) text in
  if has ["an"; "année"; "annuel"; "par an"; "year"; "annually"; "per year"]
  then YEAR
  else if has ["mois"; "mensuel"; "par mois"; "month"; "monthly"; "per month"]
  then MONTH
  else if has ["semaine"; "hebdo"; "par semaine"; "week"; "weekly"; "per week"]
  then WEEK
  else if has ["jour"; "journalier"; "par jour"; "day"; "daily"; "per day"]
  then DAY
  else if has ["heure"; "horaire"; "par heure"; "hour"; "hourly"; "per hour"]
  then HOUR
  else HOUR.

(** The currency token: cMatch. *)
Definition cMatch (text : jsstring) : option match_result :=
  exec true
    (Alt (seq [WordB; Group 1 (lits ["eur"; "euro"; "usd"; "chf"; "gbp"]); WordB])
         (Class (chars "€$£"))) text.

Definition currencyOf (text : jsstring) : option currency_code :=
  match cMatch text with
  | Some m =>
    let c := toUpperCase B (matched m) in
    if JSStr.eqb c (JS "€") || JSStr.eqb c (JS "EUR") || JSStr.eqb c (JS "EURO")
    then Some EUR
    else if JSStr.eqb c (JS "$") || JSStr.eqb c (JS "USD") then Some USD
    else if JSStr.eqb c (JS "£") || JSStr.eqb c (JS "GBP") then Some GBP
    else if JSStr.eqb c (JS "CHF") then Some CHF
    else None
  | None => None
  end.

(** \d{1,2}[.,]?\d{3,6} *)
Definition amount : regex :=
  seq [times 1 2 digit; opt (Class (chars ".,")); times 3 6 digit].

(** Number(s.replace(/[.,]/g, '')) on a text matched by [amount]. *)
Definition amountValue (s : jsstring) : N :=
  digits_to_N (replace_all false (Class (chars ".,")) (fun _ => []) s).

Definition rangeMatch (text : jsstring) : option match_result :=
  exec true
    (seq [Group 1 amount; star ws; Class (chars "-–—à"); star ws; Group 2 amount])
    text.

Definition oneMatch (text : jsstring) : option match_result :=
  exec true
    (Alt (seq [lits ["à partir de"; "dès"; "from"; "de"; "von"]; star ws;
               Group 1 amount])
         (seq [Group 2 amount; star ws;
               alt [lit "+"; seq [lit "jusqu"; opt (Chr 39); lit "à"]; lit "bis"]]))
    text.

Definition capture (i : nat) (m : match_result) : jsstring :=
  match group i m with Some s => s | None => [] end.

(** Devise & plages: the pair (min, max). *)
Definition amountsOf (text : jsstring) : option N * option N :=
  match rangeMatch text with
  | Some range =>
    (Some (amountValue (capture 1 range)), Some (amountValue (capture 2 range)))
  | None =>
    match oneMatch text with
    | Some one =>
      let val := or_else (capture 1 one) (capture 2 one) in
      (Some (amountValue val), None)
    | None => (None, None)
    end
  end.

(** ToBoolean of a number or null. *)
Definition truthyNum (n : option N) : bool :=
  match n with
  | Some v => negb (v =? 0)%N
  | None => false
  end.

(** Expérience *)
Definition experienceOf (text : jsstring) : option jsstring :=
  match exec true
          (seq [Group 1 (plus digit); star ws; opt (lit "+"); star ws;
                Group 2 (lits ["ans"; "an"; "years"; "yrs"]); star ws;
                Group 3 (Alt (seq [lit "d"; Class (chars "'’"); lit "expérience"])
                             (lit "experience"))]) text with
  | Some yearsMatch =>
    Some (capture 1 yearsMatch ++ JS " ans d'expérience pertinente")
  | None =>
    if test true
         (Group 1 (lits ["expérience exigée"; "expérience requise";
                         "experience required"])) text
    then Some (JS "Expérience pertinente requise")
    else None
  end.

Definition inPlaceOfEducation (text : jsstring) : bool :=
  test true
    (Group 1 (lits ["ou expérience équivalente"; "equivalent experience";
                    "gleichwertige erfahrung"])) text.

(** parseMeta *)
Definition parseMeta (textHTML title : jsstring) : meta :=
  let text := metaText textHTML title in
  let currency := currencyOf text in
  let '(min, max) := amountsOf text in
  {| employmentType := employmentOf text;
     isRemote := remoteOf text;
     salary :=
       match currency with
       | Some c =>
         if truthyNum min || truthyNum max
         then Some {| currency := c; min := min; max := max; unit := unitOf text |}
         else None
       | None => None
       end;
     experienceRequirements := experienceOf text;
     experienceInPlaceOfEducation := inPlaceOfEducation text |}.

End SemanticExtractor.

(* ------------------------------------------------------------------ *)
(** ** Enrichment engine (rewriteJobRich) *)

(** What rewriteJobRich resolves to. *)
Record rich : Type := {
  short : jsstring;
  html : jsstring;
  tags : list jsstring;
  usedAI : bool
}.

Section Enrichment.
Variable B : Builtins.
Variable cfg : Config.

Import Regex.

Definition newline : jsstring := [10%N].

(** const plain *)
Definition plainText (html : jsstring) : jsstring :=
  slice 0 9000 (convert B html {| wordwrap := 120; ignoreHref := true |}).

(** const fallback = () => ... *)
Definition fallback (title company html : jsstring) : rich :=
  let plain := plainText html in
  let paragraphs :=
    join newline
      (map (fun p => JS "<p>" ++ escapeHtml p ++ JS "</p>")
           (firstn 6 (filter nonempty (split (plus (Chr 10)) plain)))) in
  let fallbackHTML :=
    trim (JS "
<section><h2>À propos du poste</h2>"
          ++ or_else paragraphs (JS "<p>Détails fournis par l’employeur.</p>")
          ++ JS "</section>
<section><h2>Responsabilités</h2><ul><li>Réaliser les missions décrites.</li></ul></section>
<section><h2>Profil recherché</h2><ul><li>Expérience pertinente ou motivation à apprendre.</li></ul></section>
<section><h2>Avantages</h2><ul><li>Avantages selon la description.</li></ul></section>
<section><h2>Rémunération</h2><p>À discuter.</p></section>
<section><h2>Lieu & Horaires</h2><p>Selon la description.</p></section>
<section><h2>Candidater</h2><p>Utilisez le bouton “Postuler”.</p></section>
") in
  {| short := truncateWords plain 45;
     html := sanitizeHtml fallbackHTML;
     tags := extractTags B cfg title company html;
     usedAI := false |}.

(** const system *)
Definition systemPrompt : jsstring :=
  JS "
Tu es un éditeur senior de contenus d'offres pour " ++ TARGET_PROFESSION cfg
  ++ JS ". Rédige naturellement en " ++ TARGET_LANG cfg ++ JS ".
CONTRAT DE SORTIE — renvoie EXACTEMENT ces trois blocs dans cet ordre :
===DESCRIPTION=== [35–60 mots en texte brut. Pas de HTML, guillemets, emojis.]
===HTML=== [Fragments HTML propres ; JAMAIS <!DOCTYPE>, <html>, <head> ou <body>.]
===TAGS=== [Tableau JSON valide (3–8 éléments), tout en minuscules, en "
  ++ TARGET_LANG cfg ++ JS ", pertinent pour " ++ TARGET_PROFESSION cfg ++ JS ".]

SECTIONS HTML (titres localisés en " ++ TARGET_LANG cfg ++ JS ", ordre strict) :
1) À propos du poste
2) Responsabilités
3) Profil recherché
4) Avantages
5) Rémunération
6) Lieu & Horaires
7) Candidater

RÈGLES HTML :
- Balises sémantiques uniquement : <section>, <h2>, <p>, <ul>, <li>, <strong>, <em>, <time>, <address>.
- 7 sections exactement avec ces <h2>, aucune section vide.
- Listes scannables : 5–8 puces, 4–12 mots/puce.
- Pas de styles inline, scripts, images, tableaux.
- Pas de lien externe sauf si un lien explicite de candidature est fourni.
- Unités métriques et formats locaux.

CONTENU :
- DESCRIPTION : 35–60 mots, voix active, bénéfices concrets, zéro fluff.
- Responsabilités & Profil : résultats concrets, outils, indispensables.
- Avantages : réalistes.
- Rémunération : fourchette si connue ; sinon “À discuter”.
- Lieu & Horaires : refléter les infos connues ; sinon générique.
- Candidater : une phrase simple, sans lien sauf s’il est fourni.

VALIDATION STRICTE :
- DESCRIPTION 35–60 mots, sans HTML.
- HTML = 7 sections exactes.
- TAGS JSON valide (3–8), tous pertinents.
- Pas d’invention de faits ou de liens.
".

(** const user *)
Definition userPrompt (title company html : jsstring) : jsstring :=
  JS "Offre: " ++ or_else title (JS "N/A") ++ JS "
Entreprise: " ++ or_else company (JS "N/A") ++ JS "
Texte:
" ++ plainText html.

Definition descMatch (out : jsstring) : option match_result :=
  exec true (seq [lit "===DESCRIPTION==="; star ws; Group 1 (lazy_star any);
                  star ws; lit "===HTML==="]) out.

Definition htmlMatch (out : jsstring) : option match_result :=
  exec true (seq [lit "===HTML==="; star ws; Group 1 (lazy_star any);
                  star ws; lit "===TAGS==="]) out.

Definition tagsMatch (out : jsstring) : option match_result :=
  exec true (seq [lit "===TAGS==="; star ws; Group 1 (star any); Eoi]) out.

(** match?.[1] || '' *)
Definition block (m : option match_result) : jsstring :=
  match m with
  | Some res => capture 1 res
  | None => []
  end.

Definition singleSection (short : jsstring) : jsstring :=
  JS "<section><h2>À propos du poste</h2><p>" ++ escapeHtml short
  ++ JS "</p></section>".

(** The body of the try block once the completion [content] has arrived. *)
Definition parseCompletion (title company html : jsstring)
    (content : option jsstring) : rich :=
  let out := match content with Some c => c | None => [] end in
  let opts := {| wordwrap := 120; ignoreHref := false |} in
  let short := trim (block (descMatch out)) in
  let short := if nonempty short then short
               else slice 0 300 (convert B out opts) in
  let short := slice 0 600 (trim (convert B short opts)) in
  let htmlOut := trim (block (htmlMatch out)) in
  let htmlOut := if nonempty htmlOut then htmlOut else singleSection short in
  let htmlOut := stripDocumentTags htmlOut in
  let htmlOut := if Nat.ltb (List.length htmlOut) 50 then singleSection short
                 else htmlOut in
  let tagsParsed :=
    match exec false (seq [lit "["; star any; lit "]"]) (block (tagsMatch out)) with
    | Some m => JSON_parse_array B (matched m)
    | None => None
    end in
  let tags :=
    uniqNormTags B
      match tagsParsed with
      | Some l => l
      | None => map JStr (extractTags B cfg title company html)
      end in
  {| short := short; html := sanitizeHtml htmlOut; tags := tags; usedAI := true |}.

(** rewriteJobRich; [ai] is the call of openai.chat.completions.create. *)
Definition rewriteJobRich (ai : jsstring -> jsstring -> ai_result)
    (title company html : jsstring) (useAI : bool) : rich :=
  if negb (HAS_OPENAI cfg) || negb useAI then fallback title company html
  else
    match ai systemPrompt (userPrompt title company html) with
    | AIResponds content => parseCompletion title company html content
    | AIThrows _ => fallback title company html
    end.

(** What rewriteJobRich writes with console.error. *)
Definition rewriteJobRich_error (ai : jsstring -> jsstring -> ai_result)
    (title company html : jsstring) (useAI : bool) : option jsstring :=
  if negb (HAS_OPENAI cfg) || negb useAI then None
  else
    match ai systemPrompt (userPrompt title company html) with
    | AIResponds _ => None
    | AIThrows message => Some message
    end.

End Enrichment.

(* ------------------------------------------------------------------ *)
(** ** The store (BASE DE DONNÉES, REQUÊTES PRÉPARÉES)

    The tables as lists of rows, in insertion order, and the prepared
    statements as functions on them. *)

Module DB.

(** A row of [jobs].  [published_at] is null when the bound number was
    NaN. *)
Record job : Type := {
  id : Z;
  guid : jsstring;
  source : jsstring;
  title : jsstring;
  company : jsstring;
  description_html : jsstring;
  description_short : jsstring;
  url : jsstring;
  published_at : jsnum;
  slug : jsstring;
  tags_csv : jsstring
}.

(** The named parameters of stmtInsertJob. *)
Record job_params : Type := {
  p_guid : jsstring;
  p_source : jsstring;
  p_title : jsstring;
  p_company : jsstring;
  p_description_html : jsstring;
  p_description_short : jsstring;
  p_url : jsstring;
  p_published_at : jsnum;
  p_slug : jsstring;
  p_tags_csv : jsstring
}.

Record tag : Type := {
  tag_id : Z;
  name : jsstring;
  tag_slug : jsstring
}.

(** The database: the three tables with their AUTOINCREMENT counters, and
    the row of [stats_cache] under the key total_jobs as (value,
    updated_at). *)
Record t : Type := {
  jobs : list job;
  jobs_seq : Z;
  tags : list tag;
  tags_seq : Z;
  job_tags : list (Z * Z);
  stats_cache : option (Z * Z)
}.

Definition with_jobs (d : t) (js : list job) (seq : Z) : t :=
  {| jobs := js; jobs_seq := seq; tags := tags d; tags_seq := tags_seq d;
     job_tags := job_tags d; stats_cache := stats_cache d |}.

Definition with_cache (d : t) (c : option (Z * Z)) : t :=
  {| jobs := jobs d; jobs_seq := jobs_seq d; tags := tags d;
     tags_seq := tags_seq d; job_tags := job_tags d; stats_cache := c |}.

(** stmtInsertJob: INSERT OR IGNORE, [guid] and [slug] being UNIQUE. *)
Definition stmtInsertJob (p : job_params) (d : t) : t :=
  if existsb (fun r => JSStr.eqb (guid r) (p_guid p) || JSStr.eqb (slug r) (p_slug p))
       (jobs d)
  then d
  else
    let i := (jobs_seq d + 1)%Z in
    with_jobs d
      (jobs d ++ [{| id := i; guid := p_guid p; source := p_source p;
                     title := p_title p; company := p_company p;
                     description_html := p_description_html p;
                     description_short := p_description_short p;
                     url := p_url p; published_at := p_published_at p;
                     slug := p_slug p; tags_csv := p_tags_csv p |}])
      i.

(** stmtHasGuid.get *)
Definition stmtHasGuid (g : jsstring) (d : t) : option job :=
  find (fun r => JSStr.eqb (guid r) g) (jobs d).

(** The comparison of two values of the column published_at: null is
    below every number. *)
Definition compare_published (a b : jsnum) : comparison :=
  match a, b with
  | None, None => Eq
  | None, Some _ => Lt
  | Some _, None => Gt
  | Some x, Some y => Z.compare x y
  end.

(** [before a b]: row a is listed before row b by
    ORDER BY published_at DESC, id DESC. *)
Definition before (a b : job) : bool :=
  match compare_published (published_at a) (published_at b) with
  | Gt => true
  | Lt => false
  | Eq => (id b <? id a)%Z
  end.

Fixpoint insert_desc (r : job) (l : list job) : list job :=
  match l with
  | [] => [r]
  | x :: l' => if before r x then r :: l else x :: insert_desc r l'
  end.

(** ORDER BY published_at DESC, id DESC *)
Definition order_desc (l : list job) : list job :=
  fold_right insert_desc [] l.

(** stmtPageFirst.all(limit) *)
Definition stmtPageFirst (limit : nat) (d : t) : list job :=
  firstn limit (order_desc (jobs d)).

(** WHERE published_at < ? OR (published_at = ? AND id < ?) *)
Definition beyond_cursor (pub1 pub2 i : Z) (r : job) : bool :=
  match published_at r with
  | Some p => (p <? pub1)%Z || (p =? pub2)%Z && (id r <? i)%Z
  | None => false
  end.

(** stmtPageCursor.all(pub, pub, id, limit) *)
Definition stmtPageCursor (pub1 pub2 i : Z) (limit : nat) (d : t) : list job :=
  firstn limit (order_desc (filter (beyond_cursor pub1 pub2 i) (jobs d))).

(** stmtGetCache.get('total_jobs', cutoff) *)
Definition stmtGetCache (cutoff : Z) (d : t) : option Z :=
  match stats_cache d with
  | Some (value, updated_at) =>
    if (cutoff <? updated_at)%Z then Some value else None
  | None => None
  end.

(** stmtSetCache.run('total_jobs', value) at time [now]. *)
Definition stmtSetCache (now value : Z) (d : t) : t :=
  with_cache d (Some (value, now)).

(** getCachedCount(ttlSeconds) at time [now]: the count and the database
    after the call. *)
Definition getCachedCount (now ttlSeconds : Z) (d : t) : Z * t :=
  let cutoff := (now - ttlSeconds)%Z in
  match stmtGetCache cutoff d with
  | Some value => (value, d)
  | None =>
    let count := Z.of_nat (List.length (jobs d)) in
    (count, stmtSetCache now count d)
  end.

(** stmtDeleteOld.run(offset): the rows whose id is selected by
    LIMIT -1 OFFSET offset are deleted. *)
Definition stmtDeleteOld (offset : nat) (d : t) : t :=
  let old := map id (skipn offset (order_desc (jobs d))) in
  with_jobs d
    (filter (fun r => negb (existsb (Z.eqb (id r)) old)) (jobs d))
    (jobs_seq d).

(** stmtInsertTag: INSERT OR IGNORE, [name] and [slug] being UNIQUE. *)
Definition stmtInsertTag (n s : jsstring) (d : t) : t :=
  if existsb (fun g => JSStr.eqb (name g) n || JSStr.eqb (tag_slug g) s) (tags d)
  then d
  else
    let i := (tags_seq d + 1)%Z in
    {| jobs := jobs d; jobs_seq := jobs_seq d;
       tags := tags d ++ [{| tag_id := i; name := n; tag_slug := s |}];
       tags_seq := i; job_tags := job_tags d; stats_cache := stats_cache d |}.

(** stmtGetTagByName.get *)
Definition stmtGetTagByName (n : jsstring) (d : t) : option tag :=
  find (fun g => JSStr.eqb (name g) n) (tags d).

(** stmtInsertJobTag: UNIQUE(job_id, tag_id) ON CONFLICT IGNORE *)
Definition stmtInsertJobTag (job_id tid : Z) (d : t) : t :=
  if existsb (fun p => (fst p =? job_id)%Z && (snd p =? tid)%Z) (job_tags d)
  then d
  else
    {| jobs := jobs d; jobs_seq := jobs_seq d; tags := tags d;
       tags_seq := tags_seq d; job_tags := job_tags d ++ [(job_id, tid)];
       stats_cache := stats_cache d |}.

Definition empty : t :=
  {| jobs := []; jobs_seq := 0; tags := []; tags_seq := 0; job_tags := [];
     stats_cache := None |}.

End DB.

(* ------------------------------------------------------------------ *)
(** ** The feed run (TRAITEMENT DU FLUX) *)

(** What the sax stream and the response body emit, in order. *)
Inductive sax_event : Type :=
| OpenTag (name : jsstring)
| Text (text : jsstring)
| CData (text : jsstring)
| CloseTag (name : jsstring)
| SaxError (message : jsstring)     (* parser 'error' *)
| StreamError (message : jsstring)  (* stream 'error' *)
| SaxEnd.                           (* parser 'end' *)

(** await fetch(FEED_URL): it throws, or resolves to a response whose body
    is piped into the parser. *)
Inductive fetch_result : Type :=
| FetchThrows (message : jsstring)
| FetchBody (events : list sax_event).

(** currentItem *)
Record item : Type := {
  i_title : jsstring;
  i_description : jsstring;
  i_company : jsstring;
  i_link : jsstring;
  i_guid : jsstring;
  i_pubDate : jsstring
}.

(** An element of [batch]. *)
Record raw_job : Type := {
  rawTitle : jsstring;
  rawCompany : jsstring;
  rawDescription : jsstring;
  r_guid : jsstring;
  r_source : jsstring;
  r_url : jsstring;
  r_published_at : jsnum
}.

(** A line of the console: the two messages of the early returns, and the
    calls of console.error with their label. *)
Inductive console_line : Type :=
| LogLine (text : jsstring)
| ErrorLine (label message : jsstring).

(** The state of the promise processFeed awaits. *)
Inductive promise_state : Type :=
| PromisePending
| PromiseResolved
| PromiseRejected (message : jsstring).

(** The variables of one run of processFeed, with the database and the
    console. *)
Record run : Type := {
  matched : nat;
  processed : nat;
  skipped : nat;
  aiEnhanced : nat;
  fallbackUsed : nat;
  batch : list raw_job;
  currentItem : option item;
  currentTag : jsstring;
  currentText : jsstring;
  promise : promise_state;
  run_db : DB.t;
  run_console : list console_line
}.

(** The module-level state: the flag, the database, the console. *)
Record world : Type := {
  FEED_RUNNING : bool;
  db : DB.t;
  console : list console_line
}.

(** How a call of processFeed ends: it returns, it throws, or the promise
    it awaits is never settled. *)
Inductive outcome : Type :=
| Returned
| Threw (message : jsstring)
| Pending.

Section Feed.
Variable B : Builtins.
Variable cfg : Config.
Variable ai : ai_backend.

(** String.prototype.split with a non-empty separator text. *)
Fixpoint splitOn_loop (sep acc s : jsstring) (skip : nat) : list jsstring :=
  match s with
  | [] => [rev acc]
  | c :: s' =>
    match skip with
    | S k => splitOn_loop sep acc s' k
    | O =>
      if startsWith sep s
      then rev acc :: splitOn_loop sep [] s' (List.length sep - 1)
      else splitOn_loop sep (c :: acc) s' 0
    end
  end.

Definition splitOn (sep s : jsstring) : list jsstring := splitOn_loop sep [] s 0.

(** upsertTagsForJob *)
Definition upsertTagsForJob (jobId : Z) (names : list jsstring) (d : DB.t) : DB.t :=
  fold_left
    (fun d name =>
       let d := DB.stmtInsertTag name (tagSlug B name) d in
       match DB.stmtGetTagByName name d with
       | Some t => DB.stmtInsertJobTag jobId (DB.tag_id t) d
       | None => d
       end)
    names d.

(** insertBatch *)
Definition insertBatch (jobs : list DB.job_params) (d : DB.t) : DB.t :=
  fold_left
    (fun d job =>
       let d := DB.stmtInsertJob job d in
       match DB.stmtHasGuid (DB.p_guid job) d with
       | Some inserted =>
         upsertTagsForJob (DB.id inserted)
           (filter nonempty (splitOn (JS ", ") (DB.p_tags_csv job))) d
       | None => d
       end)
    jobs d.

Definition isRecordTag (t : jsstring) : bool :=
  JSStr.eqb t (JS "job") || JSStr.eqb t (JS "item").

Definition set_parse (r : run) (it : option item) (tag text : jsstring) : run :=
  {| matched := matched r; processed := processed r; skipped := skipped r;
     aiEnhanced := aiEnhanced r; fallbackUsed := fallbackUsed r;
     batch := batch r; currentItem := it; currentTag := tag;
     currentText := text; promise := promise r; run_db := run_db r;
     run_console := run_console r |}.

(** parser.on('opentag') *)
Definition on_opentag (name : jsstring) (r : run) : run :=
  let tag := toLowerCase B name in
  if isRecordTag tag
  then set_parse r
         (Some {| i_title := []; i_description := []; i_company := [];
                  i_link := []; i_guid := []; i_pubDate := now_iso B |})
         tag []
  else set_parse r (currentItem r) tag [].

(** parser.on('text') and parser.on('cdata') *)
Definition on_text (text : jsstring) (r : run) : run :=
  set_parse r (currentItem r) (currentTag r) (currentText r ++ text).

(** The switch of the closetag handler. *)
Definition assign_field (tagName text : jsstring) (it : item) : item :=
  let tagIs (s : string) := JSStr.eqb tagName (JS s) in
  let value := trim text in
  if tagIs "title" then
    {| i_title := value; i_description := i_description it;
       i_company := i_company it; i_link := i_link it; i_guid := i_guid it;
       i_pubDate := i_pubDate it |}
  else if tagIs "description" then
    {| i_title := i_title it; i_description := value;
       i_company := i_company it; i_link := i_link it; i_guid := i_guid it;
       i_pubDate := i_pubDate it |}
  else if tagIs "company" then
    {| i_title := i_title it; i_description := i_description it;
       i_company := value; i_link := i_link it; i_guid := i_guid it;
       i_pubDate := i_pubDate it |}
  else if tagIs "url" || tagIs "link" then
    {| i_title := i_title it; i_description := i_description it;
       i_company := i_company it; i_link := value; i_guid := i_guid it;
       i_pubDate := i_pubDate it |}
  else if tagIs "guid" || tagIs "referencenumber" then
    if negb (nonempty (i_guid it)) then
      {| i_title := i_title it; i_description := i_description it;
         i_company := i_company it; i_link := i_link it; i_guid := value;
         i_pubDate := i_pubDate it |}
    else it
  else if tagIs "pubdate" || tagIs "date_updated" then
    {| i_title := i_title it; i_description := i_description it;
       i_company := i_company it; i_link := i_link it; i_guid := i_guid it;
       i_pubDate := value |}
  else it.

(** const guid = currentItem.guid || currentItem.link || `job-${processed}` *)
Definition identityOf (it : item) (processed : nat) : jsstring :=
  or_else (i_guid it)
    (or_else (i_link it) (JS "job-" ++ N_to_string (N.of_nat processed))).

(** What the closetag handler does at the end of a record. *)
Definition close_record (it : item) (r : run) : run :=
  let processed := S (processed r) in
  let guid := identityOf it processed in
  let skip :=
    {| matched := matched r; processed := processed; skipped := S (skipped r);
       aiEnhanced := aiEnhanced r; fallbackUsed := fallbackUsed r;
       batch := batch r; currentItem := None; currentTag := currentTag r;
       currentText := currentText r; promise := promise r;
       run_db := run_db r; run_console := run_console r |} in
  match DB.stmtHasGuid guid (run_db r) with
  | Some _ => skip
  | None =>
    if negb (matchesProfession B cfg (i_title it) (i_company it) (i_description it))
    then skip
    else
      {| matched := S (matched r); processed := processed; skipped := skipped r;
         aiEnhanced := aiEnhanced r; fallbackUsed := fallbackUsed r;
         batch := batch r ++
           [{| rawTitle := i_title it; rawCompany := i_company it;
               rawDescription := i_description it; r_guid := guid;
               r_source := url_hostname B (FEED_URL cfg); r_url := i_link it;
               r_published_at := unixtime B (i_pubDate it) |}];
         currentItem := None; currentTag := currentTag r;
         currentText := currentText r; promise := promise r;
         run_db := run_db r; run_console := run_console r |}
  end.

(** parser.on('closetag') *)
Definition on_closetag (tagName : jsstring) (r : run) : run :=
  let tagName := toLowerCase B tagName in
  match currentItem r with
  | None => r
  | Some it =>
    let it := assign_field tagName (currentText r) it in
    if isRecordTag tagName then close_record it r
    else set_parse r (Some it) (currentTag r) (currentText r)
  end.

Definition settle (p : promise_state) (r : run) : run :=
  {| matched := matched r; processed := processed r; skipped := skipped r;
     aiEnhanced := aiEnhanced r; fallbackUsed := fallbackUsed r;
     batch := batch r; currentItem := currentItem r;
     currentTag := currentTag r; currentText := currentText r;
     promise := match promise r with PromisePending => p | s => s end;
     run_db := run_db r; run_console := run_console r |}.

Definition log_error (label message : jsstring) (r : run) : run :=
  {| matched := matched r; processed := processed r; skipped := skipped r;
     aiEnhanced := aiEnhanced r; fallbackUsed := fallbackUsed r;
     batch := batch r; currentItem := currentItem r;
     currentTag := currentTag r; currentText := currentText r;
     promise := promise r; run_db := run_db r;
     run_console := run_console r ++ [ErrorLine label message] |}.

(** The two listeners of the parser's 'error': the first logs, the second
    is [reject]. *)
Definition on_error (message : jsstring) (r : run) : run :=
  settle (PromiseRejected message) (log_error (JS "Erreur SAX :") message r).

(** stream.on('error', reject) *)
Definition on_stream_error (message : jsstring) (r : run) : run :=
  settle (PromiseRejected message) r.

(** The state of the loop of the 'end' handler. *)
Record enrich_state : Type := {
  e_aiEnhanced : nat;
  e_fallbackUsed : nat;
  processedBatch : list DB.job_params;
  e_db : DB.t;
  e_console : list console_line
}.

Definition batchSize : nat := 100.

(** One turn of the loop over [batch]; [i] is the index of [rawJob]. *)
Definition enrich_one (st : enrich_state) (i : nat) (rawJob : raw_job) : enrich_state :=
  let shouldUseAI :=
    Nat.eqb (AI_PROCESS_LIMIT cfg) 0 || Nat.ltb (e_aiEnhanced st) (AI_PROCESS_LIMIT cfg) in
  let res := rewriteJobRich B cfg (ai i) (rawTitle rawJob) (rawCompany rawJob)
               (rawDescription rawJob) shouldUseAI in
  let console :=
    match rewriteJobRich_error B cfg (ai i) (rawTitle rawJob) (rawCompany rawJob)
            (rawDescription rawJob) shouldUseAI with
    | Some message => e_console st ++ [ErrorLine (JS "OpenAI error:") message]
    | None => e_console st
    end in
  let slug :=
    or_else (mkSlug B (rawTitle rawJob ++ JS "-" ++ rawCompany rawJob))
      (or_else (mkSlug B (rawTitle rawJob)) (mkSlug B (r_guid rawJob))) in
  let row :=
    {| DB.p_guid := r_guid rawJob;
       DB.p_source := r_source rawJob;
       DB.p_title := or_else (rawTitle rawJob) (JS "Sans titre");
       DB.p_company := rawCompany rawJob;
       DB.p_description_html := html res;
       DB.p_description_short := truncateWords (short res) 60;
       DB.p_url := r_url rawJob;
       DB.p_published_at := r_published_at rawJob;
       DB.p_slug := slug;
       DB.p_tags_csv := join (JS ", ") (tags res) |} in
  let pb := processedBatch st ++ [row] in
  let flush := Nat.leb batchSize (List.length pb) in
  {| e_aiEnhanced := if usedAI res then S (e_aiEnhanced st) else e_aiEnhanced st;
     e_fallbackUsed := if usedAI res then e_fallbackUsed st else S (e_fallbackUsed st);
     processedBatch := if flush then [] else pb;
     e_db := if flush then insertBatch pb (e_db st) else e_db st;
     e_console := console |}.

Fixpoint enrich_loop (st : enrich_state) (i : nat) (l : list raw_job) : enrich_state :=
  match l with
  | [] => st
  | rawJob :: l' => enrich_loop (enrich_one st i rawJob) (S i) l'
  end.

(** parser.on('end') *)
Definition on_end (r : run) : run :=
  let st :=
    match batch r with
    | [] =>
      {| e_aiEnhanced := aiEnhanced r; e_fallbackUsed := fallbackUsed r;
         processedBatch := []; e_db := run_db r; e_console := run_console r |}
    | _ :: _ =>
      let st :=
        enrich_loop
          {| e_aiEnhanced := aiEnhanced r; e_fallbackUsed := fallbackUsed r;
             processedBatch := []; e_db := run_db r; e_console := run_console r |}
          0 (batch r) in
      match processedBatch st with
      | [] => st
      | _ :: _ =>
        {| e_aiEnhanced := e_aiEnhanced st; e_fallbackUsed := e_fallbackUsed st;
           processedBatch := processedBatch st;
           e_db := insertBatch (processedBatch st) (e_db st);
           e_console := e_console st |}
      end
    end in
  settle PromiseResolved
    {| matched := matched r; processed := processed r; skipped := skipped r;
       aiEnhanced := e_aiEnhanced st; fallbackUsed := e_fallbackUsed st;
       batch := batch r; currentItem := currentItem r;
       currentTag := currentTag r; currentText := currentText r;
       promise := promise r; run_db := e_db st; run_console := e_console st |}.

Definition on_event (r : run) (e : sax_event) : run :=
  match e with
  | OpenTag name => on_opentag name r
  | Text text => on_text text r
  | CData text => on_text text r
  | CloseTag name => on_closetag name r
  | SaxError message => on_error message r
  | StreamError message => on_stream_error message r
  | SaxEnd => on_end r
  end.

(** The variables of a run when the parser is created. *)
Definition start_run (w : world) : run :=
  {| matched := 0; processed := 0; skipped := 0; aiEnhanced := 0;
     fallbackUsed := 0; batch := []; currentItem := None; currentTag := [];
     currentText := []; promise := PromisePending; run_db := db w;
     run_console := console w |}.

(** The retention step at the end of the try block. *)
Definition prune (d : DB.t) : DB.t :=
  let '(total, d) := DB.getCachedCount (now_seconds B) 0 d in
  if (Z.of_nat (MAX_JOBS cfg) <? total)%Z
  then DB.stmtSetCache (now_seconds B) (Z.of_nat (MAX_JOBS cfg))
         (DB.stmtDeleteOld (MAX_JOBS cfg) d)
  else d.

(** The catch and finally blocks. *)
Definition fail_run (message : jsstring) (d : DB.t) (c : list console_line)
  : outcome * world :=
  (Threw message,
   {| FEED_RUNNING := false; db := d;
      console := c ++ [ErrorLine (JS "Erreur de traitement du flux :") message] |}).

(** The run from [FEED_RUNNING = true] on: the try block with its catch
    and finally. *)
Definition run_feed (fetched : fetch_result) (w : world) : outcome * world :=
  match fetched with
  | FetchThrows message => fail_run message (db w) (console w)
  | FetchBody events =>
    let r := fold_left on_event events (start_run w) in
    match promise r with
    | PromisePending =>
      (Pending, {| FEED_RUNNING := true; db := run_db r; console := run_console r |})
    | PromiseRejected message => fail_run message (run_db r) (run_console r)
    | PromiseResolved =>
      (Returned,
       {| FEED_RUNNING := false; db := prune (run_db r); console := run_console r |})
    end
  end.

(** processFeed *)
Definition processFeed (fetched : fetch_result) (w : world) : outcome * world :=
  if FEED_RUNNING w then
    (Returned,
     {| FEED_RUNNING := FEED_RUNNING w; db := db w;
        console := console w ++ [LogLine (JS "Traitement du flux déjà en cours, on ignore…")] |})
  else if negb (nonempty (FEED_URL cfg)) then
    (Returned,
     {| FEED_RUNNING := FEED_RUNNING w; db := db w;
        console := console w ++ [LogLine (JS "Aucune FEED_URL configurée")] |})
  else
    run_feed fetched
      {| FEED_RUNNING := true; db := db w; console := console w |}.

End Feed.

(* ------------------------------------------------------------------ *)
(** ** The listing page (ACCUEIL) and a full scan of it *)

(** Number(s) on the decimal integer literals, with the white space and
    the sign the conversion accepts, and on the empty text (which is 0).
    The other numeric literals (fractions, exponents, hexadecimal,
    Infinity) are outside the model and read as NaN. *)
Definition toNumber (s : jsstring) : jsnum :=
  let digits (ds : jsstring) : option Z :=
    if nonempty ds && forallb isDigit ds then Some (Z.of_N (digits_to_N ds))
    else None in
  match trim s with
  | [] => Some 0%Z
  | c :: ds =>
    if (c =? 43)%N then digits ds
    else if (c =? 45)%N then option_map Z.opp (digits ds)
    else digits (c :: ds)
  end.

(** ToBoolean of a number: NaN and 0 are falsy. *)
Definition truthyNumber (n : jsnum) : bool :=
  match n with
  | Some z => negb (z =? 0)%Z
  | None => false
  end.

(** `${n}` for a column value. *)
Definition column_to_string (n : jsnum) : jsstring :=
  match n with
  | Some z => Z_to_string z
  | None => JS "null"
  end.

(** What the route answers: status 400, or the rows of the page and
    nextCursor. *)
Inductive response : Type :=
| BadRequest
| Page (rows : list DB.job) (nextCursor : option jsstring).

Section Serving.
Variable B : Builtins.

Definition pageSize : nat := 50.

(** The cursor of a row: `${published_at}-${id}`. *)
Definition cursor_of (r : DB.job) : jsstring :=
  column_to_string (DB.published_at r) ++ JS "-" ++ Z_to_string (DB.id r).

(** The route once [rows] are read: the count is refreshed, and
    nextCursor is the cursor of the last row when the page is full. *)
Definition respond (rows : list DB.job) (d : DB.t) : response * DB.t :=
  let '(_, d') := DB.getCachedCount (now_seconds B) 300 d in
  let hasMore := Nat.eqb (List.length rows) pageSize in
  (Page rows
     (if hasMore
      then option_map cursor_of (last (map Some rows) None)
      else None),
   d').

(** app.get('/'), as far as the rows and nextCursor; [cursor] is
    req.query.cursor || ''.  The database after the call differs by the
    count cache only. *)
Definition home (cursor : jsstring) (d : DB.t) : response * DB.t :=
  if negb (nonempty cursor) then respond (DB.stmtPageFirst pageSize d) d
  else
    let parts := map toNumber (splitOn (JS "-") cursor) in
    let pub := nth 0 parts None in
    let id := nth 1 parts None in
    if negb (truthyNumber pub) || negb (truthyNumber id) then (BadRequest, d)
    else
      match pub, id with
      | Some pub, Some id => respond (DB.stmtPageCursor pub pub id pageSize d) d
      | _, _ => (BadRequest, d)
      end.

(** How a scan ends. *)
Inductive scan_end : Type :=
| ScanComplete      (* a page came without nextCursor *)
| ScanRefused       (* a request was answered 400 *)
| ScanUnfinished.   (* more pages than [fuel] *)

(** A full scan: the first request carries no cursor, every next one the
    nextCursor of the page before; the rows of all pages, in order. *)
Fixpoint fullScan (fuel : nat) (cursor : jsstring) (d : DB.t)
  : list DB.job * scan_end :=
  match fuel with
  | O => ([], ScanUnfinished)
  | S fuel' =>
    match home cursor d with
    | (BadRequest, _) => ([], ScanRefused)
    | (Page rows None, _) => (rows, ScanComplete)
    | (Page rows (Some next), d') =>
      let '(more, e) := fullScan fuel' next d' in
      (rows ++ more, e)
    end
  end.

End Serving.

(* ------------------------------------------------------------------ *)
(** ** The other pages and what they are made with *)

(** The tags of the posting page (app.get('/job/:slug')):
    (job.tags_csv || '').split(',').map(s => s.trim()).filter(Boolean) *)
Definition pageTags (tags_csv : jsstring) : list jsstring :=
  filter nonempty (map trim (splitOn (JS ",") tags_csv)).

(** The tags insertBatch reads back from a row:
    job.tags_csv.split(', ').filter(Boolean) *)
Definition batchTags (tags_csv : jsstring) : list jsstring :=
  filter nonempty (splitOn (JS ", ") tags_csv).

(* ------------------------------------------------------------------ *)
(** ** The location of a posting (getCountryFromHost, inferJobLocations) *)

(** What a property access on the object literal [map] evaluates to when
    it is truthy: the country code of an own property, or the value of a
    property the literal inherits from Object.prototype (a function, or the
    prototype itself), which is no text. *)
Inductive country : Type :=
| Country (code : jsstring)
| Inherited (property : jsstring).

(** The address of the Place: addressLocality is absent when no city was
    found. *)
Record place : Type := {
  addressLocality : option jsstring;
  addressCountry : country
}.

(** The names an object literal inherits from Object.prototype. *)
Definition inherited_names : list jsstring :=
  map JS ["constructor"; "__defineGetter__"; "__defineSetter__"; "hasOwnProperty";
          "__lookupGetter__"; "__lookupSetter__"; "isPrototypeOf";
          "propertyIsEnumerable"; "toString"; "valueOf"; "__proto__";
          "toLocaleString"].

(** const map *)
Definition country_map : list (jsstring * jsstring) :=
  map (fun p => (JS (fst p), JS (snd p)))
    [ ("fr", "FR"); ("be", "BE"); ("ch", "CH"); ("lu", "LU"); ("ca", "CA");
      ("de", "DE"); ("at", "AT"); ("li", "LI");
      ("uk", "GB"); ("gb", "GB"); ("ie", "IE");
      ("us", "US"); ("au", "AU"); ("nz", "NZ");
      ("nl", "NL"); ("es", "ES"); ("pt", "PT"); ("it", "IT") ].

(** const citiesFR *)
Definition citiesFR : list jsstring :=
  map JS ["paris"; "lyon"; "marseille"; "toulouse"; "lille"; "bordeaux"; "nantes";
          "strasbourg"; "rennes"; "montpellier"; "nice"; "grenoble"; "dijon";
          "angers"; "tours"; "reims"; "saint-étienne"; "toulon"; "le havre";
          "clermont-ferrand"].

Section Locations.
Variable B : Builtins.
(** new URL(u).hostname: [None] when the constructor throws. *)
Variable URL_hostname : jsstring -> option jsstring.

Fixpoint lookup_country (key : jsstring) (l : list (jsstring * jsstring))
  : option jsstring :=
  match l with
  | [] => None
  | (k, v) :: l' => if JSStr.eqb key k then Some v else lookup_country key l'
  end.

(** host.split('.').pop() *)
Definition tldOf (host : jsstring) : jsstring :=
  last (splitOn (JS ".") host) [].

(** getCountryFromHost *)
Definition getCountryFromHost (siteUrl : jsstring) : country :=
  match URL_hostname siteUrl with
  | None => Country (JS "FR")
  | Some hostname =>
    let host := toLowerCase B hostname in
    let tld := tldOf host in
    match lookup_country tld country_map with
    | Some code => Country code
    | None =>
      if existsb (JSStr.eqb tld) inherited_names then Inherited tld
      else Country (JS "FR")
    end
  end.

(** inferJobLocations *)
Definition inferJobLocations (html title siteUrl : jsstring) : list place :=
  let country := getCountryFromHost siteUrl in
  let text := metaText B html title in
  let city := find (fun c => includes text c) citiesFR in
  [ match city with
    | Some c =>
      {| addressLocality := Some (toUpperCase B (firstn 1 c) ++ skipn 1 c);
         addressCountry := country |}
    | None => {| addressLocality := None; addressCountry := country |}
    end ].

End Locations.

(* ------------------------------------------------------------------ *)
(** ** The posting page and the click route (PAGE OFFRE, /go) *)

(** What the two routes take from node:crypto and from the environment. *)
Record Click : Type := {
  CLICK_SECRET : jsstring;
  (** crypto.createHmac('sha256', key).update(message).digest('hex') *)
  hmac_sha256_hex : jsstring -> jsstring -> jsstring
}.

(** Number(v) for a value of a request body; on texts as [toNumber], which
    reads the decimal integers. *)
Definition Number_of (v : jsval) : jsnum :=
  match v with
  | JNull => Some 0%Z
  | JBool b => Some (if b then 1 else 0)%Z
  | JNum n => Some n
  | JStr s => toNumber s
  | JArr _ => toNumber (ToString v)
  | JObj => None
  end.

(** stmtById.get *)
Definition stmtById (i : Z) (d : DB.t) : option DB.job :=
  find (fun r => (DB.id r =? i)%Z) (DB.jobs d).

(** stmtBySlug.get *)
Definition stmtBySlug (s : jsstring) (d : DB.t) : option DB.job :=
  find (fun r => JSStr.eqb (DB.slug r) s) (DB.jobs d).

(** What app.post('/go') answers. *)
Inductive go_response : Type :=
| GoBadRequest              (* 400 *)
| GoForbidden               (* 403 *)
| GoNotFound                (* 404 *)
| GoRedirect (url : jsstring).   (* 302 *)

(** What the posting page is made of, as far as the form that posts to
    /go, the tag links, and the facts and the location of the JSON-LD
    go. *)
Record job_page : Type := {
  form_id : jsstring;
  form_t : jsstring;
  tag_links : list (jsstring * jsstring);
  page_meta : meta;
  jobLocations : list place
}.

(** new Date(ms) holds a time when ms is within 8.64e15 of 0;
    toISOString throws a RangeError on the other dates. *)
Definition validTime (ms : Z) : bool := (Z.abs ms <=? 8640000000000000)%Z.

(** job.published_at * 1000, null counting as 0. *)
Definition published_ms (job : DB.job) : Z :=
  match DB.published_at job with
  | Some s => (s * 1000)%Z
  | None => 0%Z
  end.

(** What app.get('/job/:slug') answers: status 404, an exception (which
    Express answers with status 500), or the page. *)
Inductive job_response : Type :=
| JobNotFound
| JobThrows
| JobPage (page : job_page).

Section ClickRoute.
Variable B : Builtins.
Variable K : Click.
Variable URL_hostname : jsstring -> option jsstring.
Variable SITE_URL : jsstring.

(** The token of a posting id:
    createHmac('sha256', CLICK_SECRET).update(String(id)).digest('hex').slice(0, 16) *)
Definition clickToken (id : Z) : jsstring :=
  slice 0 16 (hmac_sha256_hex K (CLICK_SECRET K) (Z_to_string id)).

(** app.get('/job/:slug'); datePostedISO is what throws. *)
Definition jobPage (slug : jsstring) (d : DB.t) : job_response :=
  match stmtBySlug slug d with
  | None => JobNotFound
  | Some job =>
    if negb (validTime (published_ms job)) then JobThrows
    else
    JobPage
         {| form_id := Z_to_string (DB.id job);
            form_t := clickToken (DB.id job);
            tag_links :=
              map (fun name => (tagSlug B name, name)) (pageTags (DB.tags_csv job));
            page_meta := parseMeta B (DB.description_html job) (DB.title job);
            jobLocations :=
              inferJobLocations B URL_hostname (DB.description_html job)
                (DB.title job) SITE_URL |}
  end.

(** app.post('/go'): [id] and [t] are req.body?.id and req.body?.t, [None]
    when the body has no such field. *)
Definition go (id t : option jsval) (d : DB.t) : go_response :=
  let id :=
    Number_of match id with
              | Some v => if truthy v then v else JNum 0
              | None => JNum 0
              end in
  let t :=
    match t with
    | Some v => if truthy v then ToString v else []
    | None => []
    end in
  if negb (truthyNumber id) || negb (nonempty t) then GoBadRequest
  else
    match id with
    | None => GoBadRequest
    | Some i =>
      if negb (JSStr.eqb t (clickToken i)) then GoForbidden
      else
        match stmtById i d with
        | Some job =>
          if nonempty (DB.url job) then GoRedirect (DB.url job) else GoNotFound
        | None => GoNotFound
        end
    end.

End ClickRoute.

(* ------------------------------------------------------------------ *)
(** ** Canonical URLs (canonical) *)

(** RegExp.prototype.test for a pattern that starts with ^ (no m flag):
    the rest of the pattern is matched at index 0 only. *)
Definition test_from_start (ignoreCase : bool) (r : Regex.regex) (s : jsstring)
  : bool :=
  match Regex.match_at ignoreCase r
          {| Regex.before := None; Regex.rest := s; Regex.pos := 0;
             Regex.caps := [] |} with
  | Some _ => true
  | None => false
  end.

(** /^https?:\/\//i.test(p) *)
Definition isAbsoluteUrl (p : jsstring) : bool :=
  test_from_start true
    (Regex.seq [Regex.lit "http"; Regex.opt (Regex.lit "s"); Regex.lit "://"]) p.

(** canonical; [SITE_URL] is the constant of that name. *)
Definition canonical (SITE_URL path : jsstring) : jsstring :=
  if isAbsoluteUrl path then path
  else SITE_URL ++ (if startsWith (JS "/") path then [] else JS "/") ++ path.

(** String.prototype.replace with a pattern without the g flag: the
    leftmost match is replaced. *)
Definition replace_first (ignoreCase : bool) (r : Regex.regex)
    (f : Regex.match_result -> jsstring) (s : jsstring) : jsstring :=
  match Regex.exec ignoreCase r s with
  | Some res =>
    firstn (Regex.index res) s ++ f res ++ Regex.rest (Regex.after res)
  | None => s
  end.

(** const SITE_URL; [configured] is
    process.env.SITE_URL || `http://localhost:${PORT}`. *)
Definition SITE_URL_of (configured : jsstring) : jsstring :=
  replace_first false (Regex.seq [Regex.plus (Regex.Chr 47); Regex.Eoi])
    (fun _ => []) configured.

(* ------------------------------------------------------------------ *)
(** ** The tag page (PAGE TAG) *)

(** stmtGetTagBySlug.get *)
Definition stmtGetTagBySlug (s : jsstring) (d : DB.t) : option DB.tag :=
  find (fun t => JSStr.eqb (DB.tag_slug t) s) (DB.tags d).

(** stmtCountJobsByTagId.get(tag_id).c *)
Definition stmtCountJobsByTagId (tid : Z) (d : DB.t) : nat :=
  List.length (filter (fun l => (snd l =? tid)%Z) (DB.job_tags d)).

(** FROM jobs j JOIN job_tags jt ON jt.job_id = j.id
              JOIN tags t ON t.id = jt.tag_id
    WHERE t.slug = ?: the columns of j, once for every pair of a link and a
    tag that the conditions join it with. *)
Definition jobsJoinedByTag (s : jsstring) (d : DB.t) : list DB.job :=
  flat_map
    (fun j =>
       flat_map
         (fun jt =>
            flat_map
              (fun t =>
                 if (fst jt =? DB.id j)%Z && (DB.tag_id t =? snd jt)%Z
                    && JSStr.eqb (DB.tag_slug t) s
                 then [j] else [])
              (DB.tags d))
         (DB.job_tags d))
    (DB.jobs d).

(** stmtJobsByTagFirst.all(slug, limit) *)
Definition stmtJobsByTagFirst (s : jsstring) (limit : nat) (d : DB.t) : list DB.job :=
  firstn limit (DB.order_desc (jobsJoinedByTag s d)).

(** stmtJobsByTagCursor.all(slug, pub, pub, id, limit) *)
Definition stmtJobsByTagCursor (s : jsstring) (pub1 pub2 i : Z) (limit : nat)
    (d : DB.t) : list DB.job :=
  firstn limit
    (DB.order_desc (filter (DB.beyond_cursor pub1 pub2 i) (jobsJoinedByTag s d))).

(** What the tag page answers: 404, 400, or the rows of the page, the
    count shown above them and nextCursor. *)
Inductive tag_response : Type :=
| TagNotFound
| TagBadRequest
| TagPage (rows : list DB.job) (cnt : nat) (nextCursor : option jsstring).

(** app.get('/tag/:slug'), as far as the rows, the count and nextCursor;
    [cursor] is req.query.cursor || ''. *)
Definition tagPage (slug cursor : jsstring) (d : DB.t) : tag_response :=
  match stmtGetTagBySlug slug d with
  | None => TagNotFound
  | Some tag =>
    let answer (rows : list DB.job) :=
      TagPage rows (stmtCountJobsByTagId (DB.tag_id tag) d)
        (if Nat.eqb (List.length rows) pageSize
         then option_map cursor_of (last (map Some rows) None)
         else None) in
    if negb (nonempty cursor) then answer (stmtJobsByTagFirst slug pageSize d)
    else
      let parts := map toNumber (splitOn (JS "-") cursor) in
      let pub := nth 0 parts None in
      let id := nth 1 parts None in
      if negb (truthyNumber pub) || negb (truthyNumber id) then TagBadRequest
      else
        match pub, id with
        | Some pub, Some id => answer (stmtJobsByTagCursor slug pub pub id pageSize d)
        | _, _ => TagBadRequest
        end
  end.


(** ** A sample environment

    An instance of [Builtins] and of [Config] to run the model on: the case
    mappings of ASCII and Latin-1 letters, a text renderer that returns its
    input (as html-to-text does on one short line without markup), and a
    clock that stands still. *)

Module Sample.

Definition lower1 (c : N) : N :=
  if ((65 <=? c) && (c <=? 90)
      || (192 <=? c) && (c <=? 222) && negb (c =? 215))%N
  then (c + 32)%N else c.

Definition upper1 (c : N) : N :=
  if ((97 <=? c) && (c <=? 122)
      || (224 <=? c) && (c <=? 254) && negb (c =? 247))%N
  then (c - 32)%N else c.

(** A slug: letters and digits in lower case, anything else a hyphen. *)
Definition slug1 (c : N) : N :=
  let c := lower1 c in
  if ((48 <=? c) && (c <=? 57) || (97 <=? c) && (c <=? 122))%N then c else 45%N.

(** Dates are read off a table: seconds since the epoch. *)
Definition dates : list (jsstring * Z) :=
  [ (JS "1970-01-01T00:00:00Z", 0%Z);
    (JS "1970-01-01T00:00:01Z", 1%Z);
    (JS "1970-01-01T00:00:02Z", 2%Z);
    (JS "1970-01-01T00:00:03Z", 3%Z);
    (JS "2024-01-01T00:00:00.000Z", 1704067200%Z) ].

Fixpoint lookup_date (s : jsstring) (l : list (jsstring * Z)) : jsnum :=
  match l with
  | [] => None
  | (k, v) :: l' => if JSStr.eqb s k then Some v else lookup_date s l'
  end.

(** The host of scheme://host/path. *)
Fixpoint after_slashes (s : jsstring) : jsstring :=
  match s with
  | 47%N :: 47%N :: r => r
  | _ :: r => after_slashes r
  | [] => []
  end.

Fixpoint until_slash (s : jsstring) : jsstring :=
  match s with
  | [] => []
  | c :: r => if (c =? 47)%N then [] else c :: until_slash r
  end.

Definition builtins : Builtins :=
  {| toLowerCase := map lower1;
     toUpperCase := map upper1;
     convert := fun html _ => html;
     slugify := map slug1;
     JSON_parse_array := fun _ => None;
     date_seconds := fun d => lookup_date d dates;
     now_iso := JS "2024-01-01T00:00:00.000Z";
     now_seconds := 1704067200%Z;
     url_hostname := fun u => until_slash (after_slashes u) |}.

Definition config : Config :=
  {| FEED_URL := JS "https://feed.example/jobs.xml";
     MAX_JOBS := 2;
     HAS_OPENAI := true;
     TARGET_PROFESSION := JS "conducteur routier";
     TARGET_LANG := JS "fr";
     AI_PROCESS_LIMIT := 0;
     PROFESSION_KEYWORDS := map JS ["conducteur routier"; "chauffeur spl"; "spl"] |}.

Definition idle : world :=
  {| FEED_RUNNING := false; db := DB.empty; console := [] |}.

End Sample.

(* ------------------------------------------------------------------ *)
(** ** Definitions the properties are stated with *)

(** What the tag normaliser needs of toLowerCase: lower-casing a second
    time changes nothing, and it puts no white space at the ends of a text
    that has none. *)
Record LowerCaseLaws (B : Builtins) : Prop := {
  lower_idempotent :
    forall s, toLowerCase B (toLowerCase B s) = toLowerCase B s;
  lower_keeps_trimmed :
    forall s, trim s = s -> trim (toLowerCase B s) = toLowerCase B s
}.

(** A list without its repeated entries, every entry staying where it is
    seen first. *)
Definition first_seen (l : list jsstring) : list jsstring :=
  rev (nodup (list_eq_dec N.eq_dec) (rev l)).

(** The tag normaliser in the words of the specification: trim and
    lower-case, drop the empties, remove the duplicates preserving
    first-seen order, truncate to the first 8 survivors. *)
Definition normalize_spec (B : Builtins) (tags : list jsval) : list jsstring :=
  let cleaned := map (fun t => toLowerCase B (trim (ToString t))) (filter truthy tags) in
  firstn 8 (first_seen (filter nonempty cleaned)).

(** The entries the loop of uniqNormTags looks at after cleaning. *)
Definition candidates (B : Builtins) (tags : list jsval) : list jsstring :=
  filter nonempty
    (map (fun t => toLowerCase B (trim (ToString t))) (filter truthy tags)).

(** A list of rows is in the order of the listing when every row is before
    all the rows after it: strictly descending (published_at, id). *)
Definition listed (l : list DB.job) : Prop :=
  StronglySorted (fun a b => DB.before a b = true) l.

(** A child element of a record that holds text only, as (name, text):
    the parser emits its opening tag, its text and its closing tag. *)
Definition child_events (c : jsstring * jsstring) : list sax_event :=
  [OpenTag (fst c); Text (snd c); CloseTag (fst c)].

Definition isLinkChild (B : Builtins) (c : jsstring * jsstring) : bool :=
  JSStr.eqb (toLowerCase B (fst c)) (JS "url")
  || JSStr.eqb (toLowerCase B (fst c)) (JS "link").

Definition isGuidChild (B : Builtins) (c : jsstring * jsstring) : bool :=
  JSStr.eqb (toLowerCase B (fst c)) (JS "guid")
  || JSStr.eqb (toLowerCase B (fst c)) (JS "referencenumber").

(** The child is a field of the record, not a record element itself. *)
Definition isFieldChild (B : Builtins) (c : jsstring * jsstring) : Prop :=
  isRecordTag (toLowerCase B (fst c)) = false.

(** The fields of currentItem after the child elements [children]. *)
Definition fields_after (B : Builtins) (it : item)
    (children : list (jsstring * jsstring)) : item :=
  fold_left (fun it c => assign_field (toLowerCase B (fst c)) (snd c) it) children it.

(** The invariant of the table [jobs]: guid, slug and id are each unique,
    and every id was given out by the AUTOINCREMENT counter. *)
Definition store_ok (d : DB.t) : Prop :=
  NoDup (map DB.guid (DB.jobs d))
  /\ NoDup (map DB.slug (DB.jobs d))
  /\ NoDup (map DB.id (DB.jobs d))
  /\ (0 <= DB.jobs_seq d)%Z
  /\ (forall r, In r (DB.jobs d) -> (0 < DB.id r <= DB.jobs_seq d)%Z).

(** The events of the content of a feed: neither an error nor the end. *)
Definition isContent (e : sax_event) : Prop :=
  match e with
  | OpenTag _ | Text _ | CData _ | CloseTag _ => True
  | SaxError _ | StreamError _ | SaxEnd => False
  end.

(* ------------------------------------------------------------------ *)
(** ** Definitions the further properties are stated with *)

(** The character reference escapeHtml writes for a code unit. *)
Definition entity (c : N) : jsstring :=
  if (c =? 38)%N then JS "&amp;"
  else if (c =? 60)%N then JS "&lt;"
  else if (c =? 62)%N then JS "&gt;"
  else if (c =? 34)%N then JS "&quot;"
  else if (c =? 39)%N then JS "&#39;"
  else [c].

(** The code units that delimit markup in an HTML text or attribute value:
    less-than, greater-than and the two quotes. *)
Definition isMarkup (c : N) : bool :=
  ((c =? 60) || (c =? 62) || (c =? 34) || (c =? 39))%N.

(** [only_deletes out s]: the text out is s with some code units deleted,
    the others kept in their order. *)
Inductive only_deletes : jsstring -> jsstring -> Prop :=
| od_nil : only_deletes [] []
| od_keep (c : N) (a b : jsstring) : only_deletes a b -> only_deletes (c :: a) (c :: b)
| od_drop (c : N) (a b : jsstring) : only_deletes a b -> only_deletes a (c :: b).

(** The words of a text as truncateWords counts them. *)
Definition wordsOf (txt : jsstring) : list jsstring :=
  Regex.split (Regex.plus Regex.ws) txt.

(** The pieces of a text between runs of white space, read code unit by
    code unit: [insep] tells that the last code unit read was white space,
    [acc] holds the piece being read, reversed. *)
Fixpoint pieces (insep : bool) (acc s : jsstring) : list jsstring :=
  match s with
  | [] => [rev acc]
  | c :: s' =>
    if isWhiteSpace c
    then if insep then pieces true acc s' else rev acc :: pieces true [] s'
    else pieces false (c :: acc) s'
  end.

(** A tag that tags_csv can carry: not empty, without a comma, and
    trimmed. *)
Definition csvSafe (t : jsstring) : Prop :=
  t <> [] /\ ~ In 44%N t /\ trim t = t.

(** The tags extractTags chooses from: the table of the profession, the
    five contract and workplace tags, and the profession itself. *)
Definition tagVocabulary (B : Builtins) (cfg : Config) : list jsstring :=
  let profTags :=
    match lookup_tags (toLowerCase B (TARGET_PROFESSION cfg)) PROFESSION_TAGS with
    | Some l => l
    | None =>
      match lookup_tags (JS "conducteur routier") PROFESSION_TAGS with
      | Some l => l
      | None => []
      end
    end in
  profTags
  ++ map JS ["télétravail"; "temps plein"; "temps partiel"; "cdi"; "contrat"]
  ++ [toLowerCase B (TARGET_PROFESSION cfg)].

(** [extends x y]: the state y is x after reading a part of its input. *)
Definition extends (x y : Regex.mstate) : Prop :=
  exists pre, Regex.rest x = pre ++ Regex.rest y
              /\ Regex.pos y = Regex.pos x + List.length pre.

(** A matcher that succeeds has called its continuation, on a state that
    extends its own, and returns what the continuation returned. *)
Definition calls_continuation (m : Regex.matcher) : Prop :=
  forall x k res, m x k = Some res -> exists y, extends x y /\ k y = Some res.

(** The profession names a key of PROFESSION_TAGS or no property at all:
    it is not one of the names the object literal inherits from
    Object.prototype, whose values are no lists of tags. *)
Definition ownKey (B : Builtins) (cfg : Config) : Prop :=
  ~ In (toLowerCase B (TARGET_PROFESSION cfg)) inherited_names.

(** The slug the 'end' handler gives a matched record. *)
Definition slugOf (B : Builtins) (raw : raw_job) : jsstring :=
  or_else (mkSlug B (rawTitle raw ++ JS "-" ++ rawCompany raw))
    (or_else (mkSlug B (rawTitle raw)) (mkSlug B (r_guid raw))).

(** [enriched B p]: the descriptions and the tags of the parameters p are
    what the enrichment engine returns: a short description cut to 60
    words, a sanitised HTML description, and the join of a normalised list
    of tags. *)
Definition enriched (B : Builtins) (p : DB.job_params) : Prop :=
  (exists short, DB.p_description_short p = truncateWords short 60)
  /\ (exists html, DB.p_description_html p = sanitizeHtml html)
  /\ (exists tags, DB.p_tags_csv p = join (JS ", ") (uniqNormTags B tags)).

(** [row_for B raw p]: the parameters p of stmtInsertJob carry the matched
    record raw, as the 'end' handler builds them; the two descriptions and
    the tags are what the enrichment made of it. *)
Definition row_for (B : Builtins) (raw : raw_job) (p : DB.job_params) : Prop :=
  DB.p_guid p = r_guid raw
  /\ DB.p_source p = r_source raw
  /\ DB.p_title p = or_else (rawTitle raw) (JS "Sans titre")
  /\ DB.p_company p = rawCompany raw
  /\ DB.p_url p = r_url raw
  /\ DB.p_published_at p = r_published_at raw
  /\ DB.p_slug p = slugOf B raw
  /\ enriched B p.

(** [stored_as p row]: the row holds the parameters p. *)
Definition stored_as (p : DB.job_params) (row : DB.job) : Prop :=
  DB.guid row = DB.p_guid p
  /\ DB.source row = DB.p_source p
  /\ DB.title row = DB.p_title p
  /\ DB.company row = DB.p_company p
  /\ DB.description_html row = DB.p_description_html p
  /\ DB.description_short row = DB.p_description_short p
  /\ DB.url row = DB.p_url p
  /\ DB.published_at row = DB.p_published_at p
  /\ DB.slug row = DB.p_slug p
  /\ DB.tags_csv row = DB.p_tags_csv p.

(** The database once the rows still waiting in processedBatch are
    written. *)
Definition settled (B : Builtins) (st : enrich_state) : DB.t :=
  insertBatch B (processedBatch st) (e_db st).

(** The run of processFeed over a feed that is read to its end: the state
    when the promise settles. *)
Definition run_over (B : Builtins) (cfg : Config) (ai : ai_backend)
    (content : list sax_event) (w : world) : run :=
  fold_left (on_event B cfg ai) (content ++ [SaxEnd]) (start_run w).

(** One turn of the loop of insertBatch. *)
Definition insertOne (B : Builtins) (job : DB.job_params) (d : DB.t) : DB.t :=
  let d := DB.stmtInsertJob job d in
  match DB.stmtHasGuid (DB.p_guid job) d with
  | Some inserted =>
    upsertTagsForJob B (DB.id inserted)
      (filter nonempty (splitOn (JS ", ") (DB.p_tags_csv job))) d
  | None => d
  end.

(** The record a content event closes, if it closes one: the fields of
    currentItem [ci] after the switch of the closetag handler. *)
Definition closes (B : Builtins) (ci : option item) (text : jsstring)
    (e : sax_event) : option item :=
  match e, ci with
  | CloseTag name, Some it =>
    if isRecordTag (toLowerCase B name)
    then Some (assign_field (toLowerCase B name) text it)
    else None
  | _, _ => None
  end.

(** currentItem, currentTag and currentText after a content event that
    closes no record. *)
Definition parse_step (B : Builtins) (ci : option item) (tag text : jsstring)
    (e : sax_event) : option item * jsstring * jsstring :=
  match e with
  | OpenTag name =>
    let t := toLowerCase B name in
    if isRecordTag t
    then (Some {| i_title := []; i_description := []; i_company := [];
                  i_link := []; i_guid := []; i_pubDate := now_iso B |}, t, [])
    else (ci, t, [])
  | Text s | CData s => (ci, tag, text ++ s)
  | CloseTag name =>
    match ci with
    | Some it => (Some (assign_field (toLowerCase B name) text it), tag, text)
    | None => (ci, tag, text)
    end
  | _ => (ci, tag, text)
  end.

(** The record passes the profession filter and comes from the feed. *)
Definition relevant (B : Builtins) (cfg : Config) (raw : raw_job) : Prop :=
  matchesProfession B cfg (rawTitle raw) (rawCompany raw) (rawDescription raw) = true
  /\ r_source raw = url_hostname B (FEED_URL cfg).

(** The guid is not the guid of a stored posting. *)
Definition unknown (d : DB.t) (raw : raw_job) : bool :=
  match DB.stmtHasGuid (r_guid raw) d with
  | Some _ => false
  | None => true
  end.

(** A row written by a run: it holds the parameters the 'end' handler
    built for a record that passed the profession filter. *)
Definition written (B : Builtins) (cfg : Config) (row : DB.job) : Prop :=
  exists raw p, relevant B cfg raw /\ row_for B raw p /\ stored_as p row.

(** The part of the parser's state that does not depend on the store. *)
Definition same_parse (r1 r2 : run) : Prop :=
  currentItem r1 = currentItem r2 /\ currentTag r1 = currentTag r2
  /\ currentText r1 = currentText r2 /\ processed r1 = processed r2.

(** The invariant of the tables [tags] and [job_tags]: name, slug and id of
    a tag are each unique, every id was given out by the AUTOINCREMENT
    counter, no link is stored twice, and every link points to a stored
    tag. *)
Definition tags_ok (d : DB.t) : Prop :=
  NoDup (map DB.name (DB.tags d))
  /\ NoDup (map DB.tag_slug (DB.tags d))
  /\ NoDup (map DB.tag_id (DB.tags d))
  /\ (0 <= DB.tags_seq d)%Z
  /\ (forall t, In t (DB.tags d) -> (0 < DB.tag_id t <= DB.tags_seq d)%Z)
  /\ NoDup (DB.job_tags d)
  /\ (forall l, In l (DB.job_tags d) ->
                exists t, In t (DB.tags d) /\ DB.tag_id t = snd l).

(** [grows d d']: every tag and every link of d is in d'. *)
Definition grows (d d' : DB.t) : Prop :=
  (forall t, In t (DB.tags d) -> In t (DB.tags d'))
  /\ (forall l, In l (DB.job_tags d) -> In l (DB.job_tags d')).

(** [linked jobId name d]: the tag of that name is stored and linked to
    the posting. *)
Definition linked (jobId : Z) (name : jsstring) (d : DB.t) : Prop :=
  exists t, DB.stmtGetTagByName name d = Some t
            /\ In (jobId, DB.tag_id t) (DB.job_tags d).

(** [crowded_out B name d]: no tag of that name is stored, its slug being
    the slug of a tag with another name. *)
Definition crowded_out (B : Builtins) (name : jsstring) (d : DB.t) : Prop :=
  DB.stmtGetTagByName name d = None
  /\ exists t, In t (DB.tags d) /\ DB.tag_slug t = tagSlug B name
               /\ DB.name t <> name.

(** One turn of the loop of upsertTagsForJob. *)
Definition upsertOne (B : Builtins) (jobId : Z) (d : DB.t) (name : jsstring) : DB.t :=
  let d := DB.stmtInsertTag name (tagSlug B name) d in
  match DB.stmtGetTagByName name d with
  | Some t => DB.stmtInsertJobTag jobId (DB.tag_id t) d
  | None => d
  end.

(** The row of the count cache, if there is one, was not written after
    [now]. *)
Definition cache_not_ahead (now : Z) (d : DB.t) : Prop :=
  forall value updated_at,
    DB.stats_cache d = Some (value, updated_at) -> (updated_at <= now)%Z.

(** The country codes of the table of getCountryFromHost. *)
Definition country_codes : list jsstring :=
  map JS ["FR"; "BE"; "CH"; "LU"; "CA"; "DE"; "AT"; "LI"; "GB"; "IE"; "US"; "AU";
          "NZ"; "NL"; "ES"; "PT"; "IT"].

(** A pattern without assertions: no \b, no $ and no lookahead. *)
Fixpoint assertion_free (r : Regex.regex) : bool :=
  match r with
  | Regex.WordB | Regex.Eoi | Regex.NotAhead _ => false
  | Regex.Seq r1 r2 | Regex.Alt r1 r2 => assertion_free r1 && assertion_free r2
  | Regex.Rep _ _ _ r1 | Regex.Group _ r1 => assertion_free r1
  | _ => true
  end.

(** [longer t x x']: the state x' is the state x on an input that goes on
    with t. *)
Definition longer (t : jsstring) (x x' : Regex.mstate) : Prop :=
  Regex.before x' = Regex.before x /\ Regex.pos x' = Regex.pos x
  /\ Regex.rest x' = Regex.rest x ++ t.

(** [carries t m m']: where the matcher m succeeds, m' succeeds on the
    input that goes on with t, given continuations that do. *)
Definition carries (t : jsstring) (m m' : Regex.matcher) : Prop :=
  forall x x' k k',
    longer t x x' ->
    (forall y y', longer t y y' -> k y <> None -> k' y' <> None) ->
    m x k <> None -> m' x' k' <> None.

(** A text without the slashes it ends with. *)
Fixpoint untrail (s : jsstring) : jsstring :=
  match s with
  | [] => []
  | c :: s' => if forallb (N.eqb 47) s then [] else c :: untrail s'
  end.

(** The continuation of a pattern that ends with $. *)
Definition atEnd : Regex.cont :=
  fun y => Regex.run false Regex.Eoi y (fun z => Some z).

(** Every id of a posting, and every posting id of a link, was given out
    by the AUTOINCREMENT counter of [jobs]. *)
Definition ids_issued (d : DB.t) : Prop :=
  (forall r, In r (DB.jobs d) -> (DB.id r <= DB.jobs_seq d)%Z)
  /\ (forall l, In l (DB.job_tags d) -> (fst l <= DB.jobs_seq d)%Z).

(** [later d d']: the counter of d' is not behind the counter of d, and a
    posting of d' is a posting of d or has an id beyond the counter of d. *)
Definition later (d d' : DB.t) : Prop :=
  (DB.jobs_seq d <= DB.jobs_seq d')%Z
  /\ forall r, In r (DB.jobs d') ->
               In r (DB.jobs d) \/ (DB.jobs_seq d < DB.id r)%Z.


(** ** Sample data

    The inputs the examples, witnesses and counterexamples run on, all in
    the sample environment. *)

(** A tag array as JSON.parse may return it. *)
Definition sample_tags : list jsval :=
  [JStr (JS " Permis CE "); JNull; JStr (JS "permis ce"); JNum 12;
   JArr [JStr (JS "ADR"); JNull; JBool true]; JObj; JStr (JS "  ")].


(** A backend that is down. *)
Definition no_backend : ai_backend := fun _ _ _ => AIThrows (JS "offline").

(** A stored posting with id [i] published at [pub]. *)
Definition posting (i : Z) (pub : jsnum) : DB.job :=
  {| DB.id := i; DB.guid := JS "g" ++ Z_to_string i; DB.source := JS "feed.example";
     DB.title := JS "Chauffeur SPL"; DB.company := JS "ACME";
     DB.description_html := []; DB.description_short := []; DB.url := [];
     DB.published_at := pub; DB.slug := JS "chauffeur-spl-" ++ Z_to_string i;
     DB.tags_csv := [] |}.

Definition store_of (rows : list DB.job) : DB.t :=
  {| DB.jobs := rows; DB.jobs_seq := Z.of_nat (List.length rows); DB.tags := [];
     DB.tags_seq := 0; DB.job_tags := []; DB.stats_cache := None |}.

(** Scenario of the specification: MAX = 2 with three postings published
    at times 3, 2 and 1. *)
Definition three_postings : DB.t :=
  store_of [posting 1 (Some 1%Z); posting 2 (Some 3%Z); posting 3 (Some 2%Z)].

(** A store of 51 postings: 49 published in 2024 and two, the ids 50 and
    51, published at the epoch (pubDate 1970-01-01T00:00:00Z, which
    unixtime turns into 0). *)
Definition epoch_store : DB.t :=
  store_of
    (map (fun i => posting (Z.of_nat i)
                     (if Nat.leb i 49 then Some (1704067200 + Z.of_nat i)%Z
                      else Some 0%Z))
         (seq 1 51)).

(** The children of a record with two link elements and three guid
    elements. *)
Definition two_links : list (jsstring * jsstring) :=
  [ (JS "url", JS "https://jobs.example/first");
    (JS "guid", []);
    (JS "link", JS "https://jobs.example/second");
    (JS "referencenumber", JS "REF-7");
    (JS "guid", JS "G-9") ].

(** The run after the opening tag of a record. *)
Definition record_opened : run :=
  on_opentag Sample.builtins (JS "item") (start_run Sample.idle).

(** A feed with one relevant record. *)
Definition one_record : list sax_event :=
  [OpenTag (JS "item")]
  ++ flat_map child_events
       [ (JS "guid", JS "A1"); (JS "title", JS "Chauffeur SPL");
         (JS "company", JS "ACME"); (JS "pubDate", JS "1970-01-01T00:00:03Z") ]
  ++ [CloseTag (JS "item")].

(** The world after a first run over the feed with the record A1. *)
Definition after_first_run : world :=
  snd (processFeed Sample.builtins Sample.config no_backend
         (FetchBody (one_record ++ [SaxEnd])) Sample.idle).

(** A record whose guid g1 is stored, closing in a run over the store of
    the three postings. *)
Definition known_item : item :=
  {| i_title := JS "Chauffeur SPL"; i_description := []; i_company := JS "ACME";
     i_link := []; i_guid := JS "g1"; i_pubDate := JS "1970-01-01T00:00:01Z" |}.

Definition second_run : run :=
  start_run {| FEED_RUNNING := true; db := three_postings; console := [] |}.

(** A record without guid and link, and the run of a later feed in which
    it comes second while its earlier copy is stored under job-1. *)
Definition bare_item : item :=
  {| i_title := JS "Chauffeur SPL"; i_description := JS "Poste de nuit";
     i_company := JS "ACME"; i_link := []; i_guid := [];
     i_pubDate := JS "1970-01-01T00:00:03Z" |}.

Definition stored_copy : DB.t :=
  store_of
    [{| DB.id := 1; DB.guid := JS "job-1"; DB.source := JS "feed.example";
        DB.title := JS "Chauffeur SPL"; DB.company := JS "ACME";
        DB.description_html := []; DB.description_short := []; DB.url := [];
        DB.published_at := Some 3%Z; DB.slug := JS "chauffeur-spl-acme";
        DB.tags_csv := [] |}].

Definition later_run : run :=
  {| matched := 1; processed := 1; skipped := 0; aiEnhanced := 0;
     fallbackUsed := 0; batch := []; currentItem := Some bare_item;
     currentTag := JS "description"; currentText := JS "Poste de nuit";
     promise := PromisePending; run_db := stored_copy; run_console := [] |}.

(** ** Further sample data *)

(** The tags of a posting after normalisation. *)
Definition clean_tags : list jsstring :=
  map JS ["permis ce"; "spl"; "travail de nuit"; "conducteur routier"].

(** A feed of two records with the same title and company, hence the same
    slug, under two guids. *)
Definition twin_records : list sax_event :=
  one_record
  ++ [OpenTag (JS "item")]
  ++ flat_map child_events
       [ (JS "guid", JS "A2"); (JS "title", JS "Chauffeur SPL");
         (JS "company", JS "ACME"); (JS "pubDate", JS "1970-01-01T00:00:02Z") ]
  ++ [CloseTag (JS "item")].

(** A backend that answers every call with a completion without blocks. *)
Definition garbage_run : ai_backend :=
  fun _ _ _ => AIResponds (Some (JS "garbage")).

(** A configuration with room for the postings of the samples. *)
Definition roomy : Config :=
  {| FEED_URL := FEED_URL Sample.config; MAX_JOBS := 100;
     HAS_OPENAI := HAS_OPENAI Sample.config;
     TARGET_PROFESSION := TARGET_PROFESSION Sample.config;
     TARGET_LANG := TARGET_LANG Sample.config;
     AI_PROCESS_LIMIT := AI_PROCESS_LIMIT Sample.config;
     PROFESSION_KEYWORDS := PROFESSION_KEYWORDS Sample.config |}.

(** The row the first run over the feed with the record A1 stores. *)
Definition first_stored : DB.job :=
  Eval vm_compute in hd (posting 0 None) (DB.jobs (db after_first_run)).

(** Two tag names with one slug: the sample slugify turns the space and
    the hyphen alike into a hyphen. *)
Definition rival_names : list jsstring := [JS "permis ce"; JS "permis-ce"].

(** A reader of host names for the samples: the host of scheme://host/path,
    no URL being refused. *)
Definition sample_hostname (u : jsstring) : option jsstring :=
  Some (url_hostname Sample.builtins u).

(** A keyed digest for the samples: the key, a colon and the message, in
    place of the 64 hexadecimal digits. *)
Definition sample_click : Click :=
  {| CLICK_SECRET := JS "s3cret";
     hmac_sha256_hex := fun key message => key ++ JS ":" ++ message |}.

(** A store with one posting that has a source link. *)
Definition linked_posting : DB.job :=
  {| DB.id := 7; DB.guid := JS "A7"; DB.source := JS "feed.example";
     DB.title := JS "Chauffeur SPL"; DB.company := JS "ACME";
     DB.description_html := JS "<p>CDI</p>"; DB.description_short := JS "CDI";
     DB.url := JS "https://jobs.example/a7"; DB.published_at := Some 3%Z;
     DB.slug := JS "chauffeur-spl-acme"; DB.tags_csv := JS "spl, cdi" |}.

Definition linked_store : DB.t :=
  {| DB.jobs := [linked_posting]; DB.jobs_seq := 7; DB.tags := [];
     DB.tags_seq := 0; DB.job_tags := []; DB.stats_cache := None |}.

(** The page of that posting. *)
Definition linked_page : job_page :=
  Eval vm_compute in
  match jobPage Sample.builtins sample_click sample_hostname
          (JS "https://emplois.example.be") (JS "chauffeur-spl-acme")
          linked_store with
  | JobPage page => page
  | _ => {| form_id := []; form_t := []; tag_links := [];
            page_meta := parseMeta Sample.builtins [] []; jobLocations := [] |}
  end.

(** The same posting, dated a million years from now. *)
Definition far_posting : DB.job :=
  {| DB.id := 7; DB.guid := JS "A7"; DB.source := JS "feed.example";
     DB.title := JS "Chauffeur SPL"; DB.company := JS "ACME";
     DB.description_html := JS "<p>CDI</p>"; DB.description_short := JS "CDI";
     DB.url := JS "https://jobs.example/a7";
     DB.published_at := Some 31557600000000%Z;
     DB.slug := JS "chauffeur-spl-acme"; DB.tags_csv := JS "spl, cdi" |}.

(** A feed of three records, published at the times 1, 3 and 2. *)
Definition three_records : list sax_event :=
  flat_map
    (fun c =>
       [OpenTag (JS "item")]
       ++ flat_map child_events
            [ (JS "guid", fst (fst c)); (JS "title", snd (fst c));
              (JS "company", JS "ACME"); (JS "pubDate", snd c) ]
       ++ [CloseTag (JS "item")])
    [ (JS "B1", JS "Chauffeur SPL nuit", JS "1970-01-01T00:00:01Z");
      (JS "B2", JS "Chauffeur SPL jour", JS "1970-01-01T00:00:03Z");
      (JS "B3", JS "Chauffeur SPL week-end", JS "1970-01-01T00:00:02Z") ].

(** The store after a run over that feed that keeps two postings. *)
Definition after_three_records : DB.t :=
  db (snd (processFeed Sample.builtins Sample.config no_backend
             (FetchBody (three_records ++ [SaxEnd])) Sample.idle)).

(** The rows of the page of the tag spl on that store. *)
Definition spl_rows : list DB.job :=
  Eval vm_compute in
    match tagPage (JS "spl") [] after_three_records with
    | TagPage rows _ _ => rows
    | _ => []
    end.

(** The table of the three records cut down to its two newest postings,
    with the links of all three. *)
Definition two_of_three : DB.t :=
  Eval vm_compute in DB.stmtDeleteOld 2 after_three_records.


(* ================================================================== *)
(** * Properties *)

(* ------------------------------------------------------------------ *)
(** ** Strings *)

Lemma jsstr_eqb_eq (a b : jsstring) : JSStr.eqb a b = true <-> a = b.
Proof.
  unfold JSStr.eqb. destruct (list_eq_dec N.eq_dec a b); split; congruence.
Qed.

Lemma jsstr_eqb_refl (a : jsstring) : JSStr.eqb a a = true.
Proof. now apply jsstr_eqb_eq. Qed.

Lemma jsstr_eqb_neq (a b : jsstring) : JSStr.eqb a b = false <-> a <> b.
Proof.
  unfold JSStr.eqb. destruct (list_eq_dec N.eq_dec a b); split; congruence.
Qed.

Lemma existsb_eqb_In (x : jsstring) (l : list jsstring) :
  existsb (JSStr.eqb x) l = true <-> In x l.
Proof.
  rewrite existsb_exists. split.
  - intros [y [Hy E]]. apply jsstr_eqb_eq in E. now subst.
  - intros H. exists x. split; [assumption | apply jsstr_eqb_refl].
Qed.

Lemma nonempty_true (s : jsstring) : nonempty s = true <-> s <> [].
Proof. destruct s; simpl; split; congruence. Qed.

Lemma trimStart_idem (s : jsstring) : trimStart (trimStart s) = trimStart s.
Proof.
  induction s as [|c s IH]; simpl; [reflexivity|].
  destruct (isWhiteSpace c) eqn:E; [assumption|]. simpl. now rewrite E.
Qed.

Lemma trimStart_head (s r : jsstring) (c : N) :
  trimStart s = c :: r -> isWhiteSpace c = false.
Proof.
  induction s as [|a s IH]; simpl; [discriminate|].
  destruct (isWhiteSpace a) eqn:E; [assumption|].
  intros H. injection H as -> _. assumption.
Qed.

Lemma trimStart_snoc (s : jsstring) (c : N) :
  isWhiteSpace c = false -> trimStart (s ++ [c]) = trimStart s ++ [c].
Proof.
  intros Hc. induction s as [|a s IH]; simpl.
  - now rewrite Hc.
  - destruct (isWhiteSpace a); [assumption | reflexivity].
Qed.

Lemma trimEnd_idem (s : jsstring) : trimEnd (trimEnd s) = trimEnd s.
Proof.
  unfold trimEnd. now rewrite rev_involutive, trimStart_idem.
Qed.

Lemma trimEnd_cons (s : jsstring) (c : N) :
  isWhiteSpace c = false -> trimEnd (c :: s) = c :: trimEnd s.
Proof.
  intros Hc. unfold trimEnd. simpl.
  rewrite (trimStart_snoc _ _ Hc), rev_app_distr. reflexivity.
Qed.

(** trim is idempotent. *)
Lemma trim_idem (s : jsstring) : trim (trim s) = trim s.
Proof.
  unfold trim. destruct (trimStart s) as [|c r] eqn:E; [reflexivity|].
  pose proof (trimStart_head _ _ _ E) as Hc.
  rewrite (trimEnd_cons _ _ Hc). simpl. rewrite Hc.
  now rewrite (trimEnd_cons _ _ Hc), trimEnd_idem.
Qed.

(* ------------------------------------------------------------------ *)
(** ** Tag normaliser *)

Section TagNormalizerFacts.
Variable B : Builtins.


Lemma candidates_cons (t : jsval) (tags : list jsval) :
  candidates B (t :: tags) =
  if truthy t
  then if nonempty (toLowerCase B (trim (ToString t)))
       then toLowerCase B (trim (ToString t)) :: candidates B tags
       else candidates B tags
  else candidates B tags.
Proof.
  unfold candidates. simpl. destruct (truthy t); simpl; [|reflexivity].
  destruct (nonempty _); reflexivity.
Qed.

Lemma first_seen_NoDup_id (l : list jsstring) : NoDup l -> first_seen l = l.
Proof.
  intros H. unfold first_seen.
  rewrite nodup_fixed_point by now apply NoDup_rev.
  apply rev_involutive.
Qed.

Lemma nodup_skip_seen (p q : list jsstring) (x : jsstring) :
  In x q ->
  nodup (list_eq_dec N.eq_dec) (p ++ x :: q) = nodup (list_eq_dec N.eq_dec) (p ++ q).
Proof.
  intros Hx. induction p as [|y p IH]; simpl.
  - destruct (in_dec (list_eq_dec N.eq_dec) x q); [reflexivity | contradiction].
  - rewrite IH.
    destruct (in_dec (list_eq_dec N.eq_dec) y (p ++ x :: q)) as [H1|H1];
      destruct (in_dec (list_eq_dec N.eq_dec) y (p ++ q)) as [H2|H2];
      try reflexivity; exfalso.
    + apply H2. apply in_app_or in H1. apply in_or_app.
      destruct H1 as [H1|[H1|H1]]; [now left | subst; now right | now right].
    + apply H1. apply in_app_or in H2. apply in_or_app.
      destruct H2 as [H2|H2]; [now left | right; now right].
Qed.

Lemma first_seen_skip_seen (a c : list jsstring) (x : jsstring) :
  In x a -> first_seen (a ++ x :: c) = first_seen (a ++ c).
Proof.
  intros Hx. unfold first_seen. f_equal.
  rewrite !rev_app_distr. simpl. rewrite <- app_assoc. simpl.
  apply nodup_skip_seen. now apply in_rev in Hx.
Qed.

Lemma first_seen_In (l : list jsstring) (x : jsstring) :
  In x (first_seen l) <-> In x l.
Proof.
  unfold first_seen. rewrite <- in_rev, nodup_In, <- in_rev. reflexivity.
Qed.

Lemma first_seen_NoDup (l : list jsstring) : NoDup (first_seen l).
Proof. unfold first_seen. apply NoDup_rev, NoDup_nodup. Qed.

(** The loop computes the first-seen survivors of what it has put out and
    what it still has to read. *)
Lemma uniqNormTags_loop_first_seen (tags : list jsval) :
  forall seen out,
    (forall x, In x seen <-> In x out) -> NoDup out ->
    uniqNormTags_loop B tags seen out = first_seen (out ++ candidates B tags).
Proof.
  induction tags as [|t tags IH]; intros seen out Hseen Hout.
  - simpl. unfold candidates. simpl. rewrite app_nil_r.
    symmetry. now apply first_seen_NoDup_id.
  - simpl. rewrite candidates_cons.
    destruct (truthy t); simpl; [|now apply IH].
    set (x := toLowerCase B (trim (ToString t))).
    destruct (nonempty x); simpl; [|now apply IH].
    destruct (existsb (JSStr.eqb x) seen) eqn:E.
    + apply existsb_eqb_In in E. apply Hseen in E.
      rewrite (first_seen_skip_seen _ _ _ E). now apply IH.
    + assert (Hx : ~ In x out).
      { intros H. apply Hseen in H. apply existsb_eqb_In in H. congruence. }
      rewrite (IH (x :: seen) (out ++ [x])).
      * now rewrite <- app_assoc.
      * intros y. simpl. rewrite in_app_iff. simpl. rewrite (Hseen y). tauto.
      * apply NoDup_app; [assumption | constructor; [easy | constructor] |].
        intros y Hy [<-|[]]. contradiction.
Qed.

Lemma uniqNormTags_spec (tags : list jsval) :
  uniqNormTags B tags = normalize_spec B tags.
Proof.
  unfold uniqNormTags, normalize_spec.
  rewrite (uniqNormTags_loop_first_seen tags [] []);
    [reflexivity | tauto | constructor].
Qed.

Lemma NoDup_firstn_list (n : nat) (l : list jsstring) :
  NoDup l -> NoDup (firstn n l).
Proof.
  intros H. rewrite <- (firstn_skipn n l) in H.
  now apply NoDup_app_remove_r in H.
Qed.

Lemma In_firstn (n : nat) (l : list jsstring) (x : jsstring) :
  In x (firstn n l) -> In x l.
Proof.
  intros H. rewrite <- (firstn_skipn n l). apply in_or_app. now left.
Qed.

Lemma uniqNormTags_entry (tags : list jsval) (x : jsstring) :
  In x (uniqNormTags B tags) ->
  x <> [] /\ exists t, In t tags /\ truthy t = true
                       /\ x = toLowerCase B (trim (ToString t)).
Proof.
  rewrite uniqNormTags_spec. unfold normalize_spec. intros H.
  apply In_firstn, first_seen_In, filter_In in H. destruct H as [H Hne].
  split; [now apply nonempty_true|].
  apply in_map_iff in H. destruct H as [t [<- Ht]].
  apply filter_In in Ht. exists t. tauto.
Qed.

End TagNormalizerFacts.

(** The sample environment satisfies the laws of toLowerCase. *)

Ltac bool_to_prop :=
  repeat match goal with
  | H : _ |- _ =>
    first [ rewrite orb_true_iff in H | rewrite andb_true_iff in H
          | rewrite negb_true_iff in H | rewrite N.leb_le in H
          | rewrite N.eqb_eq in H | rewrite N.eqb_neq in H
          | rewrite orb_false_iff in H | rewrite andb_false_iff in H
          | rewrite negb_false_iff in H | rewrite N.leb_gt in H ]
  end.

Lemma lower1_idem (c : N) : Sample.lower1 (Sample.lower1 c) = Sample.lower1 c.
Proof.
  unfold Sample.lower1 at 2 3.
  destruct ((65 <=? c) && (c <=? 90)
            || (192 <=? c) && (c <=? 222) && negb (c =? 215))%N eqn:E.
  - unfold Sample.lower1.
    destruct ((65 <=? c + 32) && (c + 32 <=? 90)
              || (192 <=? c + 32) && (c + 32 <=? 222)
                 && negb (c + 32 =? 215))%N eqn:E2; [|reflexivity].
    exfalso. bool_to_prop. lia.
  - unfold Sample.lower1. now rewrite E.
Qed.

Lemma isWhiteSpace_lower1 (c : N) :
  isWhiteSpace (Sample.lower1 c) = isWhiteSpace c.
Proof.
  unfold Sample.lower1.
  destruct ((65 <=? c) && (c <=? 90)
            || (192 <=? c) && (c <=? 222) && negb (c =? 215))%N eqn:E;
    [|reflexivity].
  transitivity false; [|symmetry]; apply not_true_is_false; intros H;
    unfold isWhiteSpace in H; bool_to_prop; lia.
Qed.

Lemma trimStart_map_lower1 (s : jsstring) :
  trimStart (map Sample.lower1 s) = map Sample.lower1 (trimStart s).
Proof.
  induction s as [|c s IH]; simpl; [reflexivity|].
  rewrite isWhiteSpace_lower1. destruct (isWhiteSpace c); [assumption | reflexivity].
Qed.

Lemma trim_map_lower1 (s : jsstring) :
  trim (map Sample.lower1 s) = map Sample.lower1 (trim s).
Proof.
  unfold trim, trimEnd.
  now rewrite trimStart_map_lower1, <- map_rev, trimStart_map_lower1, map_rev.
Qed.

Lemma sample_lower_laws : LowerCaseLaws Sample.builtins.
Proof.
  split; simpl; intros s.
  - rewrite map_map. apply map_ext. intros c. apply lower1_idem.
  - intros H. now rewrite trim_map_lower1, H.
Qed.

Section TagNormalizerClaims.
Variable B : Builtins.
Hypothesis laws : LowerCaseLaws B.

Lemma uniqNormTags_entry_clean (tags : list jsval) (x : jsstring) :
  In x (uniqNormTags B tags) ->
  trim x = x /\ toLowerCase B x = x /\ x <> [].
Proof.
  intros H. apply uniqNormTags_entry in H. destruct H as [Hne [t [_ [_ ->]]]].
  repeat split.
  - apply (lower_keeps_trimmed B laws). apply trim_idem.
  - apply (lower_idempotent B laws).
  - assumption.
Qed.

Lemma candidates_of_clean (l : list jsstring) :
  Forall (fun t => trim t = t /\ toLowerCase B t = t /\ t <> []) l ->
  candidates B (map JStr l) = l.
Proof.
  induction 1 as [|x l [Ht [Hl Hne]] _ IH]; [reflexivity|].
  simpl map. rewrite candidates_cons. simpl.
  rewrite Ht, Hl. apply nonempty_true in Hne. rewrite Hne. now rewrite IH.
Qed.

(** C5. For any input tag list, uniqNormTags returns the list the
    specification describes (entries trimmed and lower-cased, empties
    dropped, duplicates removed preserving first-seen order, truncated to
    the first 8 survivors); it has at most 8 entries, no entry twice, and
    every entry is trimmed, lower-case and not empty. *)
Theorem uniqNormTags_normalizes (tags : list jsval) :
  uniqNormTags B tags = normalize_spec B tags
  /\ List.length (uniqNormTags B tags) <= 8
  /\ NoDup (uniqNormTags B tags)
  /\ Forall (fun t => trim t = t /\ toLowerCase B t = t /\ t <> [])
       (uniqNormTags B tags).
Proof.
  split; [apply uniqNormTags_spec|]. split; [apply firstn_le_length|]. split.
  - rewrite uniqNormTags_spec. apply NoDup_firstn_list, first_seen_NoDup.
  - apply Forall_forall. intros x. apply uniqNormTags_entry_clean.
Qed.

(** C9. Tag normalisation is idempotent: uniqNormTags applied to its own
    output returns that output unchanged. *)
Theorem uniqNormTags_idempotent (ts : list jsval) :
  uniqNormTags B (map JStr (uniqNormTags B ts)) = uniqNormTags B ts.
Proof.
  assert (Hclean : Forall (fun t => trim t = t /\ toLowerCase B t = t /\ t <> [])
                     (uniqNormTags B ts)).
  { apply Forall_forall. intros x. apply uniqNormTags_entry_clean. }
  assert (Hnd : NoDup (uniqNormTags B ts)).
  { rewrite uniqNormTags_spec. apply NoDup_firstn_list, first_seen_NoDup. }
  assert (Hlen : List.length (uniqNormTags B ts) <= 8) by apply firstn_le_length.
  unfold uniqNormTags at 1.
  rewrite (uniqNormTags_loop_first_seen B _ [] []); [|tauto|constructor].
  simpl app. rewrite (candidates_of_clean _ Hclean).
  rewrite (first_seen_NoDup_id _ Hnd). now apply firstn_all2.
Qed.

End TagNormalizerClaims.


Lemma uniqNormTags_normalizes_sample :
  uniqNormTags Sample.builtins sample_tags = normalize_spec Sample.builtins sample_tags
  /\ List.length (uniqNormTags Sample.builtins sample_tags) <= 8
  /\ NoDup (uniqNormTags Sample.builtins sample_tags)
  /\ Forall (fun t => trim t = t /\ toLowerCase Sample.builtins t = t /\ t <> [])
       (uniqNormTags Sample.builtins sample_tags).
Proof.
  exact (uniqNormTags_normalizes Sample.builtins sample_lower_laws sample_tags).
Defined.

Lemma uniqNormTags_idempotent_sample :
  uniqNormTags Sample.builtins (map JStr (uniqNormTags Sample.builtins sample_tags))
  = uniqNormTags Sample.builtins sample_tags.
Proof.
  exact (uniqNormTags_idempotent Sample.builtins sample_lower_laws sample_tags).
Defined.

(* ------------------------------------------------------------------ *)
(** ** Semantic extractor *)

Lemma truthyNum_parsed (n : option N) : truthyNum n = true -> n <> None.
Proof. destruct n; simpl; congruence. Qed.

(** C6. parseMeta emits a salary fact only when a currency token was found
    and at least one of min and max was parsed; and for the text
    Salaire de 28000 à 35000 € par an (whatever the title appended to it)
    the fact is exactly currency EUR, min 28000, max 35000, unit YEAR. *)
Theorem parseMeta_salary_fact (B : Builtins) :
  (forall textHTML title s,
     salary (parseMeta B textHTML title) = Some s ->
     let text := metaText B textHTML title in
     cMatch text <> None
     /\ currencyOf B text = Some (currency s)
     /\ (rangeMatch text <> None \/ oneMatch text <> None)
     /\ (min s <> None \/ max s <> None)
     /\ (min s, max s) = amountsOf text)
  /\
  (forall textHTML title lowered,
     convert B textHTML {| wordwrap := 1000; ignoreHref := false |}
       = JS "Salaire de 28000 à 35000 € par an" ->
     toLowerCase B (JS "Salaire de 28000 à 35000 € par an" ++ JS " " ++ title)
       = JS "salaire de 28000 à 35000 € par an " ++ lowered ->
     toUpperCase B (JS "€") = JS "€" ->
     salary (parseMeta B textHTML title)
     = Some {| currency := EUR; min := Some 28000%N; max := Some 35000%N;
               unit := YEAR |}).
Proof.
  split.
  - intros textHTML title s. unfold parseMeta. cbv zeta.
    set (text := metaText B textHTML title).
    destruct (amountsOf text) as [mn mx] eqn:Ea.
    destruct (currencyOf B text) as [c|] eqn:Ec; simpl; [|discriminate].
    destruct (truthyNum mn || truthyNum mx) eqn:Et; [|discriminate].
    intros H. injection H as <-. simpl.
    repeat split.
    + unfold currencyOf in Ec. destruct (cMatch text); [discriminate | discriminate Ec].
    + unfold amountsOf in Ea.
      destruct (rangeMatch text); [left; discriminate|].
      destruct (oneMatch text); [right; discriminate|].
      injection Ea as <- <-. discriminate.
    + apply orb_true_iff in Et.
      destruct Et as [Et|Et]; [left | right]; now apply truthyNum_parsed.
  - intros textHTML title lowered Hconvert Hlower Hupper.
    unfold parseMeta, metaText. rewrite Hconvert, Hlower.
    set (text := JS "salaire de 28000 à 35000 € par an " ++ lowered).
    assert (Hc : currencyOf B text = Some EUR).
    { unfold currencyOf. set (m := cMatch text). vm_compute in m. subst m.
      cbv beta iota zeta. cbn [Regex.matched]. change [8364%N] with (JS "€").
      now rewrite Hupper. }
    assert (Ha : amountsOf text = (Some 28000%N, Some 35000%N))
      by (vm_compute; reflexivity).
    assert (Hu : unitOf text = YEAR) by (vm_compute; reflexivity).
    rewrite Hc, Ha, Hu. reflexivity.
Qed.

Lemma parseMeta_salary_fact_sample :
  salary (parseMeta Sample.builtins (JS "Salaire de 28000 à 35000 € par an") [])
  = Some {| currency := EUR; min := Some 28000%N; max := Some 35000%N;
            unit := YEAR |}.
Proof.
  apply (proj2 (parseMeta_salary_fact Sample.builtins)) with (lowered := []);
    reflexivity.
Defined.

(** The converse of the first part fails on amounts that are zero: the
    range is parsed and a currency is found, and no salary is emitted. *)
Example parseMeta_zero_amounts :
  amountsOf (JS "0000-0000 €") = (Some 0%N, Some 0%N)
  /\ salary (parseMeta Sample.builtins (JS "0000-0000 €") []) = None.
Proof. split; vm_compute; reflexivity. Qed.

(* ------------------------------------------------------------------ *)
(** ** Enrichment engine *)





(* ------------------------------------------------------------------ *)
(** ** The store: ORDER BY published_at DESC, id DESC *)

Lemma compare_published_Gt_Lt (a b : jsnum) :
  DB.compare_published a b = Gt <-> DB.compare_published b a = Lt.
Proof.
  destruct a as [x|], b as [y|]; simpl; try (split; congruence).
  rewrite Z.compare_gt_iff, Z.compare_lt_iff. reflexivity.
Qed.

Lemma compare_published_Eq_sym (a b : jsnum) :
  DB.compare_published a b = Eq -> DB.compare_published b a = Eq.
Proof.
  destruct a as [x|], b as [y|]; simpl; try congruence.
  rewrite !Z.compare_eq_iff. congruence.
Qed.

Lemma compare_published_Eq_eq (a b : jsnum) :
  DB.compare_published a b = Eq -> a = b.
Proof.
  destruct a as [x|], b as [y|]; simpl; try congruence.
  rewrite Z.compare_eq_iff. congruence.
Qed.

Lemma compare_published_refl (a : jsnum) : DB.compare_published a a = Eq.
Proof. destruct a; simpl; [apply Z.compare_refl | reflexivity]. Qed.

Lemma compare_published_Gt_trans (a b c : jsnum) :
  DB.compare_published a b = Gt -> DB.compare_published b c = Gt ->
  DB.compare_published a c = Gt.
Proof.
  destruct a as [x|], b as [y|], c as [z|]; simpl; try congruence.
  rewrite !Z.compare_gt_iff. lia.
Qed.

Lemma before_irrefl (a : DB.job) : DB.before a a = false.
Proof.
  unfold DB.before. rewrite compare_published_refl. apply Z.ltb_irrefl.
Qed.

Lemma before_trans (a b c : DB.job) :
  DB.before a b = true -> DB.before b c = true -> DB.before a c = true.
Proof.
  unfold DB.before.
  destruct (DB.compare_published (DB.published_at a) (DB.published_at b)) eqn:Eab;
    try discriminate;
    destruct (DB.compare_published (DB.published_at b) (DB.published_at c)) eqn:Ebc;
    try discriminate; intros Hab Hbc.
  - apply compare_published_Eq_eq in Eab, Ebc. rewrite Eab, Ebc.
    rewrite compare_published_refl. apply Z.ltb_lt in Hab, Hbc. apply Z.ltb_lt. lia.
  - apply compare_published_Eq_eq in Eab. rewrite Eab, Ebc. reflexivity.
  - apply compare_published_Eq_eq in Ebc. rewrite <- Ebc, Eab. reflexivity.
  - now rewrite (compare_published_Gt_trans _ _ _ Eab Ebc).
Qed.

Lemma before_total (a b : DB.job) :
  DB.id a <> DB.id b -> DB.before a b = false -> DB.before b a = true.
Proof.
  unfold DB.before. intros Hid.
  destruct (DB.compare_published (DB.published_at a) (DB.published_at b)) eqn:E;
    try discriminate; intros H.
  - rewrite (compare_published_Eq_sym _ _ E).
    apply Z.ltb_ge in H. apply Z.ltb_lt. lia.
  - apply compare_published_Gt_Lt in E. now rewrite E.
Qed.

Lemma before_asym (a b : DB.job) :
  DB.before a b = true -> DB.before b a = false.
Proof.
  intros H. destruct (DB.before b a) eqn:E; [|reflexivity].
  pose proof (before_trans _ _ _ H E) as C. now rewrite before_irrefl in C.
Qed.


Lemma insert_desc_perm (r : DB.job) (l : list DB.job) :
  Permutation (DB.insert_desc r l) (r :: l).
Proof.
  induction l as [|x l IH]; simpl; [reflexivity|].
  destruct (DB.before r x); [reflexivity|].
  rewrite IH. apply perm_swap.
Qed.

Lemma order_desc_perm (l : list DB.job) : Permutation (DB.order_desc l) l.
Proof.
  induction l as [|x l IH]; simpl; [reflexivity|].
  rewrite insert_desc_perm. now constructor.
Qed.

Lemma insert_desc_listed (r : DB.job) (l : list DB.job) :
  listed l -> (forall x, In x l -> DB.id x <> DB.id r) ->
  listed (DB.insert_desc r l).
Proof.
  unfold listed. induction 1 as [|x l Hl IH Hx]; intros Hid; simpl.
  - repeat constructor.
  - destruct (DB.before r x) eqn:E.
    + constructor; [now constructor|]. constructor; [assumption|].
      rewrite Forall_forall in *. intros y Hy.
      apply (before_trans _ _ _ E). now apply Hx.
    + constructor.
      * apply IH. intros y Hy. apply Hid. now right.
      * rewrite Forall_forall in *. intros y Hy.
        apply (Permutation_in _ (insert_desc_perm r l)) in Hy.
        destruct Hy as [<-|Hy]; [|now apply Hx].
        apply before_total; [|assumption].
        intros C. apply (Hid x); [now left | now symmetry].
Qed.

Lemma order_desc_listed (l : list DB.job) :
  NoDup (map DB.id l) -> listed (DB.order_desc l).
Proof.
  induction l as [|x l IH]; simpl; intros H; [constructor|].
  inversion H as [|? ? Hx Hl]; subst.
  apply insert_desc_listed; [now apply IH|].
  intros y Hy C. apply Hx. rewrite <- C. apply in_map.
  now apply (Permutation_in _ (order_desc_perm l)).
Qed.

Lemma listed_app_before (l1 l2 : list DB.job) (a b : DB.job) :
  listed (l1 ++ l2) -> In a l1 -> In b l2 -> DB.before a b = true.
Proof.
  unfold listed. induction l1 as [|x l1 IH]; simpl; intros H Ha Hb; [easy|].
  inversion H as [|? ? Hs Hf]; subst.
  destruct Ha as [<-|Ha]; [|now apply IH].
  rewrite Forall_forall in Hf. apply Hf, in_or_app. now right.
Qed.

Lemma filter_perm (f : DB.job -> bool) (l l' : list DB.job) :
  Permutation l l' -> Permutation (filter f l) (filter f l').
Proof.
  induction 1 as [|x l l' _ IH|x y l|l l' l'' _ IH1 _ IH2]; simpl.
  - constructor.
  - destruct (f x); [now constructor | assumption].
  - destruct (f x), (f y); try reflexivity. apply perm_swap.
  - now transitivity (filter f l').
Qed.

Lemma existsb_id_In (i : Z) (l : list DB.job) :
  existsb (Z.eqb i) (map DB.id l) = true <-> In i (map DB.id l).
Proof.
  rewrite existsb_exists. split.
  - intros [j [Hj E]]. apply Z.eqb_eq in E. now subst.
  - intros H. exists i. split; [assumption | apply Z.eqb_refl].
Qed.

Lemma NoDup_app_disjoint (l1 l2 : list Z) (a : Z) :
  NoDup (l1 ++ l2) -> In a l1 -> In a l2 -> False.
Proof.
  induction l1 as [|x l1 IH]; simpl; intros H H1 H2; [easy|].
  inversion H as [|? ? Hx Hl]; subst.
  destruct H1 as [->|H1]; [|now apply IH].
  apply Hx, in_or_app. now right.
Qed.

Lemma filter_ids_none (ids : list Z) (l : list DB.job) :
  (forall r, In r l -> In (DB.id r) ids) ->
  filter (fun r => negb (existsb (Z.eqb (DB.id r)) ids)) l = [].
Proof.
  induction l as [|r l IH]; intros Hl; simpl; [reflexivity|].
  assert (E : existsb (Z.eqb (DB.id r)) ids = true).
  { apply existsb_exists. exists (DB.id r). split; [|apply Z.eqb_refl].
    apply Hl. now left. }
  rewrite E. simpl. apply IH. intros r' Hr'. apply Hl. now right.
Qed.

(** With ids that are unique, deleting the rows whose id is among those
    of [l2] from [l1 ++ l2] leaves [l1]. *)
Lemma filter_ids_split (l1 l2 : list DB.job) :
  NoDup (map DB.id (l1 ++ l2)) ->
  filter (fun r => negb (existsb (Z.eqb (DB.id r)) (map DB.id l2))) (l1 ++ l2) = l1.
Proof.
  intros H. rewrite filter_app.
  rewrite (filter_ids_none (map DB.id l2) l2) by (intros r Hr; now apply in_map).
  rewrite List.app_nil_r.
  apply forallb_filter_id. apply forallb_forall. intros r Hr.
  apply negb_true_iff. apply not_true_is_false. intros C.
  apply existsb_id_In in C. rewrite map_app in H.
  apply (NoDup_app_disjoint _ _ _ H (in_map DB.id _ _ Hr) C).
Qed.

(* ------------------------------------------------------------------ *)
(** ** Retention *)

Lemma stmtDeleteOld_jobs (n : nat) (d : DB.t) :
  NoDup (map DB.id (DB.jobs d)) ->
  Permutation (DB.jobs (DB.stmtDeleteOld n d)) (firstn n (DB.order_desc (DB.jobs d))).
Proof.
  intros H. unfold DB.stmtDeleteOld. simpl.
  set (sorted := DB.order_desc (DB.jobs d)).
  rewrite (filter_perm _ _ _ (Permutation_sym (order_desc_perm (DB.jobs d)))).
  fold sorted.
  pose proof (filter_ids_split (firstn n sorted) (skipn n sorted)) as F.
  rewrite firstn_skipn in F. rewrite F; [reflexivity|].
  apply (Permutation_NoDup (Permutation_map DB.id (Permutation_sym (order_desc_perm _))) H).
Qed.

Lemma getCachedCount_recounts (now : Z) (d : DB.t) :
  (forall value updated_at,
     DB.stats_cache d = Some (value, updated_at) -> (updated_at <= now)%Z) ->
  DB.getCachedCount now 0 d
  = (Z.of_nat (List.length (DB.jobs d)),
     DB.stmtSetCache now (Z.of_nat (List.length (DB.jobs d))) d).
Proof.
  intros H. unfold DB.getCachedCount, DB.stmtGetCache.
  destruct (DB.stats_cache d) as [[value updated_at]|] eqn:E; [|reflexivity].
  specialize (H _ _ eq_refl).
  destruct (now - 0 <? updated_at)%Z eqn:C; [|reflexivity].
  apply Z.ltb_lt in C. lia.
Qed.

(** C3. For every store whose total count exceeds the configured maximum
    M (the rows having their unique ids, and the count cache not being
    dated in the future), the retention step leaves exactly M rows; they
    are the first M rows of ORDER BY published_at DESC, id DESC, so every
    row kept is before every row deleted; and the count cache holds M,
    written directly. *)
Theorem prune_keeps_newest (B : Builtins) (cfg : Config) (d : DB.t) :
  NoDup (map DB.id (DB.jobs d)) ->
  (forall value updated_at,
     DB.stats_cache d = Some (value, updated_at) ->
     (updated_at <= now_seconds B)%Z) ->
  MAX_JOBS cfg < List.length (DB.jobs d) ->
  List.length (DB.jobs (prune B cfg d)) = MAX_JOBS cfg
  /\ Permutation (DB.jobs (prune B cfg d))
       (firstn (MAX_JOBS cfg) (DB.order_desc (DB.jobs d)))
  /\ (forall kept deleted,
        In kept (DB.jobs (prune B cfg d)) ->
        In deleted (DB.jobs d) -> ~ In deleted (DB.jobs (prune B cfg d)) ->
        DB.before kept deleted = true)
  /\ DB.stats_cache (prune B cfg d)
     = Some (Z.of_nat (MAX_JOBS cfg), now_seconds B).
Proof.
  intros Hids Hcache Hmax. unfold prune.
  rewrite (getCachedCount_recounts _ _ Hcache).
  assert (E : (Z.of_nat (MAX_JOBS cfg) <? Z.of_nat (List.length (DB.jobs d)))%Z = true)
    by (apply Z.ltb_lt; lia).
  rewrite E. clear E.
  set (d1 := DB.stmtSetCache _ _ d).
  assert (Hjobs : DB.jobs d1 = DB.jobs d) by reflexivity.
  assert (Hperm : Permutation
            (DB.jobs (DB.stmtSetCache (now_seconds B) (Z.of_nat (MAX_JOBS cfg))
                        (DB.stmtDeleteOld (MAX_JOBS cfg) d1)))
            (firstn (MAX_JOBS cfg) (DB.order_desc (DB.jobs d)))).
  { change (DB.jobs (DB.stmtSetCache _ _ ?x)) with (DB.jobs x).
    rewrite <- Hjobs. apply stmtDeleteOld_jobs. now rewrite Hjobs. }
  split; [|split; [exact Hperm | split; [|reflexivity]]].
  - rewrite (Permutation_length Hperm), length_firstn.
    rewrite (Permutation_length (order_desc_perm _)). lia.
  - intros kept deleted Hk Hd Hnot.
    pose proof (order_desc_listed _ Hids) as Hs.
    rewrite <- (firstn_skipn (MAX_JOBS cfg)) in Hs.
    apply (listed_app_before _ _ _ _ Hs).
    + now apply (Permutation_in _ Hperm).
    + apply (Permutation_in _ (Permutation_sym (order_desc_perm _))) in Hd.
      rewrite <- (firstn_skipn (MAX_JOBS cfg)) in Hd.
      apply in_app_or in Hd. destruct Hd as [Hd|Hd]; [|assumption].
      exfalso. apply Hnot. now apply (Permutation_in _ (Permutation_sym Hperm)).
Qed.




Lemma prune_keeps_newest_sample :
  List.length (DB.jobs (prune Sample.builtins Sample.config three_postings))
  = MAX_JOBS Sample.config
  /\ Permutation (DB.jobs (prune Sample.builtins Sample.config three_postings))
       (firstn (MAX_JOBS Sample.config) (DB.order_desc (DB.jobs three_postings)))
  /\ (forall kept deleted,
        In kept (DB.jobs (prune Sample.builtins Sample.config three_postings)) ->
        In deleted (DB.jobs three_postings) ->
        ~ In deleted (DB.jobs (prune Sample.builtins Sample.config three_postings)) ->
        DB.before kept deleted = true)
  /\ DB.stats_cache (prune Sample.builtins Sample.config three_postings)
     = Some (Z.of_nat (MAX_JOBS Sample.config), now_seconds Sample.builtins).
Proof.
  apply (prune_keeps_newest Sample.builtins Sample.config three_postings).
  - simpl. repeat constructor; simpl; intuition discriminate.
  - simpl. discriminate.
  - simpl. lia.
Defined.

Example prune_three_postings :
  map DB.published_at (DB.jobs (prune Sample.builtins Sample.config three_postings))
  = [Some 3%Z; Some 2%Z].
Proof. reflexivity. Qed.

(* ------------------------------------------------------------------ *)
(** ** The record parser *)


Section RecordParser.
Variable B : Builtins.
Variable cfg : Config.
Variable ai : ai_backend.





Ltac tag_cases t :=
  repeat match goal with
  | |- context [JSStr.eqb t (JS ?s)] =>
    let E := fresh "E" in
    destruct (JSStr.eqb t (JS s)) eqn:E;
    [apply jsstr_eqb_eq in E; subst t; try reflexivity|]
  end.

Lemma assign_field_link (t text : jsstring) (it : item) :
  i_link (assign_field t text it)
  = if JSStr.eqb t (JS "url") || JSStr.eqb t (JS "link") then trim text
    else i_link it.
Proof.
  unfold assign_field. cbv beta zeta. tag_cases t.
  - simpl. now destruct (nonempty (i_guid it)).
  - simpl. now destruct (nonempty (i_guid it)).
  - reflexivity.
Qed.

Lemma assign_field_guid (t text : jsstring) (it : item) :
  i_guid (assign_field t text it)
  = if (JSStr.eqb t (JS "guid") || JSStr.eqb t (JS "referencenumber"))
       && negb (nonempty (i_guid it))
    then trim text else i_guid it.
Proof.
  unfold assign_field. cbv beta zeta. tag_cases t.
  - simpl. now destruct (nonempty (i_guid it)).
  - simpl. now destruct (nonempty (i_guid it)).
  - reflexivity.
Qed.

Lemma child_events_item (r : run) (it : item) (c : jsstring * jsstring) :
  currentItem r = Some it -> isFieldChild B c ->
  currentItem (fold_left (on_event B cfg ai) (child_events c) r)
  = Some (assign_field (toLowerCase B (fst c)) (snd c) it).
Proof.
  intros Hit Hc. unfold isFieldChild in Hc. simpl.
  unfold on_opentag. rewrite Hc. unfold on_closetag. simpl.
  rewrite Hit. rewrite Hc. reflexivity.
Qed.

Lemma children_events_item (children : list (jsstring * jsstring)) :
  forall (r : run) (it : item),
    currentItem r = Some it -> Forall (isFieldChild B) children ->
    currentItem (fold_left (on_event B cfg ai) (flat_map child_events children) r)
    = Some (fields_after B it children).
Proof.
  induction children as [|c children IH]; intros r it Hit Hc; [assumption|].
  inversion Hc as [|? ? Hc1 Hc2]; subst.
  change (flat_map child_events (c :: children))
    with (child_events c ++ flat_map child_events children).
  rewrite fold_left_app. apply IH; [|assumption].
  now apply child_events_item.
Qed.

Lemma fields_after_app (it : item) (l1 l2 : list (jsstring * jsstring)) :
  fields_after B it (l1 ++ l2) = fields_after B (fields_after B it l1) l2.
Proof. apply fold_left_app. Qed.

Lemma fields_after_no_link (l : list (jsstring * jsstring)) :
  forall it, Forall (fun a => isLinkChild B a = false) l ->
             i_link (fields_after B it l) = i_link it.
Proof.
  induction l as [|a l IH]; intros it H; [reflexivity|].
  inversion H as [|? ? Ha Hl]; subst. simpl.
  rewrite (IH _ Hl), assign_field_link. unfold isLinkChild in Ha. now rewrite Ha.
Qed.

Lemma fields_after_guid_kept (l : list (jsstring * jsstring)) :
  forall it, i_guid it <> [] -> i_guid (fields_after B it l) = i_guid it.
Proof.
  induction l as [|a l IH]; intros it H; [reflexivity|]. simpl.
  assert (E : i_guid (assign_field (toLowerCase B (fst a)) (snd a) it) = i_guid it).
  { rewrite assign_field_guid. apply nonempty_true in H. rewrite H. simpl.
    now rewrite andb_false_r. }
  rewrite IH; rewrite E; [reflexivity | assumption].
Qed.

Lemma fields_after_guid_empty (l : list (jsstring * jsstring)) :
  forall it, i_guid it = [] ->
             Forall (fun b => isGuidChild B b = true -> trim (snd b) = []) l ->
             i_guid (fields_after B it l) = [].
Proof.
  induction l as [|b l IH]; intros it Hit H; [assumption|].
  inversion H as [|? ? Hb Hl]; subst. simpl. apply IH; [|assumption].
  rewrite assign_field_guid. unfold isGuidChild in Hb.
  destruct (JSStr.eqb (toLowerCase B (fst b)) (JS "guid")
            || JSStr.eqb (toLowerCase B (fst b)) (JS "referencenumber")); simpl.
  - rewrite Hit. simpl. now apply Hb.
  - assumption.
Qed.

End RecordParser.




(** C7, as stated, fails for the link: with two url/link children the
    record holds the last one, not the first. *)
Lemma record_link_is_not_first :
  option_map i_link
    (currentItem
       (fold_left (on_event Sample.builtins Sample.config no_backend)
          (flat_map child_events two_links) record_opened))
  = Some (JS "https://jobs.example/second")
  /\ JS "https://jobs.example/second" <> JS "https://jobs.example/first".
Proof. split; [reflexivity | discriminate]. Qed.

(** C7, amended.  In a record whose children are text elements, the link
    of the record is the text of the last url/link child (the last one
    wins), and its guid is the text of the first guid/referencenumber
    child whose text is not empty (the first non-empty one wins), which is
    then the identity of the record. *)
Theorem record_link_last_guid_first (B : Builtins) (cfg : Config) (ai : ai_backend)
    (r : run) (it : item) (before after : list (jsstring * jsstring))
    (c : jsstring * jsstring) :
  currentItem r = Some it ->
  Forall (isFieldChild B) (before ++ c :: after) ->
  exists it',
    currentItem (fold_left (on_event B cfg ai)
                   (flat_map child_events (before ++ c :: after)) r) = Some it'
    /\ (isLinkChild B c = true ->
        Forall (fun a => isLinkChild B a = false) after ->
        i_link it' = trim (snd c))
    /\ (isGuidChild B c = true -> trim (snd c) <> [] -> i_guid it = [] ->
        Forall (fun b => isGuidChild B b = true -> trim (snd b) = []) before ->
        i_guid it' = trim (snd c)
        /\ forall processed, identityOf it' processed = trim (snd c)).
Proof.
  intros Hit Hfields. exists (fields_after B it (before ++ c :: after)).
  split; [now apply children_events_item|].
  change (before ++ c :: after) with (before ++ [c] ++ after).
  rewrite !fields_after_app. split.
  - intros Hc Hafter. rewrite (fields_after_no_link B _ _ Hafter). simpl.
    rewrite assign_field_link. unfold isLinkChild in Hc. now rewrite Hc.
  - intros Hc Hne Hguid Hbefore.
    assert (E : i_guid (fields_after B (fields_after B it before) [c]) = trim (snd c)).
    { simpl. rewrite assign_field_guid. unfold isGuidChild in Hc. rewrite Hc.
      now rewrite (fields_after_guid_empty B _ _ Hguid Hbefore). }
    assert (G : i_guid (fields_after B (fields_after B (fields_after B it before) [c]) after)
                = trim (snd c)).
    { rewrite fields_after_guid_kept; rewrite E; [reflexivity | assumption]. }
    split; [exact G|]. intros processed. unfold identityOf. rewrite G.
    unfold or_else. apply nonempty_true in Hne. now rewrite Hne.
Qed.

Lemma record_link_last_guid_first_sample :
  exists it',
    currentItem
      (fold_left (on_event Sample.builtins Sample.config no_backend)
         (flat_map child_events
            ([(JS "url", JS "https://jobs.example/first"); (JS "guid", [])]
             ++ (JS "link", JS "https://jobs.example/second")
                :: [(JS "referencenumber", JS "REF-7"); (JS "guid", JS "G-9")]))
         record_opened) = Some it'
    /\ (isLinkChild Sample.builtins (JS "link", JS "https://jobs.example/second") = true ->
        Forall (fun a => isLinkChild Sample.builtins a = false)
          [(JS "referencenumber", JS "REF-7"); (JS "guid", JS "G-9")] ->
        i_link it' = trim (snd (JS "link", JS "https://jobs.example/second")))
    /\ (isGuidChild Sample.builtins (JS "link", JS "https://jobs.example/second") = true ->
        trim (snd (JS "link", JS "https://jobs.example/second")) <> [] ->
        i_guid {| i_title := []; i_description := []; i_company := [];
                  i_link := []; i_guid := [];
                  i_pubDate := now_iso Sample.builtins |} = [] ->
        Forall (fun b => isGuidChild Sample.builtins b = true -> trim (snd b) = [])
          [(JS "url", JS "https://jobs.example/first"); (JS "guid", [])] ->
        i_guid it' = trim (snd (JS "link", JS "https://jobs.example/second"))
        /\ forall processed,
             identityOf it' processed
             = trim (snd (JS "link", JS "https://jobs.example/second"))).
Proof.
  apply (record_link_last_guid_first Sample.builtins Sample.config no_backend
           record_opened
           {| i_title := []; i_description := []; i_company := []; i_link := [];
              i_guid := []; i_pubDate := now_iso Sample.builtins |}).
  - reflexivity.
  - repeat constructor.
Defined.

(** The guid part on the same record: the empty guid is passed over and
    REF-7, the first one that is not empty, is the identity. *)
Example record_guid_first_non_empty :
  option_map (fun it => identityOf it 1)
    (currentItem
       (fold_left (on_event Sample.builtins Sample.config no_backend)
          (flat_map child_events two_links) record_opened))
  = Some (JS "REF-7").
Proof. reflexivity. Qed.

(* ------------------------------------------------------------------ *)
(** ** The placeholder identity *)

Lemma uint_digits_inj (d d' : Decimal.uint) :
  uint_digits d = uint_digits d' -> d = d'.
Proof.
  revert d'. induction d; destruct d'; simpl; intros H; try discriminate H;
    try reflexivity; injection H as H; f_equal; now apply IHd.
Qed.

Lemma N_to_string_inj (n m : N) : N_to_string n = N_to_string m -> n = m.
Proof.
  unfold N_to_string. intros H.
  apply DecimalN.Unsigned.to_uint_inj. now apply uint_digits_inj.
Qed.

Lemma stmtHasGuid_absent (g : jsstring) (d : DB.t) :
  (forall row, In row (DB.jobs d) -> DB.guid row <> g) ->
  DB.stmtHasGuid g d = None.
Proof.
  intros H. unfold DB.stmtHasGuid.
  destruct (find _ (DB.jobs d)) as [row|] eqn:E; [|reflexivity].
  apply find_some in E. destruct E as [Hin E]. apply jsstr_eqb_eq in E.
  now apply H in Hin.
Qed.

(** C10. For a record whose guid and link are both empty the identity is
    job-<position>, the position being the ordinal of the record in the
    run.  Two positions give two identities, so a copy of the record
    stored under job-<n> does not stop the record at position m, n other
    than m: unless some stored guid is job-<m> itself, the record is not
    skipped as a duplicate but matched and put into the batch under
    job-<m>. *)
Theorem placeholder_identity_by_position (B : Builtins) (cfg : Config)
    (it : item) (r : run) :
  i_guid it = [] -> i_link it = [] ->
  let position := S (processed r) in
  identityOf it position = JS "job-" ++ N_to_string (N.of_nat position)
  /\ (forall n m, identityOf it n = identityOf it m -> n = m)
  /\ ((forall row, In row (DB.jobs (run_db r)) ->
         DB.guid row <> identityOf it position) ->
      matchesProfession B cfg (i_title it) (i_company it) (i_description it) = true ->
      skipped (close_record B cfg it r) = skipped r
      /\ matched (close_record B cfg it r) = S (matched r)
      /\ exists raw,
           batch (close_record B cfg it r) = batch r ++ [raw]
           /\ r_guid raw = JS "job-" ++ N_to_string (N.of_nat position)
           /\ rawTitle raw = i_title it).
Proof.
  intros Hguid Hlink position.
  assert (Hid : forall n, identityOf it n = JS "job-" ++ N_to_string (N.of_nat n)).
  { intros n. unfold identityOf. now rewrite Hguid, Hlink. }
  split; [apply Hid|]. split.
  - intros n m. rewrite !Hid. intros H. apply app_inv_head in H.
    apply N_to_string_inj in H. lia.
  - intros Habsent Hrel. unfold close_record. fold position.
    rewrite (stmtHasGuid_absent _ _ Habsent), Hrel. simpl.
    repeat split. eexists. split; [reflexivity|]. split; [apply Hid | reflexivity].
Qed.




Lemma placeholder_identity_by_position_sample :
  identityOf bare_item 2 = JS "job-" ++ N_to_string (N.of_nat 2)
  /\ (forall n m, identityOf bare_item n = identityOf bare_item m -> n = m)
  /\ ((forall row, In row (DB.jobs (run_db later_run)) ->
         DB.guid row <> identityOf bare_item 2) ->
      matchesProfession Sample.builtins Sample.config (i_title bare_item)
        (i_company bare_item) (i_description bare_item) = true ->
      skipped (close_record Sample.builtins Sample.config bare_item later_run)
      = skipped later_run
      /\ matched (close_record Sample.builtins Sample.config bare_item later_run)
         = S (matched later_run)
      /\ exists raw,
           batch (close_record Sample.builtins Sample.config bare_item later_run)
           = batch later_run ++ [raw]
           /\ r_guid raw = JS "job-" ++ N_to_string (N.of_nat 2)
           /\ rawTitle raw = i_title bare_item).
Proof.
  apply (placeholder_identity_by_position Sample.builtins Sample.config
           bare_item later_run); reflexivity.
Defined.

(** On that run the record is matched again under job-2 although its copy
    is stored under job-1. *)
Example placeholder_copy_is_matched_again :
  map r_guid (batch (close_record Sample.builtins Sample.config bare_item later_run))
  = [JS "job-2"].
Proof. reflexivity. Qed.

(* ------------------------------------------------------------------ *)
(** ** The run: the flag, and what a parse error does *)


Section RunFacts.
Variable B : Builtins.
Variable cfg : Config.
Variable ai : ai_backend.

Lemma close_record_frame (it : item) (r : run) :
  promise (close_record B cfg it r) = promise r
  /\ run_db (close_record B cfg it r) = run_db r
  /\ run_console (close_record B cfg it r) = run_console r.
Proof.
  unfold close_record. cbv zeta.
  destruct (DB.stmtHasGuid _ _); [now repeat split|].
  destruct (negb _); now repeat split.
Qed.

(** An event of the content leaves the promise, the database and the
    console as they are. *)
Lemma on_content_frame (r : run) (e : sax_event) :
  isContent e ->
  promise (on_event B cfg ai r e) = promise r
  /\ run_db (on_event B cfg ai r e) = run_db r
  /\ run_console (on_event B cfg ai r e) = run_console r.
Proof.
  destruct e; simpl; try easy; intros _.
  - unfold on_opentag. now destruct (isRecordTag _).
  - unfold on_closetag. destruct (currentItem r); [|easy].
    destruct (isRecordTag _); [apply close_record_frame | easy].
Qed.

Lemma content_frame (events : list sax_event) :
  forall r, Forall isContent events ->
    promise (fold_left (on_event B cfg ai) events r) = promise r
    /\ run_db (fold_left (on_event B cfg ai) events r) = run_db r
    /\ run_console (fold_left (on_event B cfg ai) events r) = run_console r.
Proof.
  induction events as [|e events IH]; intros r H; [easy|].
  inversion H as [|? ? He Hes]; subst. simpl.
  destruct (IH (on_event B cfg ai r e) Hes) as [H1 [H2 H3]].
  destruct (on_content_frame r e He) as [G1 [G2 G3]].
  rewrite H1, H2, H3. now repeat split.
Qed.





Lemma on_event_db (r : run) (e : sax_event) :
  e <> SaxEnd -> run_db (on_event B cfg ai r e) = run_db r.
Proof.
  destruct e; simpl; try easy; intros _.
  - unfold on_opentag. now destruct (isRecordTag _).
  - unfold on_closetag. destruct (currentItem r); [|easy].
    destruct (isRecordTag _); [apply close_record_frame | easy].
Qed.


End RunFacts.







(* ------------------------------------------------------------------ *)
(** ** The listing page: a full scan *)


(** C4 on that store: the first page holds 50 rows and ends with the
    posting 51, published at 0; its nextCursor is 0-51, which the route
    refuses (Number gives 0 for the publication time, and 0 is falsy), so
    the scan stops and the posting 50 is never listed. *)
Lemma fullScan_stops_at_epoch_zero :
  List.length (DB.jobs epoch_store) = 51
  /\ (exists rows, fst (home Sample.builtins [] epoch_store)
                   = Page rows (Some (JS "0-51")) /\ List.length rows = 50)
  /\ fst (home Sample.builtins (JS "0-51") epoch_store) = BadRequest
  /\ snd (fullScan Sample.builtins 51 [] epoch_store) = ScanRefused
  /\ List.length (fst (fullScan Sample.builtins 51 [] epoch_store)) = 50
  /\ ~ In 50%Z (map DB.id (fst (fullScan Sample.builtins 51 [] epoch_store))).
Proof.
  split; [reflexivity|]. split; [eexists; split; vm_compute; reflexivity|].
  split; [vm_compute; reflexivity|]. split; [vm_compute; reflexivity|].
  split; [vm_compute; reflexivity|].
  intros H. vm_compute in H.
  repeat (destruct H as [H|H]; [discriminate H|]). exact H.
Qed.

(** *** The cursor read back *)

Lemma digits_acc (d : Decimal.uint) :
  forall p,
    fold_left (fun acc c => (acc * 10 + (c - 48))%N) (uint_digits d) (Npos p)
    = Npos (Pos.of_uint_acc d p).
Proof.
  induction d; intros p; cbn [uint_digits fold_left Pos.of_uint_acc];
    try reflexivity; rewrite <- IHd; f_equal; lia.
Qed.

Lemma digits_to_N_uint (d : Decimal.uint) :
  digits_to_N (uint_digits d) = N.of_uint d.
Proof.
  unfold digits_to_N, N.of_uint.
  induction d; cbn [uint_digits fold_left Pos.of_uint];
    try reflexivity; try exact IHd; apply digits_acc.
Qed.

Lemma digits_to_N_to_string (n : N) : digits_to_N (N_to_string n) = n.
Proof.
  unfold N_to_string. rewrite digits_to_N_uint. apply DecimalN.Unsigned.of_to.
Qed.

Lemma uint_digits_are_digits (d : Decimal.uint) :
  forallb isDigit (uint_digits d) = true.
Proof. induction d; simpl; try reflexivity; exact IHd. Qed.

Lemma N_to_string_nonempty (n : N) : nonempty (N_to_string n) = true.
Proof.
  unfold N_to_string. destruct n as [|p]; [reflexivity|]. simpl.
  pose proof (DecimalPos.Unsigned.to_uint_nonnil p) as H.
  destruct (Pos.to_uint p); [contradiction | reflexivity ..].
Qed.

Lemma isDigit_not_space (c : N) : isDigit c = true -> isWhiteSpace c = false.
Proof.
  unfold isDigit. intros H. apply not_true_is_false. intros C.
  unfold isWhiteSpace in C. bool_to_prop. lia.
Qed.

Lemma trimStart_digits (s : jsstring) :
  forallb isDigit s = true -> trimStart s = s.
Proof.
  destruct s as [|c s]; simpl; [reflexivity|]. intros H.
  apply andb_true_iff in H. now rewrite (isDigit_not_space _ (proj1 H)).
Qed.

Lemma trim_digits (s : jsstring) : forallb isDigit s = true -> trim s = s.
Proof.
  intros H. unfold trim, trimEnd. rewrite (trimStart_digits _ H).
  rewrite trimStart_digits; [apply rev_involutive|].
  apply forallb_forall. intros c Hc. apply in_rev in Hc.
  now apply (proj1 (forallb_forall _ _) H).
Qed.

(** Number reads the decimal rendering of a natural number back. *)
Lemma toNumber_N_to_string (n : N) : toNumber (N_to_string n) = Some (Z.of_N n).
Proof.
  unfold toNumber.
  pose proof (uint_digits_are_digits (N.to_uint n)) as Hd.
  pose proof (N_to_string_nonempty n) as Hne.
  pose proof (digits_to_N_to_string n) as Hv.
  fold (N_to_string n) in Hd. rewrite (trim_digits _ Hd).
  destruct (N_to_string n) as [|c ds]; [discriminate Hne|].
  assert (Hc : isDigit c = true) by (simpl in Hd; now apply andb_true_iff in Hd).
  assert (E1 : (c =? 43)%N = false)
    by (unfold isDigit in Hc; apply N.eqb_neq; bool_to_prop; lia).
  assert (E2 : (c =? 45)%N = false)
    by (unfold isDigit in Hc; apply N.eqb_neq; bool_to_prop; lia).
  rewrite E1, E2, Hd, Hv. reflexivity.
Qed.

Lemma digits_no_hyphen (s : jsstring) :
  forallb isDigit s = true -> Forall (fun c => (45 =? c)%N = false) s.
Proof.
  intros H. apply Forall_forall. intros c Hc.
  apply (proj1 (forallb_forall _ _) H) in Hc. unfold isDigit in Hc.
  apply N.eqb_neq. bool_to_prop. lia.
Qed.

Lemma splitOn_loop_hyphen_free (a : jsstring) :
  forall acc rest,
    Forall (fun c => (45 =? c)%N = false) a ->
    splitOn_loop [45%N] acc (a ++ rest) 0 = splitOn_loop [45%N] (rev a ++ acc) rest 0.
Proof.
  induction a as [|c a IH]; intros acc rest H; [reflexivity|].
  inversion H as [|? ? Hc Ha]; subst.
  cbn [app splitOn_loop startsWith]. rewrite Hc. cbn [andb].
  rewrite (IH _ _ Ha). cbn [rev]. now rewrite <- app_assoc.
Qed.

Lemma splitOn_pair (a b : jsstring) :
  Forall (fun c => (45 =? c)%N = false) a ->
  Forall (fun c => (45 =? c)%N = false) b ->
  splitOn (JS "-") (a ++ JS "-" ++ b) = [a; b].
Proof.
  intros Ha Hb. unfold splitOn. change (JS "-") with [45%N].
  rewrite (splitOn_loop_hyphen_free a _ _ Ha). simpl.
  rewrite List.app_nil_r, rev_involutive. f_equal.
  rewrite <- (List.app_nil_r b) at 1.
  rewrite (splitOn_loop_hyphen_free b _ _ Hb). simpl.
  now rewrite List.app_nil_r, rev_involutive.
Qed.

Lemma Z_to_string_pos (z : Z) :
  (0 < z)%Z -> Z_to_string z = N_to_string (Z.to_N z).
Proof. destruct z; simpl; [lia | reflexivity | lia]. Qed.

(** The route reads the cursor of a row with positive publication time
    and id back as the pair it was made of. *)
Lemma cursor_read_back (r : DB.job) (p : Z) :
  DB.published_at r = Some p -> (0 < p)%Z -> (0 < DB.id r)%Z ->
  nonempty (cursor_of r) = true
  /\ map toNumber (splitOn (JS "-") (cursor_of r)) = [Some p; Some (DB.id r)].
Proof.
  intros Hp Hpos Hid. unfold cursor_of. rewrite Hp. simpl column_to_string.
  rewrite (Z_to_string_pos _ Hpos), (Z_to_string_pos _ Hid). split.
  - pose proof (N_to_string_nonempty (Z.to_N p)) as H.
    destruct (N_to_string (Z.to_N p)); [discriminate H | reflexivity].
  - rewrite splitOn_pair.
    + simpl. rewrite !toNumber_N_to_string. repeat f_equal; lia.
    + apply digits_no_hyphen, uint_digits_are_digits.
    + apply digits_no_hyphen, uint_digits_are_digits.
Qed.

(** *** The prepared statements: rows beyond a cursor *)

Lemma beyond_cursor_before (r x : DB.job) (p : Z) :
  DB.published_at r = Some p -> DB.published_at x <> None ->
  DB.beyond_cursor p p (DB.id r) x = DB.before r x.
Proof.
  intros Hr Hx. unfold DB.beyond_cursor, DB.before. rewrite Hr.
  destruct (DB.published_at x) as [q|]; [|contradiction]. simpl.
  destruct (Z.compare_spec p q) as [E|E|E].
  - subst. rewrite Z.ltb_irrefl, Z.eqb_refl. reflexivity.
  - assert (H1 : (q <? p)%Z = false) by (apply Z.ltb_ge; lia).
    assert (H2 : (q =? p)%Z = false) by (apply Z.eqb_neq; lia).
    now rewrite H1, H2.
  - assert (H1 : (q <? p)%Z = true) by (apply Z.ltb_lt; lia).
    now rewrite H1.
Qed.

Lemma listed_filter (f : DB.job -> bool) (l : list DB.job) :
  listed l -> listed (filter f l).
Proof.
  unfold listed. induction 1 as [|x l Hl IH Hx]; simpl; [constructor|].
  destruct (f x); [|assumption]. constructor; [assumption|].
  rewrite Forall_forall in *. intros y Hy. apply filter_In in Hy. now apply Hx.
Qed.

(** Two listings of the same rows are the same list. *)
Lemma listed_unique (l1 : list DB.job) :
  forall l2, listed l1 -> listed l2 -> Permutation l1 l2 -> l1 = l2.
Proof.
  unfold listed. induction l1 as [|a l1 IH]; intros l2 H1 H2 P.
  - apply Permutation_nil in P. now subst.
  - destruct l2 as [|b l2]; [apply Permutation_sym, Permutation_nil in P; discriminate|].
    inversion H1 as [|? ? Hs1 Hf1]; inversion H2 as [|? ? Hs2 Hf2]; subst.
    rewrite Forall_forall in Hf1, Hf2.
    assert (E : a = b).
    { assert (Ha : In a (b :: l2)) by (apply (Permutation_in _ P); now left).
      assert (Hb : In b (a :: l1))
        by (apply (Permutation_in _ (Permutation_sym P)); now left).
      destruct Ha as [Ha|Ha]; [now symmetry|].
      destruct Hb as [Hb|Hb]; [assumption|].
      pose proof (before_asym _ _ (Hf1 _ Hb)) as C.
      rewrite (Hf2 _ Ha) in C. discriminate C. }
    subst b. f_equal. apply IH; try assumption.
    now apply Permutation_cons_inv in P.
Qed.

Lemma NoDup_ids_filter (f : DB.job -> bool) (l : list DB.job) :
  NoDup (map DB.id l) -> NoDup (map DB.id (filter f l)).
Proof.
  induction l as [|x l IH]; simpl; intros H; [constructor|].
  inversion H as [|? ? Hx Hl]; subst.
  destruct (f x); simpl; [|now apply IH].
  constructor; [|now apply IH].
  intros C. apply Hx. apply in_map_iff in C. destruct C as [y [E Hy]].
  apply filter_In in Hy. rewrite <- E. apply in_map. tauto.
Qed.

(** Filtering and listing commute. *)
Lemma order_desc_filter (f : DB.job -> bool) (l : list DB.job) :
  NoDup (map DB.id l) ->
  DB.order_desc (filter f l) = filter f (DB.order_desc l).
Proof.
  intros H. apply listed_unique.
  - apply order_desc_listed. now apply NoDup_ids_filter.
  - apply listed_filter. now apply order_desc_listed.
  - rewrite order_desc_perm. apply filter_perm, Permutation_sym, order_desc_perm.
Qed.

(** In a listing, the rows a row is before are the rows after it. *)
Lemma filter_before_rest (pre post : list DB.job) (r : DB.job) :
  listed (pre ++ r :: post) ->
  filter (DB.before r) (pre ++ r :: post) = post.
Proof.
  intros H. rewrite filter_app. simpl. rewrite before_irrefl.
  assert (H1 : filter (DB.before r) pre = []).
  { induction pre as [|x pre IH]; [reflexivity|]. simpl.
    assert (E : DB.before x r = true).
    { apply (listed_app_before [x] (pre ++ r :: post)); [exact H | now left |].
      apply in_or_app. right. now left. }
    rewrite (before_asym _ _ E). apply IH.
    unfold listed in *. simpl in H. now inversion H. }
  assert (H2 : filter (DB.before r) post = post).
  { apply forallb_filter_id, forallb_forall. intros x Hx.
    apply (listed_app_before (pre ++ [r]) post); [|apply in_or_app; right; now left | exact Hx].
    now rewrite <- app_assoc. }
  now rewrite H1, H2.
Qed.

(** stmtPageCursor at the pair of a row returns the rows that follow it in
    the listing, up to the limit, when no publication time is null. *)
Lemma stmtPageCursor_follows (d : DB.t) (pre post : list DB.job) (r : DB.job)
    (p : Z) (limit : nat) :
  NoDup (map DB.id (DB.jobs d)) ->
  (forall x, In x (DB.jobs d) -> DB.published_at x <> None) ->
  DB.order_desc (DB.jobs d) = pre ++ r :: post ->
  DB.published_at r = Some p ->
  DB.stmtPageCursor p p (DB.id r) limit d = firstn limit post.
Proof.
  intros Hids Hpub Hsorted Hp. unfold DB.stmtPageCursor. f_equal.
  rewrite (filter_ext_in (DB.beyond_cursor p p (DB.id r)) (DB.before r)).
  - rewrite (order_desc_filter _ _ Hids), Hsorted.
    apply filter_before_rest. rewrite <- Hsorted. now apply order_desc_listed.
  - intros x Hx. apply beyond_cursor_before; [assumption | now apply Hpub].
Qed.

(** *** The full scan over positive publication times *)

Lemma getCachedCount_jobs (now ttl : Z) (d : DB.t) :
  DB.jobs (snd (DB.getCachedCount now ttl d)) = DB.jobs d.
Proof.
  unfold DB.getCachedCount. now destruct (DB.stmtGetCache _ d).
Qed.

Lemma respond_page (B : Builtins) (rows : list DB.job) (d : DB.t) :
  respond B rows d
  = (Page rows
       (if Nat.eqb (List.length rows) pageSize
        then option_map cursor_of (last (map Some rows) None) else None),
     snd (DB.getCachedCount (now_seconds B) 300 d)).
Proof.
  unfold respond. now destruct (DB.getCachedCount (now_seconds B) 300 d).
Qed.

Lemma last_map_Some (front : list DB.job) (r : DB.job) :
  last (map Some (front ++ [r])) None = Some r.
Proof.
  rewrite map_app. simpl. apply last_last.
Qed.

Section FullScan.
Variable B : Builtins.
Variable d : DB.t.
Hypothesis unique_ids : NoDup (map DB.id (DB.jobs d)).
Hypothesis positive_rows :
  forall x, In x (DB.jobs d) ->
    (0 < DB.id x)%Z /\ exists p, DB.published_at x = Some p /\ (0 < p)%Z.

(** The page the route serves when the rows [done] have been listed and
    the cursor is that of the last of them. *)
Lemma home_next_page (d' : DB.t) (cursor : jsstring) (done rest : list DB.job) :
  DB.jobs d' = DB.jobs d ->
  DB.order_desc (DB.jobs d) = done ++ rest ->
  (done = [] /\ cursor = []) \/ (exists pre r, done = pre ++ [r] /\ cursor = cursor_of r) ->
  home B cursor d' = respond B (firstn pageSize rest) d'.
Proof.
  intros Hjobs Hsorted [[-> ->]|[pre [r [-> ->]]]].
  - unfold home. simpl. unfold DB.stmtPageFirst. now rewrite Hjobs, Hsorted.
  - rewrite <- app_assoc in Hsorted. simpl in Hsorted.
    assert (Hr : In r (DB.jobs d)).
    { apply (Permutation_in _ (order_desc_perm _)). rewrite Hsorted.
      apply in_or_app. right. now left. }
    destruct (positive_rows r Hr) as [Hid [p [Hp Hpos]]].
    destruct (cursor_read_back r p Hp Hpos Hid) as [Hne Hparts].
    unfold home. rewrite Hne, Hparts. simpl.
    assert (E1 : (p =? 0)%Z = false) by (apply Z.eqb_neq; lia).
    assert (E2 : (DB.id r =? 0)%Z = false) by (apply Z.eqb_neq; lia).
    rewrite E1, E2. simpl. f_equal.
    apply (stmtPageCursor_follows d' pre rest r p); try assumption.
    + now rewrite Hjobs.
    + rewrite Hjobs. intros x Hx. destruct (positive_rows x Hx) as [_ [q [Hq _]]].
      rewrite Hq. discriminate.
    + now rewrite Hjobs.
Qed.

Lemma fullScan_from (fuel : nat) :
  forall (d' : DB.t) (cursor : jsstring) (done rest : list DB.job),
    DB.jobs d' = DB.jobs d ->
    DB.order_desc (DB.jobs d) = done ++ rest ->
    (done = [] /\ cursor = [])
    \/ (exists pre r, done = pre ++ [r] /\ cursor = cursor_of r) ->
    List.length rest < pageSize * fuel ->
    fullScan B fuel cursor d' = (rest, ScanComplete).
Proof.
  induction fuel as [|fuel IH]; intros d' cursor done rest Hjobs Hsorted Hcur Hfuel;
    [unfold pageSize in Hfuel; lia|].
  simpl. rewrite (home_next_page d' cursor done rest Hjobs Hsorted Hcur).
  rewrite respond_page.
  destruct (Nat.eqb (List.length (firstn pageSize rest)) pageSize) eqn:E.
  - apply Nat.eqb_eq in E.
    assert (Hlen : pageSize <= List.length rest).
    { rewrite length_firstn in E. lia. }
    destruct (exists_last (l := firstn pageSize rest)) as [front [r Hpage]].
    { intros C. rewrite C in E. discriminate E. }
    rewrite Hpage, last_map_Some. simpl option_map. cbv iota.
    rewrite (IH _ (cursor_of r) (done ++ firstn pageSize rest) (skipn pageSize rest)).
    + rewrite <- Hpage. now rewrite firstn_skipn.
    + now rewrite getCachedCount_jobs.
    + now rewrite <- app_assoc, firstn_skipn.
    + right. exists (done ++ front), r. now rewrite Hpage, app_assoc.
    + rewrite length_skipn. unfold pageSize in *. lia.
  - apply Nat.eqb_neq in E. rewrite length_firstn in E.
    rewrite firstn_all2 by lia. reflexivity.
Qed.

(** Over a store whose rows have unique positive ids and positive
    publication times, a full scan of the route lists all the rows: every
    row once, in the order of the listing. *)
Lemma fullScan_lists_all :
  fullScan B (S (List.length (DB.jobs d))) [] d
  = (DB.order_desc (DB.jobs d), ScanComplete).
Proof.
  apply (fullScan_from _ d [] [] (DB.order_desc (DB.jobs d))).
  - reflexivity.
  - reflexivity.
  - now left.
  - rewrite (Permutation_length (order_desc_perm _)). unfold pageSize. lia.
Qed.

End FullScan.

(** Keyset pagination over positive publication times.  For every store
    whose rows have unique positive ids and positive publication times, a
    full scan of the listing route (no cursor first, then the nextCursor
    of each page) ends after the last page and yields every stored posting
    exactly once, each row before all the rows listed after it in
    (published_at, id) descending order. *)
Theorem fullScan_positive_times (B : Builtins) (d : DB.t) :
  NoDup (map DB.id (DB.jobs d)) ->
  (forall x, In x (DB.jobs d) ->
     (0 < DB.id x)%Z /\ exists p, DB.published_at x = Some p /\ (0 < p)%Z) ->
  snd (fullScan B (S (List.length (DB.jobs d))) [] d) = ScanComplete
  /\ Permutation (fst (fullScan B (S (List.length (DB.jobs d))) [] d)) (DB.jobs d)
  /\ StronglySorted (fun a b => DB.before a b = true)
       (fst (fullScan B (S (List.length (DB.jobs d))) [] d)).
Proof.
  intros Hids Hrows. rewrite (fullScan_lists_all B d Hids Hrows). simpl.
  split; [reflexivity|]. split; [apply order_desc_perm|].
  now apply order_desc_listed.
Qed.

Lemma fullScan_positive_times_sample :
  snd (fullScan Sample.builtins (S (List.length (DB.jobs three_postings))) []
         three_postings) = ScanComplete
  /\ Permutation
       (fst (fullScan Sample.builtins (S (List.length (DB.jobs three_postings))) []
               three_postings))
       (DB.jobs three_postings)
  /\ StronglySorted (fun a b => DB.before a b = true)
       (fst (fullScan Sample.builtins (S (List.length (DB.jobs three_postings))) []
               three_postings)).
Proof.
  apply (fullScan_positive_times Sample.builtins three_postings).
  - simpl. repeat constructor; simpl; intuition discriminate.
  - simpl. intros x [<-|[<-|[<-|[]]]]; simpl; (split; [lia|]);
      eexists; (split; [reflexivity | lia]).
Defined.

(* ------------------------------------------------------------------ *)
(** ** The invariant of the store *)

Lemma NoDup_snoc {A : Type} (l : list A) (x : A) :
  NoDup l -> ~ In x l -> NoDup (l ++ [x]).
Proof.
  intros Hl Hx. apply NoDup_app; [assumption | repeat constructor; easy |].
  intros y Hy [<-|[]]. contradiction.
Qed.

Lemma NoDup_map_filter {A : Type} (f : DB.job -> A) (g : DB.job -> bool)
    (l : list DB.job) :
  NoDup (map f l) -> NoDup (map f (filter g l)).
Proof.
  induction l as [|x l IH]; simpl; intros H; [constructor|].
  inversion H as [|? ? Hx Hl]; subst.
  destruct (g x); simpl; [|now apply IH].
  constructor; [|now apply IH].
  intros C. apply Hx. apply in_map_iff in C. destruct C as [y [E Hy]].
  apply filter_In in Hy. rewrite <- E. apply in_map. tauto.
Qed.

Lemma store_ok_empty : store_ok DB.empty.
Proof. repeat split; simpl; try constructor; try lia; easy. Qed.

(** INSERT OR IGNORE keeps guid, slug and id unique. *)
Lemma stmtInsertJob_ok (p : DB.job_params) (d : DB.t) :
  store_ok d -> store_ok (DB.stmtInsertJob p d).
Proof.
  intros H. pose proof H as [Hg [Hs [Hi [Hseq Hb]]]]. unfold DB.stmtInsertJob.
  destruct (existsb _ (DB.jobs d)) eqn:E; [exact H|]. clear H.
  assert (Hnew : forall r, In r (DB.jobs d) ->
                   DB.guid r <> DB.p_guid p /\ DB.slug r <> DB.p_slug p).
  { intros r Hr.
    destruct (JSStr.eqb (DB.guid r) (DB.p_guid p)) eqn:E1.
    - exfalso. rewrite (proj2 (existsb_exists _ _)) in E; [discriminate|].
      exists r. split; [assumption|]. now rewrite E1.
    - destruct (JSStr.eqb (DB.slug r) (DB.p_slug p)) eqn:E2.
      + exfalso. rewrite (proj2 (existsb_exists _ _)) in E; [discriminate|].
        exists r. split; [assumption|]. rewrite E2. apply orb_true_r.
      + split; now apply jsstr_eqb_neq. }
  unfold store_ok. simpl. rewrite !map_app. simpl.
  repeat split.
  - apply NoDup_snoc; [assumption|]. intros C. apply in_map_iff in C.
    destruct C as [r [Er Hr]]. now apply (proj1 (Hnew r Hr)).
  - apply NoDup_snoc; [assumption|]. intros C. apply in_map_iff in C.
    destruct C as [r [Er Hr]]. now apply (proj2 (Hnew r Hr)).
  - apply NoDup_snoc; [assumption|]. intros C. apply in_map_iff in C.
    destruct C as [r [Er Hr]]. specialize (Hb r Hr). lia.
  - lia.
  - apply in_app_or in H. destruct H as [H|[<-|[]]]; [|simpl; lia].
    specialize (Hb r H). lia.
  - apply in_app_or in H. destruct H as [H|[<-|[]]]; [|simpl; lia].
    specialize (Hb r H). lia.
Qed.

Lemma stmtDeleteOld_ok (n : nat) (d : DB.t) :
  store_ok d -> store_ok (DB.stmtDeleteOld n d).
Proof.
  intros [Hg [Hs [Hi [Hseq Hb]]]]. unfold store_ok, DB.stmtDeleteOld. simpl.
  repeat split; try (now apply NoDup_map_filter); try assumption;
    apply filter_In in H; destruct H as [H _]; now apply Hb.
Qed.

Lemma sax_event_eq_end (e : sax_event) : e = SaxEnd \/ e <> SaxEnd.
Proof. destruct e; (now left) || (right; discriminate). Qed.

Section StoreInvariant.
Variable B : Builtins.
Variable cfg : Config.
Variable ai : ai_backend.

(** The tag tables are the only thing upsertTagsForJob writes. *)
Lemma upsertTagsForJob_jobs (jobId : Z) (names : list jsstring) :
  forall d,
    DB.jobs (upsertTagsForJob B jobId names d) = DB.jobs d
    /\ DB.jobs_seq (upsertTagsForJob B jobId names d) = DB.jobs_seq d.
Proof.
  unfold upsertTagsForJob.
  induction names as [|name names IH]; intros d; [easy|]. simpl.
  match goal with |- context [fold_left _ names ?d1] =>
    destruct (IH d1) as [H1 H2]; rewrite H1, H2 end.
  unfold DB.stmtInsertTag.
  destruct (existsb _ (DB.tags d)); simpl.
  - destruct (DB.stmtGetTagByName name d); [|easy].
    unfold DB.stmtInsertJobTag. now destruct (existsb _ _).
  - match goal with |- context [DB.stmtGetTagByName name ?d2] =>
      destruct (DB.stmtGetTagByName name d2) end; [|easy].
    unfold DB.stmtInsertJobTag. now destruct (existsb _ _).
Qed.

Lemma upsertTagsForJob_ok (jobId : Z) (names : list jsstring) (d : DB.t) :
  store_ok d -> store_ok (upsertTagsForJob B jobId names d).
Proof.
  unfold store_ok.
  destruct (upsertTagsForJob_jobs jobId names d) as [H1 H2]. now rewrite H1, H2.
Qed.

Lemma insertBatch_ok (jobs : list DB.job_params) :
  forall d, store_ok d -> store_ok (insertBatch B jobs d).
Proof.
  unfold insertBatch. induction jobs as [|job jobs IH]; intros d H; [assumption|].
  simpl. apply IH.
  destruct (DB.stmtHasGuid _ _);
    [apply upsertTagsForJob_ok|]; now apply stmtInsertJob_ok.
Qed.

Lemma prune_ok (d : DB.t) : store_ok d -> store_ok (prune B cfg d).
Proof.
  intros H. unfold prune.
  destruct (DB.getCachedCount (now_seconds B) 0 d) as [total d1] eqn:E.
  assert (H1 : store_ok d1).
  { unfold DB.getCachedCount in E. destruct (DB.stmtGetCache _ d);
      injection E as _ <-; exact H. }
  destruct (Z.of_nat (MAX_JOBS cfg) <? total)%Z; [|assumption].
  apply (stmtDeleteOld_ok (MAX_JOBS cfg)) in H1. exact H1.
Qed.

Lemma enrich_loop_ok (l : list raw_job) :
  forall st i, store_ok (e_db st) -> store_ok (e_db (enrich_loop B cfg ai st i l)).
Proof.
  induction l as [|rawJob l IH]; intros st i H; [assumption|].
  cbn [enrich_loop]. apply IH. unfold enrich_one. cbv zeta. cbn [e_db].
  match goal with |- context [if ?c then _ else _] => destruct c end;
    [now apply insertBatch_ok | assumption].
Qed.

Lemma on_event_ok (r : run) (e : sax_event) :
  store_ok (run_db r) -> store_ok (run_db (on_event B cfg ai r e)).
Proof.
  intros H. destruct (sax_event_eq_end e) as [->|Hne];
    [|now rewrite on_event_db].
  cbn [on_event]. unfold on_end. cbn [run_db settle].
  destruct (batch r) as [|rawJob l]; [exact H|].
  set (st := enrich_loop B cfg ai _ 0 (rawJob :: l)).
  assert (Hst : store_ok (e_db st)) by (apply enrich_loop_ok; exact H).
  destruct (processedBatch st); cbn [e_db]; [exact Hst|].
  now apply insertBatch_ok.
Qed.

Lemma events_ok (events : list sax_event) :
  forall r, store_ok (run_db r) ->
            store_ok (run_db (fold_left (on_event B cfg ai) events r)).
Proof.
  induction events as [|e events IH]; intros r H; [assumption|].
  simpl. apply IH. now apply on_event_ok.
Qed.

End StoreInvariant.

(** Uniqueness in the store.  guid, slug and id are each unique in [jobs]
    after a call of processFeed if they were before it, however the call
    ends; so they are at all times in a store that started empty. *)
Theorem processFeed_keeps_store_ok (B : Builtins) (cfg : Config) (ai : ai_backend)
    (fetched : fetch_result) (w : world) :
  store_ok (db w) -> store_ok (db (snd (processFeed B cfg ai fetched w))).
Proof.
  intros H. unfold processFeed.
  destruct (FEED_RUNNING w); [exact H|].
  destruct (negb (nonempty (FEED_URL cfg))); [exact H|].
  unfold run_feed. destruct fetched as [message|events]; [exact H|].
  set (r := fold_left (on_event B cfg ai) events _).
  assert (Hr : store_ok (run_db r)) by (apply events_ok; exact H).
  destruct (promise r); simpl; [exact Hr | now apply prune_ok | exact Hr].
Qed.

Lemma processFeed_keeps_store_ok_sample :
  store_ok (db (snd (processFeed Sample.builtins Sample.config no_backend
                       (FetchBody (one_record ++ [SaxEnd])) Sample.idle))).
Proof.
  apply (processFeed_keeps_store_ok Sample.builtins Sample.config no_backend
           (FetchBody (one_record ++ [SaxEnd])) Sample.idle).
  exact store_ok_empty.
Defined.

Lemma stmtHasGuid_present (g : jsstring) (d : DB.t) (row : DB.job) :
  In row (DB.jobs d) -> DB.guid row = g ->
  exists found, DB.stmtHasGuid g d = Some found.
Proof.
  intros Hin Hg. unfold DB.stmtHasGuid.
  destruct (find _ (DB.jobs d)) as [found|] eqn:E; [now exists found|].
  apply (find_none _ _ E) in Hin. rewrite Hg, jsstr_eqb_refl in Hin. discriminate.
Qed.

(** Dedup before enrichment.  A record whose identity is the guid of a
    stored posting is skipped when it closes: it is counted as skipped and
    not put into the batch, which is all that is enriched and inserted; the
    database is not touched. *)
Theorem close_record_skips_stored (B : Builtins) (cfg : Config) (it : item)
    (r : run) (row : DB.job) :
  In row (DB.jobs (run_db r)) ->
  DB.guid row = identityOf it (S (processed r)) ->
  batch (close_record B cfg it r) = batch r
  /\ skipped (close_record B cfg it r) = S (skipped r)
  /\ matched (close_record B cfg it r) = matched r
  /\ processed (close_record B cfg it r) = S (processed r)
  /\ run_db (close_record B cfg it r) = run_db r.
Proof.
  intros Hin Hg. unfold close_record. cbv zeta.
  destruct (stmtHasGuid_present _ _ _ Hin Hg) as [found ->]. now repeat split.
Qed.

Lemma close_record_skips_stored_sample :
  batch (close_record Sample.builtins Sample.config known_item second_run)
  = batch second_run
  /\ skipped (close_record Sample.builtins Sample.config known_item second_run)
     = S (skipped second_run)
  /\ matched (close_record Sample.builtins Sample.config known_item second_run)
     = matched second_run
  /\ processed (close_record Sample.builtins Sample.config known_item second_run)
     = S (processed second_run)
  /\ run_db (close_record Sample.builtins Sample.config known_item second_run)
     = run_db second_run.
Proof.
  apply (close_record_skips_stored Sample.builtins Sample.config known_item
           second_run (posting 1 (Some 1%Z))).
  - left. reflexivity.
  - reflexivity.
Defined.

(** Scenario of the specification: a second run over a feed with the same
    guid A1 skips the record and leaves the number of postings as it is. *)
Example second_run_skips_A1 :
  List.length (DB.jobs (db after_first_run)) = 1
  /\ skipped (fold_left (on_event Sample.builtins Sample.config no_backend)
                one_record (start_run after_first_run)) = 1
  /\ List.length
       (DB.jobs (db (snd (processFeed Sample.builtins Sample.config no_backend
                            (FetchBody (one_record ++ [SaxEnd])) after_first_run))))
     = 1.
Proof. repeat split; vm_compute; reflexivity. Qed.

(** Keyset pagination on the prepared statements.  In a store whose rows
    have unique ids and no null publication time (zero and negative times
    included), stmtPageCursor called with the (published_at, id) pair of a
    row returns the rows that follow this row in ORDER BY published_at DESC,
    id DESC, up to the limit, as stmtPageFirst returns the first rows. *)
Theorem keyset_statements_follow (d : DB.t) (pre post : list DB.job) (r : DB.job)
    (p : Z) (limit : nat) :
  NoDup (map DB.id (DB.jobs d)) ->
  (forall x, In x (DB.jobs d) -> DB.published_at x <> None) ->
  DB.order_desc (DB.jobs d) = pre ++ r :: post ->
  DB.published_at r = Some p ->
  DB.stmtPageFirst limit d = firstn limit (pre ++ r :: post)
  /\ DB.stmtPageCursor p p (DB.id r) limit d = firstn limit post.
Proof.
  intros Hids Hpub Hsorted Hp. split.
  - unfold DB.stmtPageFirst. now rewrite Hsorted.
  - now apply (stmtPageCursor_follows d pre post r p limit).
Qed.

(** On the store with two postings published at 0: after the first 50
    rows, the statement itself returns the posting 50. *)
Lemma keyset_statements_follow_sample :
  DB.stmtPageFirst 50 epoch_store
  = firstn 50 (firstn 49 (DB.order_desc (DB.jobs epoch_store))
               ++ posting 51 (Some 0%Z) :: [posting 50 (Some 0%Z)])
  /\ DB.stmtPageCursor 0 0 (DB.id (posting 51 (Some 0%Z))) 50 epoch_store
     = firstn 50 [posting 50 (Some 0%Z)].
Proof.
  apply (keyset_statements_follow epoch_store
           (firstn 49 (DB.order_desc (DB.jobs epoch_store)))
           [posting 50 (Some 0%Z)] (posting 51 (Some 0%Z)) 0 50).
  - vm_compute. repeat constructor; simpl; intuition discriminate.
  - intros x Hx.
    assert (F : forallb (fun r => match DB.published_at r with
                                  | Some _ => true
                                  | None => false
                                  end) (DB.jobs epoch_store) = true)
      by (vm_compute; reflexivity).
    rewrite forallb_forall in F. specialize (F x Hx).
    destruct (DB.published_at x); [discriminate | discriminate F].
  - vm_compute. reflexivity.
  - reflexivity.
Defined.

(* ------------------------------------------------------------------ *)
(** ** The matcher never runs out of iterations

    The bounds that make the loops of the matcher structural are never
    what ends them: with more fuel the result is the same. *)

Section MatcherFuel.
Import Regex.

Lemma reached_refl (x : mstate) : reached x x = true.
Proof.
  unfold reached. now rewrite Nat.eqb_refl, Nat.leb_refl.
Qed.

Lemma reached_trans (x y z : mstate) :
  reached x y = true -> reached y z = true -> reached x z = true.
Proof.
  unfold reached. rewrite !andb_true_iff, !Nat.eqb_eq, !Nat.leb_le. lia.
Qed.

Lemma reached_same_pos (x y : mstate) :
  reached x y = true ->
  (pos y = pos x <-> List.length (rest y) = List.length (rest x)).
Proof.
  unfold reached. rewrite !andb_true_iff, !Nat.eqb_eq, !Nat.leb_le. lia.
Qed.

Lemma reached_shorter (x y : mstate) :
  reached x y = true -> List.length (rest y) <= List.length (rest x).
Proof.
  unfold reached. rewrite !andb_true_iff, !Nat.eqb_eq, !Nat.leb_le. lia.
Qed.

Lemma oneChar_local (p : N -> bool) : local (oneChar p).
Proof.
  intros x k k' H. unfold oneChar. destruct (rest x) as [|c tl] eqn:E; [reflexivity|].
  destruct (p c); [|reflexivity]. apply H.
  unfold reached. cbn [rest pos]. rewrite E.
  apply andb_true_intro.
  split; [apply Nat.eqb_eq | apply Nat.leb_le]; cbn [List.length]; lia.
Qed.

Lemma orElse_ext (a a' : option mstate) (b b' : Datatypes.unit -> option mstate) :
  a = a' -> b tt = b' tt -> orElse a b = orElse a' b'.
Proof. intros -> H. unfold orElse. now destruct a'. Qed.

Lemma repeat_local (m : matcher) (greedy : bool) :
  local m ->
  forall fuel lo hi x k k',
    (forall y, reached x y = true -> k y = k' y) ->
    repeat fuel m greedy lo hi x k = repeat fuel m greedy lo hi x k'.
Proof.
  intros Hm. induction fuel as [|fuel IH]; intros lo hi x k k' H; [reflexivity|].
  simpl.
  assert (Hx : k x = k' x) by apply H, reached_refl.
  assert (Hd : m x (fun y => if Nat.eqb lo 0 && Nat.eqb (pos y) (pos x) then None
                             else repeat fuel m greedy (Nat.pred lo)
                                    (option_map Nat.pred hi) y k)
               = m x (fun y => if Nat.eqb lo 0 && Nat.eqb (pos y) (pos x) then None
                               else repeat fuel m greedy (Nat.pred lo)
                                      (option_map Nat.pred hi) y k')).
  { apply Hm. intros y Hy. destruct (Nat.eqb lo 0 && Nat.eqb (pos y) (pos x));
      [reflexivity|].
    apply IH. intros z Hz. apply H. now apply (reached_trans x y z). }
  destruct hi as [[|n]|]; try exact Hx;
    destruct (negb (Nat.eqb lo 0)); try exact Hd;
    destruct greedy; now apply orElse_ext.
Qed.

Lemma run_local (ignoreCase : bool) (r : regex) : local (run ignoreCase r).
Proof.
  induction r as [| | | | | | |r1 IH1 r2 IH2|r1 IH1 r2 IH2|greedy lo hi r1 IH1
                  |i r1 IH1|r1 IH1]; cbn [run]; try apply oneChar_local.
  - intros x k k' H. apply H, reached_refl.
  - intros x k k' H. destruct (xorb _ _); [apply H, reached_refl | reflexivity].
  - intros x k k' H. destruct (rest x); [apply H, reached_refl | reflexivity].
  - intros x k k' H. apply IH1. intros y Hy. apply IH2. intros z Hz.
    apply H. now apply (reached_trans x y z).
  - intros x k k' H. apply orElse_ext; [now apply IH1 | now apply IH2].
  - intros x k k' H. now apply repeat_local.
  - intros x k k' H. apply IH1. intros y Hy. apply H. exact Hy.
  - intros x k k' H. destruct (run ignoreCase r1 x _); [reflexivity|].
    apply H, reached_refl.
Qed.

(** One more unit of fuel changes nothing once the fuel exceeds the
    minimum plus the length of the remaining input. *)
Lemma repeat_more_fuel (m : matcher) (greedy : bool) :
  local m ->
  forall fuel lo hi x k,
    lo + List.length (rest x) < fuel ->
    repeat (S fuel) m greedy lo hi x k = repeat fuel m greedy lo hi x k.
Proof.
  intros Hm. induction fuel as [|fuel IH]; intros lo hi x k Hfuel; [lia|].
  change (repeat (S (S fuel)) m greedy lo hi x k)
    with (match hi with
          | Some O => k x
          | _ =>
            let d : cont := fun y =>
              if Nat.eqb lo 0 && Nat.eqb (pos y) (pos x) then None
              else repeat (S fuel) m greedy (Nat.pred lo) (option_map Nat.pred hi) y k in
            if negb (Nat.eqb lo 0) then m x d
            else if greedy then orElse (m x d) (fun _ => k x)
            else orElse (k x) (fun _ => m x d)
          end).
  change (repeat (S fuel) m greedy lo hi x k)
    with (match hi with
          | Some O => k x
          | _ =>
            let d : cont := fun y =>
              if Nat.eqb lo 0 && Nat.eqb (pos y) (pos x) then None
              else repeat fuel m greedy (Nat.pred lo) (option_map Nat.pred hi) y k in
            if negb (Nat.eqb lo 0) then m x d
            else if greedy then orElse (m x d) (fun _ => k x)
            else orElse (k x) (fun _ => m x d)
          end).
  assert (Hd : m x (fun y => if Nat.eqb lo 0 && Nat.eqb (pos y) (pos x) then None
                             else repeat (S fuel) m greedy (Nat.pred lo)
                                    (option_map Nat.pred hi) y k)
               = m x (fun y => if Nat.eqb lo 0 && Nat.eqb (pos y) (pos x) then None
                               else repeat fuel m greedy (Nat.pred lo)
                                      (option_map Nat.pred hi) y k)).
  { apply Hm. intros y Hy.
    destruct (Nat.eqb lo 0) eqn:E0; simpl.
    - destruct (Nat.eqb (pos y) (pos x)) eqn:Ep; [reflexivity|].
      apply IH. apply Nat.eqb_eq in E0. apply Nat.eqb_neq in Ep.
      pose proof (reached_same_pos x y Hy). pose proof (reached_shorter x y Hy). lia.
    - apply IH. apply Nat.eqb_neq in E0.
      pose proof (reached_shorter x y Hy). lia. }
  cbv zeta.
  destruct hi as [[|n]|]; try reflexivity;
    destruct (negb (Nat.eqb lo 0)); try exact Hd;
    destruct greedy; now apply orElse_ext.
Qed.

(** The bound of a quantifier in [run] is never reached: any larger one
    gives the same match. *)
Lemma repeat_fuel_suffices (ignoreCase greedy : bool) (r : regex) (lo : nat)
    (hi : option nat) (x : mstate) (k : cont) (extra : nat) :
  repeat (S (lo + List.length (rest x)) + extra) (run ignoreCase r) greedy lo hi x k
  = run ignoreCase (Rep greedy lo hi r) x k.
Proof.
  cbn [run]. induction extra as [|extra IH]; [now rewrite Nat.add_0_r|].
  rewrite <- IH, Nat.add_succ_r.
  apply repeat_more_fuel; [apply run_local | lia].
Qed.

(** What a matcher returns is returned by its continuation. *)
Lemma repeat_result (m : matcher) (greedy : bool) (P : mstate -> Prop) :
  (forall x k, (forall y res, k y = Some res -> P res) ->
               forall res, m x k = Some res -> P res) ->
  forall fuel lo hi x k,
    (forall y res, k y = Some res -> P res) ->
    forall res, repeat fuel m greedy lo hi x k = Some res -> P res.
Proof.
  intros Hm. induction fuel as [|fuel IH]; intros lo hi x k Hk res; [discriminate|].
  cbn [repeat].
  assert (Hd : forall res, m x (fun y => if Nat.eqb lo 0 && Nat.eqb (pos y) (pos x)
                                         then None
                                         else repeat fuel m greedy (Nat.pred lo)
                                                (option_map Nat.pred hi) y k)
                           = Some res -> P res).
  { apply Hm. intros y res'.
    destruct (Nat.eqb lo 0 && Nat.eqb (pos y) (pos x)); [discriminate|].
    now apply IH. }
  assert (Ho : forall (a : option mstate) (b : Datatypes.unit -> option mstate),
             (forall res, a = Some res -> P res) ->
             (forall res, b tt = Some res -> P res) ->
             forall res, orElse a b = Some res -> P res).
  { intros a b Ha Hb res'. unfold orElse. destruct a; [apply Ha | apply Hb]. }
  destruct hi as [[|n]|]; try apply Hk;
    destruct (negb (Nat.eqb lo 0)); try apply Hd;
    destruct greedy; apply Ho; auto; apply Hk.
Qed.

Lemma run_result (ignoreCase : bool) (r : regex) (P : mstate -> Prop) :
  forall x k, (forall y res, k y = Some res -> P res) ->
              forall res, run ignoreCase r x k = Some res -> P res.
Proof.
  induction r as [| | | | | | |r1 IH1 r2 IH2|r1 IH1 r2 IH2|greedy lo hi r1 IH1
                  |i r1 IH1|r1 IH1]; cbn [run]; intros x k Hk res;
    try (unfold oneChar; destruct (rest x); [discriminate|];
         match goal with |- context [if ?c then _ else _] => destruct c end;
         [apply Hk | discriminate]).
  - apply Hk.
  - destruct (xorb _ _); [apply Hk | discriminate].
  - destruct (rest x); [apply Hk | discriminate].
  - apply IH1. intros y res'. now apply IH2.
  - unfold orElse. destruct (run ignoreCase r1 x k) eqn:E.
    + intros H. injection H as <-. now apply (IH1 x k Hk).
    + now apply IH2.
  - now apply repeat_result.
  - apply IH1. intros y res'. apply Hk.
  - destruct (run ignoreCase r1 x _); [discriminate | apply Hk].
Qed.

(** A match ends in a state reached from where it started. *)
Lemma match_at_reached (ignoreCase : bool) (r : regex) (x : mstate)
    (res : match_result) :
  match_at ignoreCase r x = Some res -> reached x (after res) = true.
Proof.
  unfold match_at.
  set (x0 := {| before := before x; rest := rest x; pos := pos x; caps := [] |}).
  rewrite (run_local ignoreCase r x0 (fun y => Some y)
             (fun y => if reached x0 y then Some y else None)).
  - destruct (run ignoreCase r x0 _) as [y|] eqn:E; [|discriminate].
    intros H. injection H as <-. simpl.
    apply (run_result ignoreCase r (fun y => reached x y = true) x0 _) in E;
      [exact E|].
    intros z res'. destruct (reached x0 z) eqn:Ez; [|discriminate].
    intros H. injection H as <-. exact Ez.
  - intros y Hy. now rewrite Hy.
Qed.

(** replace: the bound is the length of the text plus one. *)
Lemma replace_more_fuel (ignoreCase : bool) (r : regex) (f : match_result -> jsstring) :
  forall fuel x,
    List.length (rest x) < fuel ->
    replace_loop (S fuel) ignoreCase r f x = replace_loop fuel ignoreCase r f x.
Proof.
  induction fuel as [|fuel IH]; intros x Hfuel; [lia|].
  change (replace_loop (S (S fuel)) ignoreCase r f x)
    with (let step :=
            match rest x with
            | [] => []
            | c :: s' =>
              c :: replace_loop (S fuel) ignoreCase r f
                     {| before := Some c; rest := s'; pos := S (pos x); caps := [] |}
            end in
          match match_at ignoreCase r x with
          | Some res =>
            if Nat.eqb (pos (after res)) (pos x) then f res ++ step
            else f res ++ replace_loop (S fuel) ignoreCase r f (after res)
          | None => step
          end).
  change (replace_loop (S fuel) ignoreCase r f x)
    with (let step :=
            match rest x with
            | [] => []
            | c :: s' =>
              c :: replace_loop fuel ignoreCase r f
                     {| before := Some c; rest := s'; pos := S (pos x); caps := [] |}
            end in
          match match_at ignoreCase r x with
          | Some res =>
            if Nat.eqb (pos (after res)) (pos x) then f res ++ step
            else f res ++ replace_loop fuel ignoreCase r f (after res)
          | None => step
          end).
  cbv zeta.
  assert (Hstep :
            match rest x with
            | [] => []
            | c :: s' =>
              c :: replace_loop (S fuel) ignoreCase r f
                     {| before := Some c; rest := s'; pos := S (pos x); caps := [] |}
            end
            = match rest x with
              | [] => []
              | c :: s' =>
                c :: replace_loop fuel ignoreCase r f
                       {| before := Some c; rest := s'; pos := S (pos x); caps := [] |}
              end).
  { destruct (rest x) as [|c s'] eqn:E; [reflexivity|]. f_equal. apply IH.
    simpl in *. lia. }
  rewrite Hstep.
  destruct (match_at ignoreCase r x) as [res|] eqn:E; [|reflexivity].
  destruct (Nat.eqb (pos (after res)) (pos x)) eqn:Ep; [reflexivity|].
  f_equal. apply IH. apply Nat.eqb_neq in Ep.
  pose proof (match_at_reached _ _ _ _ E) as Hr.
  pose proof (reached_same_pos _ _ Hr). pose proof (reached_shorter _ _ Hr). lia.
Qed.

Lemma replace_fuel_suffices (ignoreCase : bool) (r : regex)
    (f : match_result -> jsstring) (s : jsstring) (extra : nat) :
  replace_loop (S (List.length s) + extra) ignoreCase r f
    {| before := None; rest := s; pos := 0; caps := [] |}
  = replace_all ignoreCase r f s.
Proof.
  unfold replace_all. induction extra as [|extra IH]; [now rewrite Nat.add_0_r|].
  rewrite <- IH, Nat.add_succ_r. apply replace_more_fuel. simpl. lia.
Qed.

(** split: two steps per code unit at most. *)
Lemma split_more_fuel (r : regex) :
  forall fuel acc x,
    2 * List.length (rest x) + (if nonempty acc then 1 else 0) < fuel ->
    split_loop (S fuel) r acc x = split_loop fuel r acc x.
Proof.
  induction fuel as [|fuel IH]; intros acc x Hfuel; [lia|].
  change (split_loop (S (S fuel)) r acc x)
    with (match rest x with
          | [] => [rev acc]
          | c :: s' =>
            let next := {| before := Some c; rest := s'; pos := S (pos x); caps := [] |} in
            match match_at false r x with
            | Some res =>
              if Nat.eqb (pos (after res)) (pos x) && negb (nonempty acc)
              then split_loop (S fuel) r (c :: acc) next
              else rev acc :: split_loop (S fuel) r [] (after res)
            | None => split_loop (S fuel) r (c :: acc) next
            end
          end).
  change (split_loop (S fuel) r acc x)
    with (match rest x with
          | [] => [rev acc]
          | c :: s' =>
            let next := {| before := Some c; rest := s'; pos := S (pos x); caps := [] |} in
            match match_at false r x with
            | Some res =>
              if Nat.eqb (pos (after res)) (pos x) && negb (nonempty acc)
              then split_loop fuel r (c :: acc) next
              else rev acc :: split_loop fuel r [] (after res)
            | None => split_loop fuel r (c :: acc) next
            end
          end).
  destruct (rest x) as [|c s'] eqn:E; [reflexivity|]. cbv zeta.
  assert (Hnext : split_loop (S fuel) r (c :: acc)
                    {| before := Some c; rest := s'; pos := S (pos x); caps := [] |}
                  = split_loop fuel r (c :: acc)
                      {| before := Some c; rest := s'; pos := S (pos x); caps := [] |}).
  { apply IH. simpl in *. destruct (nonempty acc); lia. }
  destruct (match_at false r x) as [res|] eqn:Em; [|exact Hnext].
  destruct (Nat.eqb (pos (after res)) (pos x) && negb (nonempty acc)) eqn:Ec;
    [exact Hnext|].
  f_equal. apply IH. simpl nonempty. cbv iota.
  pose proof (match_at_reached _ _ _ _ Em) as Hr.
  pose proof (reached_same_pos _ _ Hr) as Hp.
  pose proof (reached_shorter _ _ Hr) as Hs. rewrite E in Hp, Hs. simpl in *.
  apply andb_false_iff in Ec. destruct Ec as [Ec|Ec].
  - apply Nat.eqb_neq in Ec. destruct (nonempty acc); lia.
  - apply negb_false_iff in Ec. rewrite Ec in Hfuel. lia.
Qed.

Lemma split_fuel_suffices (r : regex) (c : N) (s : jsstring) (extra : nat) :
  split_loop (2 * List.length (c :: s) + 2 + extra) r []
    {| before := None; rest := c :: s; pos := 0; caps := [] |}
  = split r (c :: s).
Proof.
  unfold split. induction extra as [|extra IH]; [now rewrite Nat.add_0_r|].
  rewrite <- IH, Nat.add_succ_r. apply split_more_fuel. simpl. lia.
Qed.

End MatcherFuel.

(* ================================================================== *)
(** * Further properties *)

(* ------------------------------------------------------------------ *)
(** ** escapeHtml *)

Section Escape.
Import Regex.

Lemma match_at_class (items : list citem) (x : mstate) :
  match_at false (Class items) x
  = match rest x with
    | c :: tl =>
      if existsb (citem_matches false c) items
      then Some {| index := pos x; matched := [c];
                   after := {| before := Some c; rest := tl; pos := S (pos x);
                               caps := [] |} |}
      else None
    | [] => None
    end.
Proof.
  unfold match_at. cbn [run]. unfold oneChar. cbn [rest pos caps before].
  destruct (rest x) as [|c tl]; [reflexivity|].
  destruct (existsb _ items); [|reflexivity].
  cbn [pos]. replace (S (pos x) - pos x) with 1 by lia. reflexivity.
Qed.

(** Replacing the matches of a class is a map over the code units. *)
Lemma replace_loop_class (items : list citem) (f : match_result -> jsstring)
    (g : N -> jsstring) :
  (forall c res, matched res = [c] -> existsb (citem_matches false c) items = true ->
                 f res = g c) ->
  (forall c, existsb (citem_matches false c) items = false -> g c = [c]) ->
  forall fuel x, List.length (rest x) < fuel ->
    replace_loop fuel false (Class items) f x = flat_map g (rest x).
Proof.
  intros Hf Hg. induction fuel as [|fuel IH]; intros x Hlen; [lia|].
  cbn [replace_loop]. rewrite match_at_class.
  destruct (rest x) as [|c tl] eqn:E; [reflexivity|].
  cbn [List.length] in Hlen.
  destruct (existsb (citem_matches false c) items) eqn:Ec.
  - cbn [after pos]. replace (Nat.eqb (S (pos x)) (pos x)) with false
      by (symmetry; apply Nat.eqb_neq; lia).
    rewrite (Hf c) by (try reflexivity; assumption).
    rewrite IH by (cbn [rest]; lia). reflexivity.
  - rewrite IH by (cbn [rest]; lia). cbn [flat_map rest]. now rewrite (Hg c Ec).
Qed.

Lemma escapeHtml_class :
  chars "&<>" ++ quotes = [CChar 38; CChar 60; CChar 62; CChar 34; CChar 39].
Proof. reflexivity. Qed.

Lemma escapeHtml_flat_map (s : jsstring) : escapeHtml s = flat_map entity s.
Proof.
  unfold escapeHtml, replace_all. rewrite escapeHtml_class.
  rewrite (replace_loop_class _ _ entity); [reflexivity| | |cbn [rest]; lia].
  - intros c res Hm Hc. rewrite Hm.
    cbn [existsb citem_matches canonicalize] in Hc. unfold entity.
    repeat match type of Hc with
           | (?a =? ?b)%N || _ = true =>
             destruct (N.eqb_spec a b) as [<-|?]; [reflexivity|]; cbn [orb] in Hc
           end.
    discriminate.
  - intros c Hc. cbn [existsb citem_matches canonicalize] in Hc. unfold entity.
    rewrite !orb_false_iff, !N.eqb_neq in Hc.
    destruct Hc as (H1 & H2 & H3 & H4 & H5 & _).
    repeat match goal with
           | |- context [(?a =? ?b)%N] =>
             destruct (N.eqb_spec a b) as [->|?]; [congruence|]
           end.
    reflexivity.
Qed.

End Escape.

Lemma entity_no_markup (c a : N) : In a (entity c) -> isMarkup a = false.
Proof.
  unfold entity.
  repeat match goal with
         | |- context [(?x =? ?y)%N] => destruct (N.eqb_spec x y) as [->|?]
         end;
    cbn; intros H;
    repeat (destruct H as [<-|H]; [try reflexivity|]); try contradiction.
  unfold isMarkup.
  repeat match goal with
         | |- context [(?x =? ?y)%N] => destruct (N.eqb_spec x y); [congruence|]
         end.
  reflexivity.
Qed.

(** escapeHtml writes no markup: its result holds none of the code units
    less-than, greater-than, double quote and single quote, whatever the
    text.  It works code unit by code unit, so the escaping of a
    concatenation is the concatenation of the escapings, and a text without
    the five code units it replaces is returned as it is. *)
Theorem escapeHtml_writes_no_markup (s t : jsstring) :
  forallb (fun c => negb (isMarkup c)) (escapeHtml s) = true
  /\ escapeHtml (s ++ t) = escapeHtml s ++ escapeHtml t
  /\ (forallb (fun c => negb (isMarkup c || (c =? 38)%N)) s = true ->
      escapeHtml s = s).
Proof.
  rewrite !escapeHtml_flat_map. split; [|split].
  - apply forallb_forall. intros a Ha. apply in_flat_map in Ha.
    destruct Ha as [c [_ Ha]]. now rewrite (entity_no_markup c a Ha).
  - apply flat_map_app.
  - intros H. induction s as [|c s IH]; [reflexivity|].
    cbn [forallb] in H. apply andb_true_iff in H. destruct H as [Hc Hs].
    cbn [flat_map]. rewrite (IH Hs).
    unfold isMarkup in Hc. unfold entity.
    repeat match goal with
           | |- context [(?x =? ?y)%N] =>
             destruct (N.eqb_spec x y) as [->|?]; [discriminate Hc|]
           end.
    reflexivity.
Qed.

Lemma escapeHtml_writes_no_markup_sample :
  forallb (fun c => negb (isMarkup c)) (escapeHtml (JS "Chauffeur SPL")) = true
  /\ escapeHtml (JS "Chauffeur SPL" ++ JS "<b onclick='x'>")
     = escapeHtml (JS "Chauffeur SPL") ++ escapeHtml (JS "<b onclick='x'>")
  /\ escapeHtml (JS "Chauffeur SPL") = JS "Chauffeur SPL".
Proof.
  destruct (escapeHtml_writes_no_markup (JS "Chauffeur SPL") (JS "<b onclick='x'>"))
    as [H1 [H2 H3]].
  split; [exact H1|]. split; [exact H2|]. apply H3. reflexivity.
Defined.

(* ------------------------------------------------------------------ *)
(** ** The sanitisers only delete *)

Section Deleting.
Import Regex.

Lemma extends_refl (x : mstate) : extends x x.
Proof. exists []. split; [reflexivity | simpl; lia]. Qed.

Lemma extends_trans (x y z : mstate) : extends x y -> extends y z -> extends x z.
Proof.
  intros [p [Hp Hn]] [q [Hq Hm]]. exists (p ++ q). split.
  - now rewrite Hp, Hq, app_assoc.
  - rewrite length_app. lia.
Qed.

Lemma oneChar_calls (p : N -> bool) : calls_continuation (oneChar p).
Proof.
  intros x k res. unfold oneChar. destruct (rest x) as [|c tl] eqn:E; [discriminate|].
  destruct (p c); [|discriminate]. intros H. eexists. split; [|exact H].
  exists [c]. cbn [rest pos]. split; [exact E | simpl; lia].
Qed.

Lemma repeat_calls (m : matcher) (greedy : bool) :
  calls_continuation m ->
  forall fuel lo hi, calls_continuation (fun x k => repeat fuel m greedy lo hi x k).
Proof.
  intros Hm. induction fuel as [|fuel IH]; intros lo hi x k res; [discriminate|].
  cbn [repeat].
  assert (Hk : k x = Some res -> exists y, extends x y /\ k y = Some res).
  { intros H. exists x. split; [apply extends_refl | exact H]. }
  assert (Hd : m x (fun y => if Nat.eqb lo 0 && Nat.eqb (pos y) (pos x) then None
                             else repeat fuel m greedy (Nat.pred lo)
                                    (option_map Nat.pred hi) y k) = Some res ->
               exists y, extends x y /\ k y = Some res).
  { intros H. apply Hm in H. destruct H as [y [Hxy H]].
    destruct (Nat.eqb lo 0 && Nat.eqb (pos y) (pos x)); [discriminate|].
    apply IH in H. destruct H as [z [Hyz H]].
    exists z. split; [now apply (extends_trans x y z) | exact H]. }
  destruct hi as [[|n]|]; try exact Hk;
    destruct (negb (Nat.eqb lo 0)); try exact Hd;
    destruct greedy; unfold orElse;
    match goal with |- context [match ?a with Some _ => _ | None => _ end] =>
      destruct a eqn:Ea end;
    try (intros H; first [apply Hk; congruence | apply Hd; congruence]).
Qed.

Lemma run_calls (ignoreCase : bool) (r : regex) :
  calls_continuation (run ignoreCase r).
Proof.
  induction r as [| | | | | | |r1 IH1 r2 IH2|r1 IH1 r2 IH2|greedy lo hi r1 IH1
                  |i r1 IH1|r1 IH1]; cbn [run]; try apply oneChar_calls.
  - intros x k res H. exists x. split; [apply extends_refl | exact H].
  - intros x k res. destruct (xorb _ _); [|discriminate].
    intros H. exists x. split; [apply extends_refl | exact H].
  - intros x k res. destruct (rest x) eqn:E; [|discriminate].
    intros H. exists x. split; [apply extends_refl | exact H].
  - intros x k res H. apply IH1 in H. destruct H as [y [Hxy H]].
    apply IH2 in H. destruct H as [z [Hyz H]].
    exists z. split; [now apply (extends_trans x y z) | exact H].
  - intros x k res. unfold orElse. destruct (run ignoreCase r1 x k) eqn:E.
    + intros H. injection H as <-. now apply IH1.
    + apply IH2.
  - intros x k res. now apply repeat_calls.
  - intros x k res H. apply IH1 in H. destruct H as [y [[pre [Hp Hn]] H]].
    eexists. split; [|exact H]. exists pre. cbn [rest pos]. now split.
  - intros x k res. destruct (run ignoreCase r1 x _); [discriminate|].
    intros H. exists x. split; [apply extends_refl | exact H].
Qed.

(** A match ends on a suffix of the input it started on. *)
Lemma match_at_extends (ignoreCase : bool) (r : regex) (x : mstate)
    (res : match_result) :
  match_at ignoreCase r x = Some res -> extends x (after res).
Proof.
  unfold match_at.
  destruct (run ignoreCase r _ _) as [y|] eqn:E; [|discriminate].
  intros H. injection H as <-. cbn [after].
  apply run_calls in E. destruct E as [z [[pre [Hp Hn]] Hz]].
  injection Hz as ->. exists pre. now split.
Qed.

Lemma only_deletes_refl (s : jsstring) : only_deletes s s.
Proof. induction s; now constructor. Qed.

Lemma only_deletes_drop (pre a b : jsstring) :
  only_deletes a b -> only_deletes a (pre ++ b).
Proof. intros H. induction pre; simpl; [assumption | now constructor]. Qed.

Lemma only_deletes_skip (a b post : jsstring) :
  only_deletes a b -> only_deletes a (b ++ post).
Proof.
  induction 1; simpl; try now constructor.
  induction post; now constructor.
Qed.

Lemma only_deletes_trans (a b c : jsstring) :
  only_deletes a b -> only_deletes b c -> only_deletes a c.
Proof.
  intros Hab Hbc. revert a Hab.
  induction Hbc as [|x b c Hbc IH|x b c Hbc IH]; intros a Hab.
  - assumption.
  - inversion Hab; subst; constructor; now apply IH.
  - constructor. now apply IH.
Qed.

Lemma only_deletes_length (a b : jsstring) :
  only_deletes a b -> List.length a <= List.length b.
Proof. induction 1; simpl; lia. Qed.

Lemma only_deletes_In (a b : jsstring) (c : N) :
  only_deletes a b -> In c a -> In c b.
Proof. induction 1; simpl; intuition. Qed.

(** A replace that puts nothing in the place of a match only deletes. *)
Lemma replace_loop_deletes (ignoreCase : bool) (r : regex) :
  forall fuel x,
    only_deletes (replace_loop fuel ignoreCase r (fun _ => []) x) (rest x).
Proof.
  induction fuel as [|fuel IH]; intros x; [apply only_deletes_refl|].
  cbn [replace_loop].
  assert (Hstep : only_deletes
                    match rest x with
                    | [] => []
                    | c :: s' =>
                      c :: replace_loop fuel ignoreCase r (fun _ => [])
                             {| before := Some c; rest := s'; pos := S (pos x);
                                caps := [] |}
                    end (rest x)).
  { destruct (rest x) as [|c s']; [constructor|]. constructor.
    apply (IH {| before := Some c; rest := s'; pos := S (pos x); caps := [] |}). }
  destruct (match_at ignoreCase r x) as [res|] eqn:E; [|exact Hstep].
  destruct (Nat.eqb (pos (after res)) (pos x)); [exact Hstep|].
  cbn [app]. destruct (match_at_extends _ _ _ _ E) as [pre [Hp _]].
  rewrite Hp. apply only_deletes_drop, IH.
Qed.

Lemma replace_all_deletes (ignoreCase : bool) (r : regex) (s : jsstring) :
  only_deletes (replace_all ignoreCase r (fun _ => []) s) s.
Proof.
  unfold replace_all.
  apply (replace_loop_deletes ignoreCase r _
           {| before := None; rest := s; pos := 0; caps := [] |}).
Qed.

Lemma trimStart_suffix (s : jsstring) : exists pre, s = pre ++ trimStart s.
Proof.
  induction s as [|c s [pre IH]]; [now exists []|]. simpl.
  destruct (isWhiteSpace c); [|now exists []].
  exists (c :: pre). simpl. now f_equal.
Qed.

Lemma trim_deletes (s : jsstring) : only_deletes (trim s) s.
Proof.
  unfold trim, trimEnd.
  destruct (trimStart_suffix s) as [pre Hpre].
  destruct (trimStart_suffix (rev (trimStart s))) as [post Hpost].
  rewrite Hpre at 2. apply only_deletes_drop.
  rewrite <- (rev_involutive (trimStart s)) at 2. rewrite Hpost at 2.
  rewrite rev_app_distr. apply only_deletes_skip, only_deletes_refl.
Qed.

End Deleting.

(** sanitizeHtml and stripDocumentTags only delete: what they return is the
    text they were given with some code units removed, the others kept in
    their order.  Nothing is ever inserted or rewritten; in particular the
    result is never longer than the input. *)
Theorem sanitizers_only_delete (html : jsstring) :
  only_deletes (sanitizeHtml html) html
  /\ only_deletes (stripDocumentTags html) html
  /\ List.length (sanitizeHtml html) <= List.length html
  /\ List.length (stripDocumentTags html) <= List.length html.
Proof.
  assert (H1 : only_deletes (sanitizeHtml html) html).
  { unfold sanitizeHtml. destruct html as [|c html]; [constructor|].
    cbn [nonempty negb]. cbv zeta.
    repeat (eapply only_deletes_trans; [apply replace_all_deletes|]).
    apply only_deletes_refl. }
  assert (H2 : only_deletes (stripDocumentTags html) html).
  { unfold stripDocumentTags. destruct html as [|c html]; [constructor|].
    cbn [nonempty negb]. cbv zeta.
    eapply only_deletes_trans; [apply trim_deletes|].
    repeat (eapply only_deletes_trans; [apply replace_all_deletes|]).
    apply only_deletes_refl. }
  repeat split; try assumption; now apply only_deletes_length.
Qed.

(* ------------------------------------------------------------------ *)
(** ** truncateWords *)

Section Words.
Import Regex.

Lemma run_ws (x : mstate) (k : cont) :
  run false ws x k
  = match rest x with
    | c :: tl =>
      if isWhiteSpace c
      then k {| before := Some c; rest := tl; pos := S (pos x); caps := caps x |}
      else None
    | [] => None
    end.
Proof.
  unfold ws. cbn [run]. unfold oneChar. destruct (rest x) as [|c tl]; [reflexivity|].
  cbn [existsb citem_matches]. now rewrite orb_false_r.
Qed.

Lemma repeat_plus_first (fuel : nat) (m : matcher) (x : mstate) (k : cont) :
  repeat (S fuel) m true 1 None x k = m x (fun y => repeat fuel m true 0 None y k).
Proof. reflexivity. Qed.

Lemma repeat_star_step (fuel : nat) (m : matcher) (x : mstate) (k : cont) :
  repeat (S fuel) m true 0 None x k
  = orElse (m x (fun y => if Nat.eqb (pos y) (pos x) then None
                          else repeat fuel m true 0 None y k))
           (fun _ => k x).
Proof. reflexivity. Qed.

(** The greedy loop of \s+ after its first code unit: it reads the white
    space the input starts with. *)
Lemma repeat_ws_star (s : jsstring) :
  forall fuel y, rest y = s -> List.length s < fuel ->
    exists z,
      repeat fuel (run false ws) true 0 None y (fun z => Some z) = Some z
      /\ rest z = trimStart s /\ pos y <= pos z.
Proof.
  induction s as [|c s IH]; intros fuel y Hy Hfuel;
    (destruct fuel as [|fuel]; [simpl in Hfuel; lia|]);
    rewrite repeat_star_step, run_ws, Hy.
  - cbn [orElse]. exists y. now repeat split.
  - cbn [trimStart]. destruct (isWhiteSpace c) eqn:Ec.
    + cbn [pos].
      replace (Nat.eqb (S (pos y)) (pos y)) with false
        by (symmetry; apply Nat.eqb_neq; lia).
      destruct (IH fuel {| before := Some c; rest := s; pos := S (pos y);
                           caps := caps y |} eq_refl) as [z [Hz [Hr Hp]]].
      { simpl in Hfuel. lia. }
      rewrite Hz. cbn [orElse].
      exists z. cbn [pos] in Hp. repeat split; [assumption | lia].
    + cbn [orElse]. exists y. now repeat split.
Qed.

Lemma match_at_plus_ws (x : mstate) (c : N) (tl : jsstring) :
  rest x = c :: tl ->
  if isWhiteSpace c
  then exists res, match_at false (plus ws) x = Some res
                   /\ rest (after res) = trimStart tl
                   /\ pos x < pos (after res)
  else match_at false (plus ws) x = None.
Proof.
  intros Hx. unfold match_at, plus.
  change (run false (Rep true 1 None ws)
            {| before := before x; rest := rest x; pos := pos x; caps := [] |}
            (fun y => Some y))
    with (repeat (S (1 + List.length (rest x))) (run false ws) true 1 None
            {| before := before x; rest := rest x; pos := pos x; caps := [] |}
            (fun y => Some y)).
  rewrite repeat_plus_first, run_ws. cbn [rest pos caps]. rewrite Hx.
  destruct (isWhiteSpace c); [|reflexivity].
  destruct (repeat_ws_star tl (1 + List.length (c :: tl))
              {| before := Some c; rest := tl; pos := S (pos x); caps := [] |}
              eq_refl) as [z [Hz [Hr Hp]]]; [simpl; lia|].
  rewrite Hz. eexists. split; [reflexivity|]. cbn [after pos] in *.
  split; [assumption | lia].
Qed.

Lemma pieces_sep_trimStart (s : jsstring) :
  pieces true [] s = pieces false [] (trimStart s).
Proof.
  induction s as [|c s IH]; [reflexivity|]. cbn [pieces trimStart].
  destruct (isWhiteSpace c) eqn:E; [exact IH|]. cbn [pieces]. now rewrite E.
Qed.

Lemma split_loop_pieces :
  forall fuel acc x,
    2 * List.length (rest x) < fuel ->
    split_loop fuel (plus ws) acc x = pieces false acc (rest x).
Proof.
  induction fuel as [|fuel IH]; intros acc x Hfuel; [lia|].
  cbn [split_loop]. destruct (rest x) as [|c tl] eqn:E; [reflexivity|].
  pose proof (match_at_plus_ws x c tl E) as Hm. cbn [pieces].
  simpl in Hfuel.
  destruct (isWhiteSpace c).
  - destruct Hm as [res [-> [Hr Hp]]].
    replace (Nat.eqb (pos (after res)) (pos x)) with false
      by (symmetry; apply Nat.eqb_neq; lia).
    cbn [andb]. f_equal. rewrite IH.
    + rewrite Hr. symmetry. apply pieces_sep_trimStart.
    + rewrite Hr. destruct (trimStart_suffix tl) as [pre Hpre].
      assert (List.length (trimStart tl) <= List.length tl).
      { rewrite Hpre at 2. rewrite length_app. lia. }
      lia.
  - rewrite Hm. apply IH. cbn [rest]. lia.
Qed.

(** The words of a text are its pieces between runs of white space. *)
Lemma wordsOf_pieces (txt : jsstring) : wordsOf txt = pieces false [] txt.
Proof.
  unfold wordsOf, split. destruct txt as [|c tl].
  - reflexivity.
  - apply split_loop_pieces. cbn [rest]. lia.
Qed.

Lemma pieces_length_acc (s : jsstring) :
  forall insep acc acc',
    List.length (pieces insep acc s) = List.length (pieces insep acc' s).
Proof.
  induction s as [|c s IH]; intros insep acc acc'; [reflexivity|].
  cbn [pieces]. destruct (isWhiteSpace c).
  - destruct insep; [apply IH | cbn [List.length]; f_equal; apply IH].
  - apply IH.
Qed.

Lemma pieces_length_sep (s : jsstring) :
  forall acc, List.length (pieces true acc s) <= List.length (pieces false acc s).
Proof.
  destruct s as [|c s]; intros acc; [reflexivity|].
  cbn [pieces]. destruct (isWhiteSpace c); [|reflexivity].
  cbn [List.length]. rewrite (pieces_length_acc s true acc []). lia.
Qed.

(** A word in front of a text adds no piece to it. *)
Lemma pieces_length_word (w s : jsstring) :
  forallb (fun c => negb (isWhiteSpace c)) w = true ->
  forall insep acc,
    List.length (pieces insep acc (w ++ s)) <= List.length (pieces false [] s).
Proof.
  intros Hw. induction w as [|c w IH]; intros insep acc.
  - cbn [app]. destruct insep.
    + rewrite (pieces_length_acc s true acc []). apply pieces_length_sep.
    + now rewrite (pieces_length_acc s false acc []).
  - cbn [forallb] in Hw. apply andb_true_iff in Hw. destruct Hw as [Hc Hw].
    apply negb_true_iff in Hc. cbn [app pieces]. rewrite Hc. now apply IH.
Qed.

Lemma pieces_length_joined (F : list jsstring) (t : jsstring) :
  Forall (fun w => forallb (fun c => negb (isWhiteSpace c)) w = true) F ->
  forallb (fun c => negb (isWhiteSpace c)) t = true ->
  forall insep acc,
    List.length (pieces insep acc (join (JS " ") F ++ t))
    <= Nat.max 1 (List.length F).
Proof.
  intros HF Ht. induction HF as [|w F Hw HF IH]; intros insep acc.
  - cbn [join app]. rewrite <- (app_nil_r t).
    etransitivity; [now apply pieces_length_word|]. simpl. lia.
  - destruct F as [|w' F].
    + cbn [join]. rewrite <- (app_nil_r (w ++ t)).
      etransitivity; [apply pieces_length_word|].
      * rewrite forallb_app. now rewrite Hw, Ht.
      * simpl. lia.
    + change (join (JS " ") (w :: w' :: F))
        with (w ++ JS " " ++ join (JS " ") (w' :: F)).
      rewrite <- !app_assoc.
      etransitivity; [now apply pieces_length_word|].
      change (JS " " ++ join (JS " ") (w' :: F) ++ t)
        with (32%N :: (join (JS " ") (w' :: F) ++ t)).
      cbn [pieces]. change (isWhiteSpace 32) with true. cbv iota.
      cbn [List.length]. specialize (IH true []).
      cbn [List.length] in IH |- *. lia.
Qed.

Lemma forallb_rev_list (p : N -> bool) (l : jsstring) :
  forallb p (rev l) = forallb p l.
Proof.
  induction l as [|c l IH]; [reflexivity|]. cbn [rev forallb].
  rewrite forallb_app, IH. cbn [forallb]. rewrite andb_true_r. apply andb_comm.
Qed.

Lemma pieces_words (s : jsstring) :
  forall insep acc,
    forallb (fun c => negb (isWhiteSpace c)) acc = true ->
    Forall (fun w => forallb (fun c => negb (isWhiteSpace c)) w = true)
      (pieces insep acc s).
Proof.
  induction s as [|c s IH]; intros insep acc Hacc.
  - cbn [pieces]. constructor; [|constructor]. now rewrite forallb_rev_list.
  - cbn [pieces]. destruct (isWhiteSpace c) eqn:E.
    + destruct insep; [now apply IH|].
      constructor; [now rewrite forallb_rev_list | now apply IH].
    + apply IH. cbn [forallb]. now rewrite E, Hacc.
Qed.

Lemma Forall_firstn_list (P : jsstring -> Prop) (n : nat) (l : list jsstring) :
  Forall P l -> Forall P (firstn n l).
Proof.
  intros H. rewrite <- (firstn_skipn n l) in H. now apply Forall_app in H.
Qed.

Lemma ellipsis_word :
  forallb (fun c => negb (isWhiteSpace c)) (JS "…") = true.
Proof. reflexivity. Qed.

End Words.

Lemma truncateWords_keeps (txt : jsstring) (n : nat) :
  List.length (wordsOf txt) <= n -> truncateWords txt n = txt.
Proof.
  intros H. unfold truncateWords. fold (wordsOf txt).
  apply Nat.leb_le in H. now rewrite H.
Qed.

(** The result of truncateWords has n words at most, and one at least. *)
Lemma truncateWords_words (txt : jsstring) (n : nat) :
  List.length (wordsOf (truncateWords txt n)) <= Nat.max 1 n.
Proof.
  destruct (Nat.leb (List.length (wordsOf txt)) n) eqn:E.
  - apply Nat.leb_le in E. rewrite (truncateWords_keeps txt n E). lia.
  - unfold truncateWords. fold (wordsOf txt). rewrite E.
    rewrite (wordsOf_pieces (_ ++ _)).
    etransitivity; [apply pieces_length_joined|].
    + apply Forall_firstn_list. rewrite wordsOf_pieces. now apply pieces_words.
    + apply ellipsis_word.
    + apply Nat.leb_gt in E. rewrite length_firstn. lia.
Qed.

(** truncateWords keeps a text within its budget of words, counted as the
    function itself counts them (the pieces between runs of white space): a
    text of n words or fewer is returned as it is, and the result never has
    more than n words (one word when n is 0, the ellipsis).  Truncating a
    second time changes nothing. *)
Theorem truncateWords_within_budget (txt : jsstring) (n : nat) :
  (List.length (wordsOf txt) <= n -> truncateWords txt n = txt)
  /\ List.length (wordsOf (truncateWords txt n)) <= Nat.max 1 n
  /\ truncateWords (truncateWords txt n) n = truncateWords txt n.
Proof.
  split; [apply truncateWords_keeps|]. split; [apply truncateWords_words|].
  destruct n as [|n].
  - destruct (Nat.leb (List.length (wordsOf txt)) 0) eqn:E.
    + apply Nat.leb_le in E. now rewrite !(truncateWords_keeps txt 0 E).
    + assert (Ht : truncateWords txt 0 = JS "…").
      { unfold truncateWords. fold (wordsOf txt). now rewrite E. }
      rewrite Ht. reflexivity.
  - apply truncateWords_keeps. pose proof (truncateWords_words txt (S n)). lia.
Qed.

Lemma truncateWords_within_budget_sample :
  truncateWords (JS "Chauffeur SPL") 45 = JS "Chauffeur SPL"
  /\ List.length (wordsOf (truncateWords (JS "Chauffeur SPL") 45)) <= Nat.max 1 45
  /\ truncateWords (truncateWords (JS "Chauffeur SPL") 45) 45
     = truncateWords (JS "Chauffeur SPL") 45.
Proof.
  destruct (truncateWords_within_budget (JS "Chauffeur SPL") 45) as [H1 [H2 H3]].
  split; [|split; assumption]. apply H1. vm_compute. lia.
Defined.

(* ------------------------------------------------------------------ *)
(** ** tags_csv: written with join, read back with split *)

Lemma splitOn_loop_skip (sep p : jsstring) :
  forall acc rest,
    splitOn_loop sep acc (p ++ rest) (List.length p) = splitOn_loop sep acc rest 0.
Proof.
  induction p as [|c p IH]; intros acc rest; [reflexivity|].
  cbn [app List.length splitOn_loop]. apply IH.
Qed.

Lemma startsWith_app (p s : jsstring) : startsWith p (p ++ s) = true.
Proof.
  induction p as [|c p IH]; [reflexivity|].
  cbn [app startsWith]. now rewrite N.eqb_refl, IH.
Qed.

Lemma splitOn_loop_comma_free (sep' w : jsstring) :
  ~ In 44%N w ->
  forall acc rest,
    splitOn_loop (44%N :: sep') acc (w ++ rest) 0
    = splitOn_loop (44%N :: sep') (rev w ++ acc) rest 0.
Proof.
  induction w as [|c w IH]; intros Hw acc rest; [reflexivity|].
  cbn [app splitOn_loop startsWith].
  replace (44 =? c)%N with false
    by (symmetry; apply N.eqb_neq; intros <-; apply Hw; now left).
  cbn [andb]. rewrite IH by (intros H; apply Hw; now right).
  cbn [rev]. now rewrite <- app_assoc.
Qed.

Lemma splitOn_loop_separator (sep' : jsstring) (acc rest : jsstring) :
  splitOn_loop (44%N :: sep') acc ((44%N :: sep') ++ rest) 0
  = rev acc :: splitOn_loop (44%N :: sep') [] rest 0.
Proof.
  cbn [app splitOn_loop].
  change (startsWith (44%N :: sep') (44%N :: sep' ++ rest))
    with (startsWith (44%N :: sep') ((44%N :: sep') ++ rest)).
  rewrite startsWith_app. f_equal.
  replace (List.length (44%N :: sep') - 1) with (List.length sep')
    by (cbn [List.length]; lia).
  apply splitOn_loop_skip.
Qed.

(** Splitting a joined list of comma-free texts gives the list back. *)
Lemma splitOn_join (sep' : jsstring) (l : list jsstring) :
  Forall (fun w => ~ In 44%N w) l ->
  forall acc w, ~ In 44%N w ->
    splitOn_loop (44%N :: sep') acc (join (44%N :: sep') (w :: l)) 0
    = (rev acc ++ w) :: l.
Proof.
  induction 1 as [|w' l Hw' Hl IH]; intros acc w Hw.
  - cbn [join]. rewrite <- (app_nil_r w) at 1.
    rewrite (splitOn_loop_comma_free _ _ Hw). cbn [splitOn_loop].
    now rewrite rev_app_distr, rev_involutive.
  - change (join (44%N :: sep') (w :: w' :: l))
      with (w ++ (44%N :: sep') ++ join (44%N :: sep') (w' :: l)).
    rewrite (splitOn_loop_comma_free _ _ Hw), splitOn_loop_separator.
    rewrite rev_app_distr, rev_involutive. f_equal.
    now rewrite (IH [] w' Hw').
Qed.

Lemma join_cons_head (sep x : jsstring) (c : N) (r : list jsstring) :
  join sep ((c :: x) :: r) = c :: join sep (x :: r).
Proof. destruct r; reflexivity. Qed.

Lemma join_space_after_comma (l : list jsstring) (w : jsstring) :
  join (JS ", ") (w :: l) = join (JS ",") (w :: map (cons 32%N) l).
Proof.
  revert w. induction l as [|w' l IH]; intros w; [reflexivity|].
  change (join (JS ", ") (w :: w' :: l))
    with (w ++ JS ", " ++ join (JS ", ") (w' :: l)).
  rewrite (IH w'). cbn [map].
  change (join (JS ",") (w :: (32%N :: w') :: map (cons 32%N) l))
    with (w ++ JS "," ++ join (JS ",") ((32%N :: w') :: map (cons 32%N) l)).
  rewrite join_cons_head. reflexivity.
Qed.

Lemma filter_nonempty_all (l : list jsstring) :
  Forall (fun w => w <> []) l -> filter nonempty l = l.
Proof.
  induction 1 as [|w l Hw Hl IH]; [reflexivity|].
  cbn [filter]. apply nonempty_true in Hw. now rewrite Hw, IH.
Qed.

(** The tags of a posting survive the column tags_csv.  A list of tags
    that are not empty, hold no comma and are trimmed (as the tags of the
    vocabulary of extractTags are after normalisation) is read back
    unchanged from its join with a comma and a space, by insertBatch, which
    splits at that separator, as well as by the posting page, which splits
    at the comma and trims. *)
Theorem tags_csv_round_trip (tags : list jsstring) :
  Forall csvSafe tags ->
  batchTags (join (JS ", ") tags) = tags
  /\ pageTags (join (JS ", ") tags) = tags.
Proof.
  intros H. unfold batchTags, pageTags.
  destruct tags as [|w l]; [split; reflexivity|].
  inversion H as [|? ? [Hne [Hc Ht]] Hl]; subst.
  assert (Hcl : Forall (fun w => ~ In 44%N w) l).
  { apply Forall_forall. intros x Hx.
    apply (proj1 (Forall_forall _ _) Hl x Hx). }
  assert (Hnl : Forall (fun w => w <> []) (w :: l)).
  { apply Forall_forall. intros x Hx.
    apply (proj1 (Forall_forall _ _) H x Hx). }
  split.
  - unfold splitOn. change (JS ", ") with (44%N :: [32%N]).
    rewrite (splitOn_join _ _ Hcl [] w Hc). cbn [rev app].
    now apply filter_nonempty_all.
  - rewrite join_space_after_comma. unfold splitOn.
    change (JS ",") with (44%N :: []).
    rewrite (splitOn_join [] (map (cons 32%N) l)).
    + cbn [rev app map]. rewrite Ht, map_map.
      replace (map (fun x => trim (32%N :: x)) l) with l.
      * now apply filter_nonempty_all.
      * clear -Hl. induction Hl as [|x l [_ [_ Hx]] Hl IH]; [reflexivity|].
        cbn [map]. rewrite <- IH. f_equal.
        unfold trim at 1. cbn [trimStart]. change (isWhiteSpace 32) with true.
        cbv iota. symmetry. exact Hx.
    + apply Forall_forall. intros x Hx. apply in_map_iff in Hx.
      destruct Hx as [y [<- Hy]]. intros [C|C]; [discriminate C|].
      apply (proj1 (Forall_forall _ _) Hcl y Hy C).
    + exact Hc.
Qed.

Lemma tags_csv_round_trip_sample :
  batchTags (join (JS ", ") clean_tags) = clean_tags
  /\ pageTags (join (JS ", ") clean_tags) = clean_tags.
Proof.
  apply (tags_csv_round_trip clean_tags).
  unfold clean_tags, csvSafe. cbn [map].
  repeat (constructor;
          [split; [discriminate | split; [vm_compute; intuition discriminate
                                         | reflexivity]]|]).
  constructor.
Defined.

(* ------------------------------------------------------------------ *)
(** ** extractTags *)

(** The test of [ownKey]. *)
Lemma ownKey_by_test (B : Builtins) (cfg : Config) :
  existsb (JSStr.eqb (toLowerCase B (TARGET_PROFESSION cfg))) inherited_names = false ->
  ownKey B cfg.
Proof.
  intros E H. apply existsb_eqb_In in H. rewrite H in E. discriminate E.
Qed.

Section ExtractTags.
Variable B : Builtins.
Variable cfg : Config.

Lemma uniqNormTags_nonempty (tags : list jsval) (t : jsval) :
  In t tags -> truthy t = true ->
  toLowerCase B (trim (ToString t)) <> [] ->
  1 <= List.length (uniqNormTags B tags).
Proof.
  intros Hin Ht Hne. rewrite uniqNormTags_spec. unfold normalize_spec.
  set (l := first_seen _).
  assert (Hl : In (toLowerCase B (trim (ToString t))) l).
  { apply first_seen_In, filter_In. split; [|now apply nonempty_true].
    apply in_map_iff. exists t. split; [reflexivity|]. now apply filter_In. }
  destruct l as [|x l]; [contradiction|]. simpl. lia.
Qed.

(** extractTags never comes back empty-handed and never invents a tag.  When
    the profession names no inherited property and has a lower-case form
    that is not blank (lower-casing deleting nothing), the result holds
    between one and eight tags, no tag twice, and every tag is the trimmed
    lower-case form of an entry of the vocabulary: the table of the
    profession, the five contract and workplace tags, the profession
    itself. *)
Theorem extractTags_from_vocabulary (title company html : jsstring) :
  ownKey B cfg ->
  (forall s, toLowerCase B s = [] -> s = []) ->
  trim (toLowerCase B (TARGET_PROFESSION cfg)) <> [] ->
  1 <= List.length (extractTags B cfg title company html) <= 8
  /\ NoDup (extractTags B cfg title company html)
  /\ Forall (fun x => exists t, In t (tagVocabulary B cfg)
                                /\ x = toLowerCase B (trim t))
       (extractTags B cfg title company html).
Proof.
  intros _ Hlower Hprof. unfold extractTags. cbv zeta.
  set (text := toLowerCase B _).
  set (profTags := match lookup_tags _ PROFESSION_TAGS with
                   | Some l => l
                   | None => _
                   end).
  set (prof := toLowerCase B (TARGET_PROFESSION cfg)).
  match goal with
  | |- context [uniqNormTags B (map JStr ?f)] => set (found := f)
  end.
  assert (Hlast : In prof found).
  { unfold found. apply in_or_app. right. now left. }
  assert (Hvoc : incl found (tagVocabulary B cfg)).
  { unfold found, tagVocabulary. fold prof. fold profTags.
    intros x Hx. apply in_app_or in Hx. destruct Hx as [Hx|Hx].
    - repeat match type of Hx with
             | In _ (if ?c then _ else _) => destruct c
             | In _ (_ ++ [_]) =>
               apply in_app_or in Hx; destruct Hx as [Hx|[<-|[]]];
                 [|apply in_or_app; right; apply in_or_app; left; cbn [map In];
                   tauto]
             end;
        apply filter_In in Hx; apply in_or_app; left; tauto.
    - apply in_or_app. right. apply in_or_app. now right. }
  split; [split|split].
  - apply (uniqNormTags_nonempty _ (JStr prof)).
    + apply in_map_iff. now exists prof.
    + cbn [truthy]. apply nonempty_true. intros E. apply Hprof. fold prof.
      now rewrite E.
    + cbn [ToString]. intros E. apply Hprof. fold prof. now apply Hlower.
  - apply firstn_le_length.
  - rewrite uniqNormTags_spec. apply NoDup_firstn_list, first_seen_NoDup.
  - apply Forall_forall. intros x Hx. apply uniqNormTags_entry in Hx.
    destruct Hx as [_ [t [Ht [_ ->]]]]. apply in_map_iff in Ht.
    destruct Ht as [f [<- Hf]]. exists f. split; [now apply Hvoc | reflexivity].
Qed.

End ExtractTags.

Lemma extractTags_from_vocabulary_sample :
  1 <= List.length (extractTags Sample.builtins Sample.config
                      (JS "Chauffeur SPL") (JS "ACME") (JS "CDI, travail de nuit"))
    <= 8
  /\ NoDup (extractTags Sample.builtins Sample.config
              (JS "Chauffeur SPL") (JS "ACME") (JS "CDI, travail de nuit"))
  /\ Forall (fun x => exists t, In t (tagVocabulary Sample.builtins Sample.config)
                                /\ x = toLowerCase Sample.builtins (trim t))
       (extractTags Sample.builtins Sample.config
          (JS "Chauffeur SPL") (JS "ACME") (JS "CDI, travail de nuit")).
Proof.
  apply (extractTags_from_vocabulary Sample.builtins Sample.config).
  - apply ownKey_by_test; vm_compute; reflexivity.
  - intros s H. destruct s; [reflexivity | discriminate H].
  - vm_compute. discriminate.
Defined.

(* ------------------------------------------------------------------ *)
(** ** The run: what the 'end' handler writes *)

Section EndHandler.
Variable B : Builtins.
Variable cfg : Config.
Variable ai : ai_backend.

Lemma insertBatch_app (a b : list DB.job_params) (d : DB.t) :
  insertBatch B (a ++ b) d = insertBatch B b (insertBatch B a d).
Proof. unfold insertBatch. apply fold_left_app. Qed.

(** One turn of the loop writes one row, sooner or later. *)
Lemma enrich_one_settled (st : enrich_state) (i : nat) (raw : raw_job) :
  exists p, row_for B raw p
            /\ settled B (enrich_one B cfg ai st i raw)
               = insertBatch B [p] (settled B st).
Proof.
  unfold enrich_one. cbv zeta.
  match goal with
  | |- context [processedBatch st ++ [?row]] => exists row
  end.
  split.
  { repeat split; cbn [DB.p_description_short DB.p_description_html DB.p_tags_csv].
    - eexists. reflexivity.
    - unfold rewriteJobRich.
      destruct (negb (HAS_OPENAI cfg) || negb _);
        [cbn [html fallback]; eexists; reflexivity|].
      destruct (ai i _ _); cbn [html fallback parseCompletion]; eexists; reflexivity.
    - unfold rewriteJobRich.
      destruct (negb (HAS_OPENAI cfg) || negb _);
        [cbn [tags fallback]; unfold extractTags; eexists; reflexivity|].
      destruct (ai i _ _); cbn [tags fallback parseCompletion];
        [unfold extractTags|]; eexists; reflexivity. }
  unfold settled. cbn [processedBatch e_db].
  match goal with |- context [if ?c then _ else _] => destruct c end.
  - now rewrite insertBatch_app.
  - now rewrite insertBatch_app.
Qed.

Lemma enrich_loop_settled (l : list raw_job) :
  forall st i,
    exists rows, Forall2 (row_for B) l rows
                 /\ settled B (enrich_loop B cfg ai st i l)
                    = insertBatch B rows (settled B st).
Proof.
  induction l as [|raw l IH]; intros st i.
  - exists []. split; [constructor | reflexivity].
  - cbn [enrich_loop].
    destruct (enrich_one_settled st i raw) as [p [Hp E1]].
    destruct (IH (enrich_one B cfg ai st i raw) (S i)) as [rows [Hrows E2]].
    exists (p :: rows). split; [now constructor|].
    rewrite E2, E1. reflexivity.
Qed.

(** The 'end' handler writes the rows of the batch in order: the chunks of
    [batchSize] rows it writes them in do not show in the result. *)
Lemma on_end_db (r : run) :
  exists rows, Forall2 (row_for B) (batch r) rows
               /\ run_db (on_end B cfg ai r) = insertBatch B rows (run_db r).
Proof.
  unfold on_end. cbn [run_db settle].
  destruct (batch r) as [|raw l] eqn:Eb.
  - exists []. split; [constructor | reflexivity].
  - set (st0 := {| e_aiEnhanced := aiEnhanced r; e_fallbackUsed := fallbackUsed r;
                   processedBatch := []; e_db := run_db r;
                   e_console := run_console r |}).
    destruct (enrich_loop_settled (raw :: l) st0 0) as [rows [Hrows E]].
    exists rows. split; [exact Hrows|].
    change (settled B st0) with (run_db r) in E. rewrite <- E.
    unfold settled. destruct (processedBatch _) eqn:Ep; reflexivity.
Qed.

End EndHandler.

(* ------------------------------------------------------------------ *)
(** ** The table [jobs] under insertBatch *)

Section JobsUnderInsert.
Variable B : Builtins.

Lemma stmtInsertJob_jobs (p : DB.job_params) (d : DB.t) :
  DB.jobs (DB.stmtInsertJob p d) = DB.jobs d
  \/ exists row, DB.jobs (DB.stmtInsertJob p d) = DB.jobs d ++ [row]
                 /\ stored_as p row.
Proof.
  unfold DB.stmtInsertJob. destruct (existsb _ (DB.jobs d)); [now left|].
  right. eexists. split; [reflexivity|]. now repeat split.
Qed.

(** After INSERT OR IGNORE a row holds the guid or the slug of the
    parameters: the new row, or the one that made the insert a no-op. *)
Lemma stmtInsertJob_settles (p : DB.job_params) (d : DB.t) :
  exists row, In row (DB.jobs (DB.stmtInsertJob p d))
              /\ (DB.guid row = DB.p_guid p \/ DB.slug row = DB.p_slug p).
Proof.
  unfold DB.stmtInsertJob. destruct (existsb _ (DB.jobs d)) eqn:E.
  - apply existsb_exists in E. destruct E as [row [Hrow E]].
    exists row. split; [assumption|].
    apply orb_true_iff in E. destruct E as [E|E]; apply jsstr_eqb_eq in E; tauto.
  - eexists. split; [apply in_or_app; right; now left|]. now left.
Qed.

Lemma insertBatch_cons (p : DB.job_params) (ps : list DB.job_params) (d : DB.t) :
  insertBatch B (p :: ps) d = insertBatch B ps (insertOne B p d).
Proof. reflexivity. Qed.

Lemma insertOne_jobs (p : DB.job_params) (d : DB.t) :
  DB.jobs (insertOne B p d) = DB.jobs (DB.stmtInsertJob p d).
Proof.
  unfold insertOne. cbv zeta. destruct (DB.stmtHasGuid _ _); [|reflexivity].
  apply upsertTagsForJob_jobs.
Qed.

(** insertBatch appends rows, at most one for each set of parameters, and
    touches no row that is there. *)
Lemma insertBatch_appends (ps : list DB.job_params) :
  forall d, exists new,
    DB.jobs (insertBatch B ps d) = DB.jobs d ++ new
    /\ List.length new <= List.length ps
    /\ Forall (fun row => exists p, In p ps /\ stored_as p row) new.
Proof.
  induction ps as [|p ps IH]; intros d.
  - exists []. rewrite app_nil_r. repeat split; constructor.
  - rewrite insertBatch_cons. destruct (IH (insertOne B p d)) as [new [E [Hl Hn]]].
    rewrite insertOne_jobs in E.
    assert (Hn' : Forall (fun row => exists q, In q (p :: ps) /\ stored_as q row) new).
    { apply Forall_forall. intros row Hrow.
      destruct (proj1 (Forall_forall _ _) Hn row Hrow) as [q [Hq Hs]].
      exists q. split; [now right | assumption]. }
    destruct (stmtInsertJob_jobs p d) as [E1|[row [E1 Hrow]]]; rewrite E1 in E.
    + exists new. repeat split; [assumption | simpl; lia | assumption].
    + exists (row :: new). rewrite E, <- app_assoc. repeat split.
      * simpl. lia.
      * constructor; [|assumption]. exists p. split; [now left | assumption].
Qed.

Lemma insertBatch_settles (ps : list DB.job_params) :
  forall d p, In p ps ->
    exists row, In row (DB.jobs (insertBatch B ps d))
                /\ (DB.guid row = DB.p_guid p \/ DB.slug row = DB.p_slug p).
Proof.
  induction ps as [|q ps IH]; intros d p Hp; [contradiction|].
  rewrite insertBatch_cons. destruct Hp as [->|Hp]; [|now apply IH].
  destruct (stmtInsertJob_settles p d) as [row [Hrow Hkey]].
  exists row. split; [|assumption].
  destruct (insertBatch_appends ps (insertOne B p d)) as [new [E _]].
  rewrite E, insertOne_jobs. apply in_or_app. now left.
Qed.

(** Parameters whose guid is not stored while their slug is are ignored
    altogether. *)
Lemma insertBatch_ignored (ps : list DB.job_params) (d : DB.t) :
  Forall (fun p => DB.stmtHasGuid (DB.p_guid p) d = None
                   /\ exists row, In row (DB.jobs d) /\ DB.slug row = DB.p_slug p) ps ->
  insertBatch B ps d = d.
Proof.
  induction 1 as [|p ps [Hg [row [Hrow Hs]]] _ IH]; [reflexivity|].
  rewrite insertBatch_cons.
  assert (E : DB.stmtInsertJob p d = d).
  { unfold DB.stmtInsertJob.
    rewrite (proj2 (existsb_exists _ (DB.jobs d))); [reflexivity|].
    exists row. split; [assumption|]. rewrite Hs, jsstr_eqb_refl. apply orb_true_r. }
  unfold insertOne. cbv zeta. rewrite E, Hg. exact IH.
Qed.

End JobsUnderInsert.

(* ------------------------------------------------------------------ *)
(** ** The run: one content event at a time *)

Section ContentEvents.
Variable B : Builtins.
Variable cfg : Config.
Variable ai : ai_backend.

(** A content event closes a record, or moves the parser on. *)
Lemma on_content_event (r : run) (e : sax_event) :
  isContent e ->
  on_event B cfg ai r e
  = match closes B (currentItem r) (currentText r) e with
    | Some it => close_record B cfg it r
    | None =>
      let '(ci, tag, text) :=
        parse_step B (currentItem r) (currentTag r) (currentText r) e in
      set_parse r ci tag text
    end.
Proof.
  destruct r as [m p s a f b ci tag text pr d c].
  destruct e; cbn [isContent]; try contradiction; intros _;
    cbn [on_event closes parse_step currentItem currentTag currentText].
  - unfold on_opentag. cbn [currentItem]. now destruct (isRecordTag _).
  - reflexivity.
  - reflexivity.
  - unfold on_closetag. cbn [currentItem currentTag currentText].
    destruct ci as [it|]; [|reflexivity].
    now destruct (isRecordTag _).
Qed.

(** What closing a record does to the counters and the batch. *)
Lemma close_record_cases (it : item) (r : run) :
  let raw := {| rawTitle := i_title it; rawCompany := i_company it;
                rawDescription := i_description it;
                r_guid := identityOf it (S (processed r));
                r_source := url_hostname B (FEED_URL cfg); r_url := i_link it;
                r_published_at := unixtime B (i_pubDate it) |} in
  let r' := close_record B cfg it r in
  processed r' = S (processed r)
  /\ currentItem r' = None /\ currentTag r' = currentTag r
  /\ currentText r' = currentText r
  /\ aiEnhanced r' = aiEnhanced r /\ fallbackUsed r' = fallbackUsed r
  /\ (if unknown (run_db r) raw
         && matchesProfession B cfg (i_title it) (i_company it) (i_description it)
      then matched r' = S (matched r) /\ skipped r' = skipped r
           /\ batch r' = batch r ++ [raw]
      else matched r' = matched r /\ skipped r' = S (skipped r)
           /\ batch r' = batch r).
Proof.
  cbv zeta. unfold close_record, unknown. cbv zeta. cbn [r_guid].
  destruct (DB.stmtHasGuid _ (run_db r)); cbn [andb]; [now repeat split|].
  destruct (matchesProfession B cfg _ _ _); cbn [negb]; now repeat split.
Qed.

Lemma content_counters (events : list sax_event) :
  forall r, Forall isContent events ->
    processed r = matched r + skipped r -> matched r = List.length (batch r) ->
    let r' := fold_left (on_event B cfg ai) events r in
    processed r' = matched r' + skipped r'
    /\ matched r' = List.length (batch r')
    /\ aiEnhanced r' = aiEnhanced r /\ fallbackUsed r' = fallbackUsed r.
Proof.
  induction events as [|e events IH]; intros r H Hp Hm; [now repeat split|].
  inversion H as [|? ? He Hes]; subst. cbn [fold_left]. cbv zeta.
  assert (Hstep : processed (on_event B cfg ai r e)
                  = matched (on_event B cfg ai r e) + skipped (on_event B cfg ai r e)
                  /\ matched (on_event B cfg ai r e)
                     = List.length (batch (on_event B cfg ai r e))
                  /\ aiEnhanced (on_event B cfg ai r e) = aiEnhanced r
                  /\ fallbackUsed (on_event B cfg ai r e) = fallbackUsed r).
  { rewrite (on_content_event r e He).
    destruct (closes B _ _ e) as [it|].
    - pose proof (close_record_cases it r) as C. cbv zeta in C.
      destruct C as (C1 & _ & _ & _ & C5 & C6 & C7).
      destruct (unknown _ _ && _); destruct C7 as (C7 & C8 & C9);
        rewrite C1, C5, C6, C7, C8, C9; repeat split; try lia.
      rewrite length_app. simpl. lia.
    - destruct (parse_step B _ _ _ e) as [[ci tag] text]. now repeat split. }
  destruct Hstep as (S1 & S2 & S3 & S4).
  destruct (IH _ Hes S1 S2) as (I1 & I2 & I3 & I4). cbv zeta in *.
  repeat split; congruence.
Qed.

(** One turn of the enrichment loop counts the record once, as enhanced
    only when the backend was asked. *)
Lemma enrich_one_counters (st : enrich_state) (i : nat) (raw : raw_job) :
  let st' := enrich_one B cfg ai st i raw in
  e_aiEnhanced st' + e_fallbackUsed st' = S (e_aiEnhanced st + e_fallbackUsed st)
  /\ e_aiEnhanced st <= e_aiEnhanced st'
  /\ (e_aiEnhanced st < e_aiEnhanced st' ->
      HAS_OPENAI cfg = true
      /\ (AI_PROCESS_LIMIT cfg = 0 \/ e_aiEnhanced st' <= AI_PROCESS_LIMIT cfg))
  /\ (HAS_OPENAI cfg = false -> e_console st' = e_console st).
Proof.
  cbv zeta. unfold enrich_one. cbv zeta. cbn [e_aiEnhanced e_fallbackUsed e_console].
  unfold rewriteJobRich, rewriteJobRich_error.
  destruct (HAS_OPENAI cfg); cbn [negb orb].
  - destruct (Nat.eqb (AI_PROCESS_LIMIT cfg) 0) eqn:E0; cbn [orb negb].
    + apply Nat.eqb_eq in E0.
      destruct (ai i _ _); cbn [usedAI fallback parseCompletion];
        repeat split; try lia; try discriminate; now left.
    + destruct (Nat.ltb (e_aiEnhanced st) (AI_PROCESS_LIMIT cfg)) eqn:El;
        cbn [negb].
      * apply Nat.ltb_lt in El.
        destruct (ai i _ _); cbn [usedAI fallback parseCompletion];
          repeat split; try lia; try discriminate; right; lia.
      * cbn [usedAI fallback]. repeat split; try lia; discriminate.
  - cbn [usedAI fallback]. repeat split; try lia.
Qed.

Lemma enrich_loop_counters (l : list raw_job) :
  forall st i,
    let st' := enrich_loop B cfg ai st i l in
    e_aiEnhanced st' + e_fallbackUsed st'
    = e_aiEnhanced st + e_fallbackUsed st + List.length l
    /\ (AI_PROCESS_LIMIT cfg <> 0 ->
        e_aiEnhanced st' <= Nat.max (e_aiEnhanced st) (AI_PROCESS_LIMIT cfg))
    /\ (HAS_OPENAI cfg = false ->
        e_aiEnhanced st' = e_aiEnhanced st /\ e_console st' = e_console st).
Proof.
  induction l as [|raw l IH]; intros st i; cbv zeta.
  - cbn [enrich_loop List.length]. repeat split; lia.
  - cbn [enrich_loop List.length].
    destruct (enrich_one_counters st i raw) as (E1 & E2 & E3 & E4).
    destruct (IH (enrich_one B cfg ai st i raw) (S i)) as (I1 & I2 & I3).
    cbv zeta in *. refine (conj _ (conj _ _)).
    + lia.
    + intros Hl. specialize (I2 Hl).
      destruct (Nat.eq_dec (e_aiEnhanced (enrich_one B cfg ai st i raw))
                  (e_aiEnhanced st)) as [Eq|Ne].
      * rewrite Eq in I2. exact I2.
      * destruct E3 as [_ [E3|E3]]; lia.
    + intros Hno. destruct (I3 Hno) as [J1 J2]. split.
      * destruct (Nat.eq_dec (e_aiEnhanced (enrich_one B cfg ai st i raw))
                    (e_aiEnhanced st)) as [Eq|Ne]; [congruence|].
        destruct E3 as [E3 _]; [lia | congruence].
      * rewrite J2. now apply E4.
Qed.

Lemma on_end_counters (r : run) :
  let r' := on_end B cfg ai r in
  processed r' = processed r /\ matched r' = matched r /\ skipped r' = skipped r
  /\ batch r' = batch r
  /\ aiEnhanced r' + fallbackUsed r'
     = aiEnhanced r + fallbackUsed r + List.length (batch r)
  /\ (AI_PROCESS_LIMIT cfg <> 0 ->
      aiEnhanced r' <= Nat.max (aiEnhanced r) (AI_PROCESS_LIMIT cfg))
  /\ (HAS_OPENAI cfg = false ->
      aiEnhanced r' = aiEnhanced r /\ run_console r' = run_console r)
  /\ promise r' = match promise r with PromisePending => PromiseResolved | s => s end.
Proof.
  cbv zeta. unfold on_end.
  cbn [settle processed matched skipped batch aiEnhanced fallbackUsed run_console
       promise].
  destruct (batch r) as [|raw l] eqn:Eb.
  - cbn [e_aiEnhanced e_fallbackUsed e_console List.length].
    repeat split; try lia.
  - set (st0 := {| e_aiEnhanced := aiEnhanced r; e_fallbackUsed := fallbackUsed r;
                   processedBatch := []; e_db := run_db r;
                   e_console := run_console r |}).
    destruct (enrich_loop_counters (raw :: l) st0 0) as (I1 & I2 & I3).
    cbv zeta in *. cbn [e_aiEnhanced e_fallbackUsed e_console] in I1, I2, I3.
    destruct (processedBatch (enrich_loop B cfg ai st0 0 (raw :: l)));
      cbn [e_aiEnhanced e_fallbackUsed e_console]; repeat split;
      try assumption; try (now apply I3).
Qed.

End ContentEvents.

(** The counters of a run add up.  When the feed is read to its end, every
    record closed was counted as retained or as skipped, never both; the
    batch holds the retained ones; each of them was counted once by the
    enrichment loop, as AI-enhanced or as served by the fallback.  These
    are the five numbers of the summary processFeed logs.  (The
    profession names no inherited property, see [ownKey].) *)
Theorem run_counters_add_up (B : Builtins) (cfg : Config) (ai : ai_backend)
    (content : list sax_event) (w : world) :
  ownKey B cfg ->
  Forall isContent content ->
  let r := run_over B cfg ai content w in
  promise r = PromiseResolved
  /\ processed r = matched r + skipped r
  /\ matched r = List.length (batch r)
  /\ aiEnhanced r + fallbackUsed r = matched r.
Proof.
  intros _ Hc. cbv zeta. unfold run_over. rewrite fold_left_app. cbn [fold_left on_event].
  set (rc := fold_left (on_event B cfg ai) content (start_run w)).
  destruct (content_counters B cfg ai content (start_run w) Hc eq_refl eq_refl)
    as (C1 & C2 & C3 & C4).
  destruct (content_frame B cfg ai content (start_run w) Hc) as (F1 & _ & _).
  fold rc in C1, C2, C3, C4, F1. cbv zeta in *.
  destruct (on_end_counters B cfg ai rc) as (E1 & E2 & E3 & E4 & E5 & _ & _ & E8).
  cbv zeta in *. rewrite E1, E2, E3, E4, E8, F1.
  cbn [start_run promise aiEnhanced fallbackUsed] in *.
  repeat split; try assumption. lia.
Qed.

Lemma run_counters_add_up_sample :
  let r := run_over Sample.builtins Sample.config no_backend one_record Sample.idle in
  promise r = PromiseResolved
  /\ processed r = matched r + skipped r
  /\ matched r = List.length (batch r)
  /\ aiEnhanced r + fallbackUsed r = matched r.
Proof.
  apply (run_counters_add_up Sample.builtins Sample.config no_backend one_record
           Sample.idle).
  - apply ownKey_by_test; vm_compute; reflexivity.
  - unfold one_record. simpl. repeat constructor.
Defined.

(** The AI budget holds.  With a limit set (AI_PROCESS_LIMIT is not 0), a
    run over a whole feed counts at most that many postings as
    AI-enhanced; without an API key none is, and console.error is not
    called.  (The profession names no inherited property, see
    [ownKey].) *)
Theorem ai_budget_respected (B : Builtins) (cfg : Config) (ai : ai_backend)
    (content : list sax_event) (w : world) :
  ownKey B cfg ->
  Forall isContent content ->
  let r := run_over B cfg ai content w in
  (AI_PROCESS_LIMIT cfg <> 0 -> aiEnhanced r <= AI_PROCESS_LIMIT cfg)
  /\ (HAS_OPENAI cfg = false -> aiEnhanced r = 0 /\ run_console r = console w).
Proof.
  intros _ Hc. cbv zeta. unfold run_over. rewrite fold_left_app. cbn [fold_left on_event].
  set (rc := fold_left (on_event B cfg ai) content (start_run w)).
  destruct (content_counters B cfg ai content (start_run w) Hc eq_refl eq_refl)
    as (_ & _ & C3 & _).
  destruct (content_frame B cfg ai content (start_run w) Hc) as (_ & _ & F3).
  fold rc in C3, F3. cbv zeta in *.
  destruct (on_end_counters B cfg ai rc) as (_ & _ & _ & _ & _ & E6 & E7 & _).
  cbv zeta in *. cbn [start_run aiEnhanced run_console] in *. split.
  - intros Hl. specialize (E6 Hl). rewrite C3 in E6. lia.
  - intros Hno. destruct (E7 Hno) as [J1 J2]. split; congruence.
Qed.

Lemma ai_budget_respected_sample :
  let r := run_over Sample.builtins
             {| FEED_URL := FEED_URL Sample.config; MAX_JOBS := 2; HAS_OPENAI := true;
                TARGET_PROFESSION := TARGET_PROFESSION Sample.config;
                TARGET_LANG := TARGET_LANG Sample.config; AI_PROCESS_LIMIT := 1;
                PROFESSION_KEYWORDS := PROFESSION_KEYWORDS Sample.config |}
             (fun _ _ _ => AIResponds (Some (JS "garbage")))
             (one_record ++ one_record) Sample.idle in
  aiEnhanced r <= 1.
Proof.
  apply (proj1 (ai_budget_respected Sample.builtins
                  {| FEED_URL := FEED_URL Sample.config; MAX_JOBS := 2;
                     HAS_OPENAI := true;
                     TARGET_PROFESSION := TARGET_PROFESSION Sample.config;
                     TARGET_LANG := TARGET_LANG Sample.config; AI_PROCESS_LIMIT := 1;
                     PROFESSION_KEYWORDS := PROFESSION_KEYWORDS Sample.config |}
                  (fun _ _ _ => AIResponds (Some (JS "garbage")))
                  (one_record ++ one_record) Sample.idle
                  ltac:(apply ownKey_by_test; vm_compute; reflexivity)
                  ltac:(unfold one_record; simpl; repeat constructor))).
  discriminate.
Defined.

(* ------------------------------------------------------------------ *)
(** ** The run: where the rows of the store come from *)

Lemma Forall2_In_r {A C : Type} (R : A -> C -> Prop) (l : list A) (l' : list C)
    (y : C) :
  Forall2 R l l' -> In y l' -> exists x, In x l /\ R x y.
Proof.
  induction 1 as [|a b l l' Hab _ IH]; intros Hy; [contradiction|].
  destruct Hy as [<-|Hy].
  - exists a. split; [now left | assumption].
  - destruct (IH Hy) as [x [Hx Hr]]. exists x. split; [now right | assumption].
Qed.

Lemma Forall2_In_l {A C : Type} (R : A -> C -> Prop) (l : list A) (l' : list C)
    (x : A) :
  Forall2 R l l' -> In x l -> exists y, In y l' /\ R x y.
Proof.
  induction 1 as [|a b l l' Hab _ IH]; intros Hx; [contradiction|].
  destruct Hx as [<-|Hx].
  - exists b. split; [now left | assumption].
  - destruct (IH Hx) as [y [Hy Hr]]. exists y. split; [now right | assumption].
Qed.

Section Provenance.
Variable B : Builtins.
Variable cfg : Config.
Variable ai : ai_backend.

Lemma on_event_batch_relevant (r : run) (e : sax_event) :
  Forall (relevant B cfg) (batch r) ->
  Forall (relevant B cfg) (batch (on_event B cfg ai r e)).
Proof.
  intros H. destruct (sax_event_eq_end e) as [->|Hne].
  - cbn [on_event].
    now rewrite (proj1 (proj2 (proj2 (proj2 (on_end_counters B cfg ai r))))).
  - destruct e; try contradiction; cbn [on_event]; try exact H.
    + unfold on_opentag. now destruct (isRecordTag _).
    + unfold on_closetag. destruct (currentItem r) as [it|]; [|exact H].
      destruct (isRecordTag _); [|exact H].
      pose proof (close_record_cases B cfg (assign_field (toLowerCase B name)
                                              (currentText r) it) r) as C.
      cbv zeta in C. destruct C as (_ & _ & _ & _ & _ & _ & C).
      destruct (unknown _ _) eqn:Eu; cbn [andb] in C.
      * destruct (matchesProfession B cfg _ _ _) eqn:Em;
          destruct C as (_ & _ & ->); [|exact H].
        apply Forall_app. split; [exact H|]. constructor; [|constructor].
        split; [exact Em | reflexivity].
      * destruct C as (_ & _ & ->). exact H.
Qed.

Lemma on_event_written (d0 : DB.t) (r : run) (e : sax_event) :
  Forall (relevant B cfg) (batch r) ->
  (forall row, In row (DB.jobs (run_db r)) ->
               In row (DB.jobs d0) \/ written B cfg row) ->
  forall row, In row (DB.jobs (run_db (on_event B cfg ai r e))) ->
              In row (DB.jobs d0) \/ written B cfg row.
Proof.
  intros Hb Hd row. destruct (sax_event_eq_end e) as [->|Hne];
    [|rewrite (on_event_db B cfg ai r e Hne); apply Hd].
  cbn [on_event]. destruct (on_end_db B cfg ai r) as [rows [Hrows ->]].
  destruct (insertBatch_appends B rows (run_db r)) as [new [-> [_ Hnew]]].
  intros Hrow. apply in_app_or in Hrow. destruct Hrow as [Hrow|Hrow]; [now apply Hd|].
  right. destruct (proj1 (Forall_forall _ _) Hnew row Hrow) as [p [Hp Hs]].
  destruct (Forall2_In_r _ _ _ p Hrows Hp) as [raw [Hraw Hfor]].
  exists raw, p. split; [|now split].
  apply (proj1 (Forall_forall _ _) Hb raw Hraw).
Qed.

Lemma events_written (d0 : DB.t) (events : list sax_event) :
  forall r,
    Forall (relevant B cfg) (batch r) ->
    (forall row, In row (DB.jobs (run_db r)) ->
                 In row (DB.jobs d0) \/ written B cfg row) ->
    forall row, In row (DB.jobs (run_db (fold_left (on_event B cfg ai) events r))) ->
                In row (DB.jobs d0) \/ written B cfg row.
Proof.
  induction events as [|e events IH]; intros r Hb Hd; [exact Hd|].
  cbn [fold_left]. apply IH.
  - now apply on_event_batch_relevant.
  - now apply on_event_written.
Qed.

Lemma prune_jobs_incl (d : DB.t) (row : DB.job) :
  In row (DB.jobs (prune B cfg d)) -> In row (DB.jobs d).
Proof.
  unfold prune. destruct (DB.getCachedCount (now_seconds B) 0 d) as [total d1] eqn:E.
  assert (H1 : DB.jobs d1 = DB.jobs d).
  { unfold DB.getCachedCount in E. destruct (DB.stmtGetCache _ d);
      injection E as _ <-; reflexivity. }
  destruct (Z.of_nat (MAX_JOBS cfg) <? total)%Z; [|now rewrite H1].
  cbn [DB.stmtSetCache DB.with_cache DB.jobs DB.stmtDeleteOld DB.with_jobs].
  intros H. apply filter_In in H. rewrite <- H1. tauto.
Qed.

End Provenance.



(** What a run writes is within the limits of the enrichment.  Every row
    of the table after a call of processFeed that was not there before has
    a short description of 60 words at most, an HTML description that went
    through sanitizeHtml, and in tags_csv the join of at most 8 tags, no
    tag twice and none empty.  (The profession names no inherited
    property, see [ownKey].) *)
Theorem processFeed_writes_within_limits (B : Builtins) (cfg : Config)
    (ai : ai_backend) (fetched : fetch_result) (w : world) (row : DB.job) :
  ownKey B cfg ->
  In row (DB.jobs (db (snd (processFeed B cfg ai fetched w)))) ->
  In row (DB.jobs (db w))
  \/ (List.length (wordsOf (DB.description_short row)) <= 60
      /\ (exists html, DB.description_html row = sanitizeHtml html)
      /\ exists tags,
           DB.tags_csv row = join (JS ", ") tags
           /\ List.length tags <= 8 /\ NoDup tags /\ Forall (fun t => t <> []) tags).
Proof.
  intros _.
  assert (Hw : written B cfg row ->
               List.length (wordsOf (DB.description_short row)) <= 60
               /\ (exists html, DB.description_html row = sanitizeHtml html)
               /\ exists tags,
                    DB.tags_csv row = join (JS ", ") tags
                    /\ List.length tags <= 8 /\ NoDup tags
                    /\ Forall (fun t => t <> []) tags).
  { intros (raw & p & _ & (_ & _ & _ & _ & _ & _ & _ & (Hs & Hh & Ht))
            & (_ & _ & _ & _ & S5 & S6 & _ & _ & _ & S10)).
    destruct Hs as [short Hs]. destruct Hh as [html Hh]. destruct Ht as [tags Ht].
    split; [|split].
    - rewrite S6, Hs. apply (truncateWords_words short 60).
    - exists html. congruence.
    - exists (uniqNormTags B tags). split; [congruence|]. split; [|split].
      + apply firstn_le_length.
      + rewrite uniqNormTags_spec. apply NoDup_firstn_list, first_seen_NoDup.
      + apply Forall_forall. intros x Hx. now apply uniqNormTags_entry in Hx. }
  unfold processFeed.
  destruct (FEED_RUNNING w); [now left|].
  destruct (negb (nonempty (FEED_URL cfg))); [now left|].
  unfold run_feed. destruct fetched as [message|events]; [now left|].
  set (w1 := {| FEED_RUNNING := true; db := db w; console := console w |}).
  set (r := fold_left (on_event B cfg ai) events (start_run w1)).
  assert (Hr : forall x, In x (DB.jobs (run_db r)) ->
                         In x (DB.jobs (db w)) \/ written B cfg x).
  { apply events_written; [constructor|]. intros x Hx. now left. }
  destruct (promise r); cbn [snd db]; intros H.
  - destruct (Hr row H) as [H1|H1]; [now left | right; now apply Hw].
  - apply prune_jobs_incl in H.
    destruct (Hr row H) as [H1|H1]; [now left | right; now apply Hw].
  - destruct (Hr row H) as [H1|H1]; [now left | right; now apply Hw].
Qed.

Lemma processFeed_writes_within_limits_sample :
  In first_stored (DB.jobs (db Sample.idle))
  \/ (List.length (wordsOf (DB.description_short first_stored)) <= 60
      /\ (exists html, DB.description_html first_stored = sanitizeHtml html)
      /\ exists tags,
           DB.tags_csv first_stored = join (JS ", ") tags
           /\ List.length tags <= 8 /\ NoDup tags /\ Forall (fun t => t <> []) tags).
Proof.
  apply (processFeed_writes_within_limits Sample.builtins Sample.config no_backend
           (FetchBody (one_record ++ [SaxEnd])) Sample.idle first_stored).
  - apply ownKey_by_test; vm_compute; reflexivity.
  - vm_compute. left. reflexivity.
Defined.

(* ------------------------------------------------------------------ *)
(** ** The run: reading the same feed again *)

Section SameFeedAgain.
Variable B : Builtins.
Variable cfg : Config.

Lemma unknown_stored (d : DB.t) (raw : raw_job) (row : DB.job) :
  unknown d raw = true -> In row (DB.jobs d) -> DB.guid row <> r_guid raw.
Proof.
  unfold unknown. intros H Hrow E.
  destruct (stmtHasGuid_present (r_guid raw) d row Hrow E) as [found Hf].
  now rewrite Hf in H.
Qed.

(** A store that knows more guids retains fewer records of the same
    content, and the same ones otherwise. *)
Lemma content_same_parse (ai1 ai2 : ai_backend) (events : list sax_event) :
  forall r1 r2,
    Forall isContent events ->
    same_parse r1 r2 ->
    (forall raw, unknown (run_db r2) raw = true -> unknown (run_db r1) raw = true) ->
    batch r2 = filter (unknown (run_db r2)) (batch r1) ->
    batch (fold_left (on_event B cfg ai2) events r2)
    = filter (unknown (run_db r2)) (batch (fold_left (on_event B cfg ai1) events r1)).
Proof.
  induction events as [|e events IH]; intros r1 r2 H Hs Hk Hb; [exact Hb|].
  inversion H as [|? ? He Hes]; subst. cbn [fold_left].
  destruct (on_content_frame B cfg ai1 r1 e He) as (_ & D1 & _).
  destruct (on_content_frame B cfg ai2 r2 e He) as (_ & D2 & _).
  rewrite <- D2 at 1.
  assert (Hstep : same_parse (on_event B cfg ai1 r1 e) (on_event B cfg ai2 r2 e)
                  /\ batch (on_event B cfg ai2 r2 e)
                     = filter (unknown (run_db r2)) (batch (on_event B cfg ai1 r1 e))).
  { rewrite (on_content_event B cfg ai1 r1 e He), (on_content_event B cfg ai2 r2 e He).
    destruct Hs as (S1 & S2 & S3 & S4). rewrite <- S1, <- S2, <- S3.
    destruct (closes B (currentItem r1) (currentText r1) e) as [it|].
    - pose proof (close_record_cases B cfg it r1) as C1.
      pose proof (close_record_cases B cfg it r2) as C2.
      cbv zeta in C1, C2. rewrite <- S4 in C2.
      destruct C1 as (A1 & A2 & A3 & A4 & _ & _ & A7).
      destruct C2 as (G1 & G2 & G3 & G4 & _ & _ & G7).
      split; [unfold same_parse; repeat split; congruence|].
      set (raw := {| rawTitle := i_title it; rawCompany := i_company it;
                     rawDescription := i_description it;
                     r_guid := identityOf it (S (processed r1));
                     r_source := url_hostname B (FEED_URL cfg); r_url := i_link it;
                     r_published_at := unixtime B (i_pubDate it) |}) in *.
      destruct (unknown (run_db r2) raw) eqn:E2.
      + rewrite (Hk raw E2) in A7. cbn [andb] in A7, G7.
        destruct (matchesProfession B cfg _ _ _);
          destruct A7 as (_ & _ & ->); destruct G7 as (_ & _ & ->).
        * rewrite filter_app. cbn [filter]. rewrite E2. now rewrite Hb.
        * exact Hb.
      + cbn [andb] in G7. destruct G7 as (_ & _ & ->).
        destruct (unknown (run_db r1) raw && _); destruct A7 as (_ & _ & ->).
        * rewrite filter_app. cbn [filter]. rewrite E2. now rewrite app_nil_r.
        * exact Hb.
    - destruct (parse_step B _ _ _ e) as [[ci tag] text].
      split; [|exact Hb]. destruct r1, r2; unfold same_parse in *; cbn in *.
      repeat split; congruence. }
  destruct Hstep as [Hs' Hb'].
  rewrite (IH (on_event B cfg ai1 r1 e) (on_event B cfg ai2 r2 e) Hes Hs').
  - now rewrite D2.
  - rewrite D1, D2. exact Hk.
  - rewrite D2. exact Hb'.
Qed.

Lemma content_batch_length (ai : ai_backend) (events : list sax_event) :
  forall r, Forall isContent events ->
    List.length (batch (fold_left (on_event B cfg ai) events r))
    <= List.length (batch r) + List.length events.
Proof.
  induction events as [|e events IH]; intros r H; [simpl; lia|].
  inversion H as [|? ? He Hes]; subst. cbn [fold_left List.length].
  specialize (IH (on_event B cfg ai r e) Hes).
  assert (Hstep : List.length (batch (on_event B cfg ai r e))
                  <= S (List.length (batch r))).
  { rewrite (on_content_event B cfg ai r e He).
    destruct (closes B _ _ e) as [it|].
    - pose proof (close_record_cases B cfg it r) as C. cbv zeta in C.
      destruct C as (_ & _ & _ & _ & _ & _ & C).
      destruct (unknown _ _ && _); destruct C as (_ & _ & ->);
        [rewrite length_app; simpl; lia | lia].
    - destruct (parse_step B _ _ _ e) as [[ci tag] text]. simpl. lia. }
  lia.
Qed.

(** With room in the table the retention step deletes nothing. *)
Lemma prune_with_room (d : DB.t) :
  List.length (DB.jobs d) <= MAX_JOBS cfg ->
  DB.jobs (prune B cfg d) = DB.jobs d
  /\ DB.tags (prune B cfg d) = DB.tags d
  /\ DB.job_tags (prune B cfg d) = DB.job_tags d.
Proof.
  intros Hroom. unfold prune.
  destruct (DB.getCachedCount (now_seconds B) 0 d) as [total d1] eqn:E.
  assert (H1 : DB.jobs d1 = DB.jobs d /\ DB.tags d1 = DB.tags d
               /\ DB.job_tags d1 = DB.job_tags d).
  { unfold DB.getCachedCount in E. destruct (DB.stmtGetCache _ d);
      injection E as _ <-; now repeat split. }
  destruct H1 as (J & T & L).
  destruct (Z.of_nat (MAX_JOBS cfg) <? total)%Z; [|now repeat split].
  cbn [DB.stmtSetCache DB.with_cache DB.jobs DB.tags DB.job_tags DB.stmtDeleteOld
       DB.with_jobs].
  repeat split; try assumption.
  rewrite skipn_all2.
  - cbn [map]. rewrite <- J. apply forallb_filter_id. now apply forallb_forall.
  - rewrite (Permutation_length (order_desc_perm _)), J. exact Hroom.
Qed.

End SameFeedAgain.

(** A call of processFeed on a feed that is read to its end returns, having
    written the rows of the batch and pruned. *)
Lemma processFeed_whole_feed (B : Builtins) (cfg : Config) (ai : ai_backend)
    (content : list sax_event) (w : world) :
  FEED_RUNNING w = false -> FEED_URL cfg <> [] ->
  Forall isContent content ->
  exists rows c,
    Forall2 (row_for B)
      (batch (fold_left (on_event B cfg ai) content (start_run w))) rows
    /\ processFeed B cfg ai (FetchBody (content ++ [SaxEnd])) w
       = (Returned,
          {| FEED_RUNNING := false;
             db := prune B cfg (insertBatch B rows (db w));
             console := c |}).
Proof.
  intros Hflag Hurl Hc. apply nonempty_true in Hurl.
  unfold processFeed. rewrite Hflag, Hurl. cbn [negb].
  unfold run_feed. rewrite fold_left_app. cbn [fold_left on_event].
  change (start_run {| FEED_RUNNING := true; db := db w; console := console w |})
    with (start_run w).
  set (rc := fold_left (on_event B cfg ai) content (start_run w)).
  destruct (content_frame B cfg ai content (start_run w) Hc) as (P1 & D1 & _).
  fold rc in P1, D1. cbn [start_run promise run_db] in P1, D1.
  destruct (on_end_counters B cfg ai rc) as (_ & _ & _ & _ & _ & _ & _ & E1).
  cbv zeta in E1. rewrite P1 in E1. rewrite E1.
  destruct (on_end_db B cfg ai rc) as [rows [Hrows Edb]].
  rewrite D1 in Edb. rewrite Edb.
  exists rows. eexists. split; [exact Hrows | reflexivity].
Qed.

(** Reading the same feed a second time changes nothing.  After a run read
    a feed to its end with room in the table for all of it (so that the
    retention step deleted nothing), a second run over the same content,
    whatever the AI backend answers this time, leaves the tables jobs, tags
    and job_tags exactly as the first run left them: a record is skipped
    for its stored guid, or its insert is ignored for its stored slug.
    (The profession names no inherited property, see [ownKey].) *)
Theorem processFeed_same_feed_again (B : Builtins) (cfg : Config)
    (ai1 ai2 : ai_backend) (content : list sax_event) (w : world) :
  ownKey B cfg ->
  FEED_RUNNING w = false -> FEED_URL cfg <> [] ->
  Forall isContent content ->
  List.length (DB.jobs (db w)) + List.length content <= MAX_JOBS cfg ->
  let first := processFeed B cfg ai1 (FetchBody (content ++ [SaxEnd])) w in
  let second := processFeed B cfg ai2 (FetchBody (content ++ [SaxEnd])) (snd first) in
  fst first = Returned /\ fst second = Returned
  /\ DB.jobs (db (snd second)) = DB.jobs (db (snd first))
  /\ DB.tags (db (snd second)) = DB.tags (db (snd first))
  /\ DB.job_tags (db (snd second)) = DB.job_tags (db (snd first)).
Proof.
  intros _ Hflag Hurl Hc Hroom. cbv zeta.
  (* the first run *)
  destruct (processFeed_whole_feed B cfg ai1 content w Hflag Hurl Hc)
    as (rows1 & c1 & Hrows1 & ->).
  cbn [fst snd].
  set (rc1 := fold_left (on_event B cfg ai1) content (start_run w)) in *.
  set (dA := insertBatch B rows1 (db w)).
  destruct (insertBatch_appends B rows1 (db w)) as [new [EA [Hlen _]]].
  fold dA in EA.
  assert (HlenA : List.length (DB.jobs dA) <= MAX_JOBS cfg).
  { rewrite EA, length_app.
    pose proof (Forall2_length Hrows1) as L.
    pose proof (content_batch_length B cfg ai1 content (start_run w) Hc) as Lb.
    fold rc1 in Lb. cbn [start_run batch List.length] in Lb. lia. }
  destruct (prune_with_room B cfg dA HlenA) as (PJ & PT & PL).
  set (d1 := prune B cfg dA) in *.
  set (w1 := {| FEED_RUNNING := false; db := d1; console := c1 |}).
  (* the second run *)
  destruct (processFeed_whole_feed B cfg ai2 content w1 eq_refl Hurl Hc)
    as (rows2 & c2 & Hrows2 & ->).
  cbn [fst snd db].
  set (rc2 := fold_left (on_event B cfg ai2) content (start_run w1)) in *.
  assert (Hknown : forall raw, unknown d1 raw = true -> unknown (db w) raw = true).
  { intros raw. unfold unknown.
    destruct (DB.stmtHasGuid (r_guid raw) (db w)) as [row|] eqn:Ef; [|reflexivity].
    apply find_some in Ef. destruct Ef as [Hrow Eg]. apply jsstr_eqb_eq in Eg.
    assert (Hrow1 : In row (DB.jobs d1)).
    { rewrite PJ, EA. apply in_or_app. now left. }
    destruct (stmtHasGuid_present (r_guid raw) d1 row Hrow1 Eg) as [found ->].
    discriminate. }
  assert (Hbatch : batch rc2 = filter (unknown d1) (batch rc1)).
  { apply (content_same_parse B cfg ai1 ai2 content (start_run w) (start_run w1) Hc).
    - now repeat split.
    - exact Hknown.
    - reflexivity. }
  assert (Hnoop : insertBatch B rows2 d1 = d1).
  { apply insertBatch_ignored. apply Forall_forall. intros p Hp.
    destruct (Forall2_In_r _ _ _ p Hrows2 Hp) as [raw [Hraw Hfor]].
    rewrite Hbatch in Hraw. apply filter_In in Hraw. destruct Hraw as [Hraw Hunk].
    destruct Hfor as (F1 & _ & _ & _ & _ & _ & F7 & _).
    split.
    - unfold unknown in Hunk. rewrite F1.
      now destruct (DB.stmtHasGuid (r_guid raw) d1).
    - destruct (Forall2_In_l _ _ _ raw Hrows1 Hraw) as [p1 [Hp1 Hfor1]].
      destruct Hfor1 as (G1 & _ & _ & _ & _ & _ & G7 & _).
      destruct (insertBatch_settles B rows1 (db w) p1 Hp1) as [row [Hrow Hkey]].
      fold dA in Hrow. rewrite <- PJ in Hrow.
      exists row. split; [exact Hrow|].
      destruct Hkey as [Hkey|Hkey]; [|congruence].
      exfalso. apply (unknown_stored d1 raw row Hunk Hrow). congruence. }
  change (db w1) with d1. rewrite Hnoop.
  assert (Hlen1 : List.length (DB.jobs d1) <= MAX_JOBS cfg) by now rewrite PJ.
  destruct (prune_with_room B cfg d1 Hlen1) as (QJ & QT & QL).
  now repeat split.
Qed.

Lemma processFeed_same_feed_again_sample :
  let first := processFeed Sample.builtins roomy no_backend
                 (FetchBody (twin_records ++ [SaxEnd])) Sample.idle in
  let second := processFeed Sample.builtins roomy garbage_run
                  (FetchBody (twin_records ++ [SaxEnd])) (snd first) in
  fst first = Returned /\ fst second = Returned
  /\ DB.jobs (db (snd second)) = DB.jobs (db (snd first))
  /\ DB.tags (db (snd second)) = DB.tags (db (snd first))
  /\ DB.job_tags (db (snd second)) = DB.job_tags (db (snd first)).
Proof.
  apply (processFeed_same_feed_again Sample.builtins roomy no_backend garbage_run
           twin_records Sample.idle).
  - apply ownKey_by_test; vm_compute; reflexivity.
  - reflexivity.
  - discriminate.
  - unfold twin_records, one_record. simpl. repeat constructor.
  - vm_compute. lia.
Defined.

(** The feed of the twins: the first run stores A1 and ignores A2 for its
    slug; so does the second run. *)
Example twin_records_once :
  map DB.guid
    (DB.jobs (db (snd (processFeed Sample.builtins roomy no_backend
                         (FetchBody (twin_records ++ [SaxEnd])) Sample.idle))))
  = [JS "A1"].
Proof. vm_compute. reflexivity. Qed.

(* ------------------------------------------------------------------ *)
(** ** The tables [tags] and [job_tags] *)

Lemma grows_refl (d : DB.t) : grows d d.
Proof. split; auto. Qed.

Lemma grows_trans (a b c : DB.t) : grows a b -> grows b c -> grows a c.
Proof. intros [H1 H2] [G1 G2]. split; auto. Qed.

Lemma tags_ok_empty : tags_ok DB.empty.
Proof. repeat split; simpl; try constructor; try lia; easy. Qed.

Lemma stmtInsertTag_ok (n s : jsstring) (d : DB.t) :
  tags_ok d -> tags_ok (DB.stmtInsertTag n s d) /\ grows d (DB.stmtInsertTag n s d).
Proof.
  intros H. pose proof H as (Hn & Hs & Hi & Hq & Hb & Hl & Hr).
  unfold DB.stmtInsertTag.
  destruct (existsb _ (DB.tags d)) eqn:E; [split; [exact H | apply grows_refl]|].
  assert (Hnew : forall t, In t (DB.tags d) -> DB.name t <> n /\ DB.tag_slug t <> s).
  { intros t Ht.
    destruct (JSStr.eqb (DB.name t) n) eqn:E1.
    - exfalso. rewrite (proj2 (existsb_exists _ _)) in E; [discriminate|].
      exists t. split; [assumption|]. now rewrite E1.
    - destruct (JSStr.eqb (DB.tag_slug t) s) eqn:E2.
      + exfalso. rewrite (proj2 (existsb_exists _ _)) in E; [discriminate|].
        exists t. split; [assumption|]. rewrite E2. apply orb_true_r.
      + split; now apply jsstr_eqb_neq. }
  split.
  - unfold tags_ok. cbn [DB.tags DB.tags_seq DB.job_tags]. rewrite !map_app.
    cbn [map DB.name DB.tag_slug DB.tag_id].
    refine (conj _ (conj _ (conj _ (conj _ (conj _ (conj _ _)))))).
    + apply NoDup_snoc; [assumption|]. intros C. apply in_map_iff in C.
      destruct C as [t [Et Ht]]. now apply (proj1 (Hnew t Ht)).
    + apply NoDup_snoc; [assumption|]. intros C. apply in_map_iff in C.
      destruct C as [t [Et Ht]]. now apply (proj2 (Hnew t Ht)).
    + apply NoDup_snoc; [assumption|]. intros C. apply in_map_iff in C.
      destruct C as [t [Et Ht]]. specialize (Hb t Ht). lia.
    + lia.
    + intros t Ht. apply in_app_or in Ht. destruct Ht as [Ht|[<-|[]]].
      * specialize (Hb t Ht). lia.
      * cbn [DB.tag_id]. lia.
    + assumption.
    + intros l Hlk. destruct (Hr l Hlk) as [t [Ht Hid]].
      exists t. split; [apply in_or_app; now left | assumption].
  - split; cbn [DB.tags DB.job_tags]; intros x Hx;
      [apply in_or_app; now left | assumption].
Qed.

Lemma stmtInsertJobTag_ok (jobId tid : Z) (d : DB.t) (t : DB.tag) :
  In t (DB.tags d) -> DB.tag_id t = tid ->
  tags_ok d ->
  tags_ok (DB.stmtInsertJobTag jobId tid d)
  /\ grows d (DB.stmtInsertJobTag jobId tid d)
  /\ In (jobId, tid) (DB.job_tags (DB.stmtInsertJobTag jobId tid d)).
Proof.
  intros Ht Hid H. pose proof H as (Hn & Hs & Hi & Hq & Hb & Hl & Hr).
  unfold DB.stmtInsertJobTag.
  destruct (existsb _ (DB.job_tags d)) eqn:E.
  - split; [exact H|]. split; [apply grows_refl|].
    apply existsb_exists in E. destruct E as [[a b] [Hab E]].
    cbn [fst snd] in E. apply andb_true_iff in E. destruct E as [E1 E2].
    apply Z.eqb_eq in E1, E2. now subst.
  - split; [|split].
    + unfold tags_ok. cbn [DB.tags DB.tags_seq DB.job_tags].
      refine (conj Hn (conj Hs (conj Hi (conj Hq (conj Hb (conj _ _)))))).
      * apply NoDup_snoc; [assumption|]. intros C.
        rewrite (proj2 (existsb_exists _ _)) in E; [discriminate|].
        exists (jobId, tid). split; [assumption|]. cbn [fst snd].
        now rewrite !Z.eqb_refl.
      * intros l Hlk. apply in_app_or in Hlk. destruct Hlk as [Hlk|[<-|[]]].
        -- now apply Hr.
        -- exists t. now split.
    + split; cbn [DB.tags DB.job_tags]; intros x Hx;
        [assumption | apply in_or_app; now left].
    + cbn [DB.job_tags]. apply in_or_app. right. now left.
Qed.

Section TagsUnderRun.
Variable B : Builtins.
Variable cfg : Config.
Variable ai : ai_backend.

(** One turn of the loop of upsertTagsForJob. *)
Lemma upsert_one_ok (jobId : Z) (name : jsstring) (d : DB.t) :
  tags_ok d ->
  let d1 := DB.stmtInsertTag name (tagSlug B name) d in
  let d2 := match DB.stmtGetTagByName name d1 with
            | Some t => DB.stmtInsertJobTag jobId (DB.tag_id t) d1
            | None => d1
            end in
  tags_ok d2 /\ grows d d2.
Proof.
  intros H. cbv zeta.
  destruct (stmtInsertTag_ok name (tagSlug B name) d H) as [H1 G1].
  destruct (DB.stmtGetTagByName name _) as [t|] eqn:Et; [|now split].
  apply find_some in Et. destruct Et as [Ht _].
  destruct (stmtInsertJobTag_ok jobId (DB.tag_id t) _ t Ht eq_refl H1) as (H2 & G2 & _).
  split; [exact H2 | now apply (grows_trans _ _ _ G1 G2)].
Qed.

Lemma upsertTagsForJob_tags_ok (jobId : Z) (names : list jsstring) :
  forall d, tags_ok d ->
    tags_ok (upsertTagsForJob B jobId names d)
    /\ grows d (upsertTagsForJob B jobId names d).
Proof.
  unfold upsertTagsForJob.
  induction names as [|name names IH]; intros d H; [split; [exact H | apply grows_refl]|].
  cbn [fold_left].
  destruct (upsert_one_ok jobId name d H) as [H1 G1]. cbv zeta in H1, G1.
  destruct (IH _ H1) as [H2 G2].
  split; [exact H2 | now apply (grows_trans _ _ _ G1 G2)].
Qed.

Lemma stmtInsertJob_tags (p : DB.job_params) (d : DB.t) :
  DB.tags (DB.stmtInsertJob p d) = DB.tags d
  /\ DB.tags_seq (DB.stmtInsertJob p d) = DB.tags_seq d
  /\ DB.job_tags (DB.stmtInsertJob p d) = DB.job_tags d.
Proof. unfold DB.stmtInsertJob. now destruct (existsb _ _). Qed.

Lemma tags_ok_ext (d d' : DB.t) :
  DB.tags d' = DB.tags d -> DB.tags_seq d' = DB.tags_seq d ->
  DB.job_tags d' = DB.job_tags d ->
  tags_ok d -> tags_ok d' /\ grows d d'.
Proof.
  intros E1 E2 E3 H. unfold tags_ok, grows. rewrite E1, E2, E3.
  split; [exact H | split; auto].
Qed.

Lemma insertBatch_tags_ok (ps : list DB.job_params) :
  forall d, tags_ok d -> tags_ok (insertBatch B ps d) /\ grows d (insertBatch B ps d).
Proof.
  induction ps as [|p ps IH]; intros d H; [split; [exact H | apply grows_refl]|].
  rewrite insertBatch_cons.
  destruct (stmtInsertJob_tags p d) as (E1 & E2 & E3).
  destruct (tags_ok_ext d (DB.stmtInsertJob p d) E1 E2 E3 H) as [H1 G1].
  assert (H2 : tags_ok (insertOne B p d) /\ grows d (insertOne B p d)).
  { unfold insertOne. cbv zeta.
    destruct (DB.stmtHasGuid _ _); [|now split].
    destruct (upsertTagsForJob_tags_ok (DB.id j)
                (filter nonempty (splitOn (JS ", ") (DB.p_tags_csv p))) _ H1)
      as [H2 G2].
    split; [exact H2 | now apply (grows_trans _ _ _ G1 G2)]. }
  destruct H2 as [H2 G2]. destruct (IH _ H2) as [H3 G3].
  split; [exact H3 | now apply (grows_trans _ _ _ G2 G3)].
Qed.

Lemma prune_tags (d : DB.t) :
  DB.tags (prune B cfg d) = DB.tags d
  /\ DB.tags_seq (prune B cfg d) = DB.tags_seq d
  /\ DB.job_tags (prune B cfg d) = DB.job_tags d.
Proof.
  unfold prune. destruct (DB.getCachedCount (now_seconds B) 0 d) as [total d1] eqn:E.
  assert (H1 : DB.tags d1 = DB.tags d /\ DB.tags_seq d1 = DB.tags_seq d
               /\ DB.job_tags d1 = DB.job_tags d).
  { unfold DB.getCachedCount in E. destruct (DB.stmtGetCache _ d);
      injection E as _ <-; now repeat split. }
  destruct (Z.of_nat (MAX_JOBS cfg) <? total)%Z; [|exact H1].
  exact H1.
Qed.

Lemma on_event_tags_ok (r : run) (e : sax_event) :
  tags_ok (run_db r) ->
  tags_ok (run_db (on_event B cfg ai r e))
  /\ grows (run_db r) (run_db (on_event B cfg ai r e)).
Proof.
  intros H. destruct (sax_event_eq_end e) as [->|Hne];
    [|rewrite (on_event_db B cfg ai r e Hne); split; [exact H | apply grows_refl]].
  cbn [on_event]. destruct (on_end_db B cfg ai r) as [rows [_ ->]].
  now apply insertBatch_tags_ok.
Qed.

Lemma events_tags_ok (events : list sax_event) :
  forall r, tags_ok (run_db r) ->
    tags_ok (run_db (fold_left (on_event B cfg ai) events r))
    /\ grows (run_db r) (run_db (fold_left (on_event B cfg ai) events r)).
Proof.
  induction events as [|e events IH]; intros r H; [split; [exact H | apply grows_refl]|].
  cbn [fold_left]. destruct (on_event_tags_ok r e H) as [H1 G1].
  destruct (IH _ H1) as [H2 G2].
  split; [exact H2 | now apply (grows_trans _ _ _ G1 G2)].
Qed.

End TagsUnderRun.

Lemma processFeed_tags (B : Builtins) (cfg : Config) (ai : ai_backend)
    (fetched : fetch_result) (w : world) :
  tags_ok (db w) ->
  tags_ok (db (snd (processFeed B cfg ai fetched w)))
  /\ grows (db w) (db (snd (processFeed B cfg ai fetched w))).
Proof.
  intros H. unfold processFeed.
  destruct (FEED_RUNNING w); [split; [exact H | apply grows_refl]|].
  destruct (negb (nonempty (FEED_URL cfg))); [split; [exact H | apply grows_refl]|].
  unfold run_feed.
  destruct fetched as [message|events]; [split; [exact H | apply grows_refl]|].
  set (r := fold_left (on_event B cfg ai) events _).
  assert (Hr : tags_ok (run_db r) /\ grows (db w) (run_db r)).
  { apply (events_tags_ok B cfg ai events
             (start_run {| FEED_RUNNING := true; db := db w; console := console w |})).
    exact H. }
  destruct Hr as [Hr Gr].
  destruct (promise r); cbn [snd db]; try (split; assumption).
  destruct (prune_tags B cfg (run_db r)) as (E1 & E2 & E3).
  destruct (tags_ok_ext _ _ E1 E2 E3 Hr) as [H1 G1].
  split; [exact H1 | now apply (grows_trans _ _ _ Gr G1)].
Qed.

Lemma processFeed_store (B : Builtins) (cfg : Config) (ai : ai_backend)
    (fetched : fetch_result) (w : world) :
  store_ok (db w) -> store_ok (db (snd (processFeed B cfg ai fetched w))).
Proof.
  intros H. unfold processFeed.
  destruct (FEED_RUNNING w); [exact H|].
  destruct (negb (nonempty (FEED_URL cfg))); [exact H|].
  unfold run_feed. destruct fetched as [message|events]; [exact H|].
  set (r := fold_left (on_event B cfg ai) events _).
  assert (Hr : store_ok (run_db r)) by (apply events_ok; exact H).
  destruct (promise r); cbn [snd db]; [exact Hr | now apply prune_ok | exact Hr].
Qed.

(** The tag tables stay consistent, and only grow.  If, before a call of
    processFeed, name, slug and id of a tag are each unique, no link is
    stored twice and every link points to a stored tag, then so it is
    after the call, however it ends.  No tag and no link is ever removed:
    the retention step deletes postings only, so the links of a deleted
    posting stay behind.  (The profession names no inherited property, see
    [ownKey].) *)
Theorem processFeed_keeps_tags_ok (B : Builtins) (cfg : Config) (ai : ai_backend)
    (fetched : fetch_result) (w : world) :
  ownKey B cfg ->
  tags_ok (db w) ->
  tags_ok (db (snd (processFeed B cfg ai fetched w)))
  /\ grows (db w) (db (snd (processFeed B cfg ai fetched w))).
Proof. intros _. apply processFeed_tags. Qed.

Lemma processFeed_keeps_tags_ok_sample :
  tags_ok (db (snd (processFeed Sample.builtins Sample.config no_backend
                      (FetchBody (one_record ++ [SaxEnd])) Sample.idle)))
  /\ grows (db Sample.idle)
       (db (snd (processFeed Sample.builtins Sample.config no_backend
                   (FetchBody (one_record ++ [SaxEnd])) Sample.idle))).
Proof.
  apply (processFeed_keeps_tags_ok Sample.builtins Sample.config no_backend
           (FetchBody (one_record ++ [SaxEnd])) Sample.idle).
  - apply ownKey_by_test; vm_compute; reflexivity.
  - exact tags_ok_empty.
Defined.

(* ------------------------------------------------------------------ *)
(** ** upsertTagsForJob: what becomes of a tag name *)

Section UpsertLinks.
Variable B : Builtins.

Lemma upsertTagsForJob_fold (jobId : Z) (names : list jsstring) (d : DB.t) :
  upsertTagsForJob B jobId names d = fold_left (upsertOne B jobId) names d.
Proof. reflexivity. Qed.

Lemma stmtInsertJobTag_frame (jobId tid : Z) (d : DB.t) :
  DB.tags (DB.stmtInsertJobTag jobId tid d) = DB.tags d
  /\ In (jobId, tid) (DB.job_tags (DB.stmtInsertJobTag jobId tid d))
  /\ (forall l, In l (DB.job_tags d) ->
                In l (DB.job_tags (DB.stmtInsertJobTag jobId tid d))).
Proof.
  unfold DB.stmtInsertJobTag. destruct (existsb _ (DB.job_tags d)) eqn:E.
  - repeat split; try tauto.
    apply existsb_exists in E. destruct E as [[a b] [Hab E]].
    cbn [fst snd] in E. apply andb_true_iff in E. destruct E as [E1 E2].
    apply Z.eqb_eq in E1, E2. now subst.
  - cbn [DB.tags DB.job_tags]. repeat split.
    + apply in_or_app. right. now left.
    + intros l Hl. apply in_or_app. now left.
Qed.

Lemma find_app_first {A : Type} (f : A -> bool) (l l' : list A) (x : A) :
  find f l = Some x -> find f (l ++ l') = Some x.
Proof.
  induction l as [|a l IH]; [discriminate|]. cbn [find app].
  destruct (f a); [easy | exact IH].
Qed.

Lemma find_app_none {A : Type} (f : A -> bool) (l l' : list A) :
  find f l = None -> find f (l ++ l') = find f l'.
Proof.
  induction l as [|a l IH]; [reflexivity|]. cbn [find app].
  destruct (f a); [discriminate | exact IH].
Qed.

(** The turn for a name settles it: linked, or crowded out. *)
Lemma upsertOne_settles (jobId : Z) (name : jsstring) (d : DB.t) :
  linked jobId name (upsertOne B jobId d name)
  \/ crowded_out B name (upsertOne B jobId d name).
Proof.
  unfold upsertOne. cbv zeta.
  destruct (DB.stmtGetTagByName name (DB.stmtInsertTag name (tagSlug B name) d))
    as [t|] eqn:Et.
  - left. exists t.
    destruct (stmtInsertJobTag_frame jobId (DB.tag_id t)
                (DB.stmtInsertTag name (tagSlug B name) d)) as (F1 & F2 & _).
    split; [|exact F2]. unfold DB.stmtGetTagByName in *. now rewrite F1.
  - right. split; [exact Et|].
    unfold DB.stmtInsertTag in *.
    destruct (existsb _ (DB.tags d)) eqn:E.
    + apply existsb_exists in E. destruct E as [t [Ht E]].
      exists t. split; [assumption|].
      unfold DB.stmtGetTagByName in Et.
      pose proof (find_none _ _ Et t Ht) as Hn. cbn beta in Hn.
      rewrite Hn in E. cbn [orb] in E. apply jsstr_eqb_eq in E.
      split; [assumption | now apply jsstr_eqb_neq].
    + exfalso. unfold DB.stmtGetTagByName in Et. cbn [DB.tags] in Et.
      assert (Hn := find_none _ _ Et {| DB.tag_id := (DB.tags_seq d + 1)%Z;
                                        DB.name := name;
                                        DB.tag_slug := tagSlug B name |}).
      cbn beta in Hn. cbn [DB.name] in Hn. rewrite jsstr_eqb_refl in Hn.
      discriminate Hn. apply in_or_app. right. now left.
Qed.

(** A later turn, for whatever name, leaves a settled name settled. *)
Lemma upsertOne_keeps (jobId : Z) (name n : jsstring) (d : DB.t) :
  linked jobId name d \/ crowded_out B name d ->
  linked jobId name (upsertOne B jobId d n)
  \/ crowded_out B name (upsertOne B jobId d n).
Proof.
  intros [[t [Ht Hl]]|[Hnone [t [Ht [Hs Hne]]]]].
  - left. exists t. unfold upsertOne. cbv zeta.
    set (d1 := DB.stmtInsertTag n (tagSlug B n) d).
    assert (H1 : DB.stmtGetTagByName name d1 = Some t
                 /\ In (jobId, DB.tag_id t) (DB.job_tags d1)).
    { unfold d1, DB.stmtInsertTag. destruct (existsb _ (DB.tags d)); [now split|].
      unfold DB.stmtGetTagByName in *. cbn [DB.tags DB.job_tags].
      split; [now apply find_app_first | assumption]. }
    destruct H1 as [H1 H2].
    destruct (DB.stmtGetTagByName n d1) as [t'|]; [|now split].
    destruct (stmtInsertJobTag_frame jobId (DB.tag_id t') d1) as (F1 & _ & F3).
    split; [|now apply F3]. unfold DB.stmtGetTagByName in *. now rewrite F1.
  - right. unfold upsertOne. cbv zeta.
    set (d1 := DB.stmtInsertTag n (tagSlug B n) d).
    assert (H1 : crowded_out B name d1).
    { unfold d1, DB.stmtInsertTag.
      destruct (existsb _ (DB.tags d)) eqn:E; [split; [assumption | now exists t]|].
      assert (Hn : n <> name).
      { intros ->. rewrite (proj2 (existsb_exists _ _)) in E; [discriminate|].
        exists t. split; [assumption|]. rewrite Hs, jsstr_eqb_refl.
        apply orb_true_r. }
      split.
      - unfold DB.stmtGetTagByName in *. cbn [DB.tags].
        rewrite (find_app_none _ _ _ Hnone). cbn [find DB.name].
        apply jsstr_eqb_neq in Hn. now rewrite Hn.
      - exists t. cbn [DB.tags]. split; [apply in_or_app; now left | now split]. }
    destruct (DB.stmtGetTagByName n d1) as [t'|]; [|exact H1].
    destruct (stmtInsertJobTag_frame jobId (DB.tag_id t') d1) as (F1 & _ & _).
    unfold crowded_out, DB.stmtGetTagByName in *. now rewrite F1.
Qed.

End UpsertLinks.

(** upsertTagsForJob settles every name it is given: afterwards the tag of
    that name is stored and linked to the posting, or no tag of that name
    is stored because its slug is the slug of a tag with another name; in
    that case the name is dropped, without a link and without an error. *)
Theorem upsertTagsForJob_settles_names (B : Builtins) (jobId : Z)
    (names : list jsstring) (d : DB.t) (name : jsstring) :
  In name names ->
  linked jobId name (upsertTagsForJob B jobId names d)
  \/ crowded_out B name (upsertTagsForJob B jobId names d).
Proof.
  intros Hin. apply in_split in Hin. destruct Hin as [a [b ->]].
  rewrite upsertTagsForJob_fold, fold_left_app. cbn [fold_left].
  set (d1 := fold_left (upsertOne B jobId) a d).
  pose proof (upsertOne_settles B jobId name d1) as H.
  revert H. generalize (upsertOne B jobId d1 name). clear d1.
  induction b as [|n b IH]; intros d2 H; [exact H|].
  cbn [fold_left]. apply IH. now apply upsertOne_keeps.
Qed.

Lemma upsertTagsForJob_settles_names_sample :
  linked 1 (JS "permis-ce") (upsertTagsForJob Sample.builtins 1 rival_names DB.empty)
  \/ crowded_out Sample.builtins (JS "permis-ce")
       (upsertTagsForJob Sample.builtins 1 rival_names DB.empty).
Proof.
  apply (upsertTagsForJob_settles_names Sample.builtins 1 rival_names DB.empty
           (JS "permis-ce")).
  right. now left.
Defined.

(** Of the two rival names the first is stored and linked, the second is
    dropped. *)
Example rival_names_one_tag :
  map DB.name (DB.tags (upsertTagsForJob Sample.builtins 1 rival_names DB.empty))
  = [JS "permis ce"]
  /\ DB.job_tags (upsertTagsForJob Sample.builtins 1 rival_names DB.empty)
     = [(1%Z, 1%Z)].
Proof. split; vm_compute; reflexivity. Qed.

(* ------------------------------------------------------------------ *)
(** ** The count cache after a run *)

Section CountCache.
Variable B : Builtins.
Variable cfg : Config.

Lemma upsertTagsForJob_cache (jobId : Z) (names : list jsstring) :
  forall d, DB.stats_cache (upsertTagsForJob B jobId names d) = DB.stats_cache d.
Proof.
  unfold upsertTagsForJob.
  induction names as [|name names IH]; intros d; [reflexivity|].
  cbn [fold_left]. rewrite IH.
  unfold DB.stmtInsertTag.
  destruct (existsb _ (DB.tags d)).
  - destruct (DB.stmtGetTagByName name d); [|reflexivity].
    unfold DB.stmtInsertJobTag. now destruct (existsb _ _).
  - match goal with |- context [DB.stmtGetTagByName name ?d2] =>
      destruct (DB.stmtGetTagByName name d2) end; [|reflexivity].
    unfold DB.stmtInsertJobTag. now destruct (existsb _ _).
Qed.

Lemma insertBatch_cache (ps : list DB.job_params) :
  forall d, DB.stats_cache (insertBatch B ps d) = DB.stats_cache d.
Proof.
  induction ps as [|p ps IH]; intros d; [reflexivity|].
  rewrite insertBatch_cons, IH. unfold insertOne. cbv zeta.
  assert (E : DB.stats_cache (DB.stmtInsertJob p d) = DB.stats_cache d).
  { unfold DB.stmtInsertJob. now destruct (existsb _ _). }
  destruct (DB.stmtHasGuid _ _) as [j|]; [|exact E].
  now rewrite upsertTagsForJob_cache.
Qed.

(** After the retention step the cache holds the number of rows. *)
Lemma prune_cache_exact (d : DB.t) :
  NoDup (map DB.id (DB.jobs d)) -> cache_not_ahead (now_seconds B) d ->
  DB.stats_cache (prune B cfg d)
  = Some (Z.of_nat (List.length (DB.jobs (prune B cfg d))), now_seconds B).
Proof.
  intros Hids Hcache. unfold prune.
  rewrite (getCachedCount_recounts _ _ Hcache).
  destruct (Z.of_nat (MAX_JOBS cfg) <? Z.of_nat (List.length (DB.jobs d)))%Z eqn:E.
  - apply Z.ltb_lt in E.
    cbn [DB.stmtSetCache DB.with_cache DB.stats_cache DB.jobs].
    change (DB.jobs (DB.stmtSetCache ?n ?v d)) with (DB.jobs d).
    set (d1 := DB.stmtSetCache _ _ d).
    assert (Hp := stmtDeleteOld_jobs (MAX_JOBS cfg) d1 Hids).
    rewrite (Permutation_length Hp), length_firstn.
    rewrite (Permutation_length (order_desc_perm _)).
    change (DB.jobs d1) with (DB.jobs d).
    repeat f_equal. lia.
  - reflexivity.
Qed.

(** With an exact cache getCachedCount is exact, fresh or not. *)
Lemma getCachedCount_exact (t ttl u : Z) (d : DB.t) :
  DB.stats_cache d = Some (Z.of_nat (List.length (DB.jobs d)), u) ->
  fst (DB.getCachedCount t ttl d) = Z.of_nat (List.length (DB.jobs d)).
Proof.
  intros H. unfold DB.getCachedCount, DB.stmtGetCache. rewrite H.
  now destruct (t - ttl <? u)%Z.
Qed.

End CountCache.

(** After a run the count is exact.  When processFeed has read a feed to
    its end, on a store whose ids are unique and whose cache row is not
    dated in the future, the cache row holds the number of rows of the
    table, written at the time of the run; so getCachedCount, whenever it
    is called next and with whatever time to live, returns the number of
    postings that are stored.  (The profession names no inherited
    property, see [ownKey].) *)
Theorem count_exact_after_run (B : Builtins) (cfg : Config) (ai : ai_backend)
    (content : list sax_event) (w : world) :
  ownKey B cfg ->
  FEED_RUNNING w = false -> FEED_URL cfg <> [] ->
  Forall isContent content ->
  store_ok (db w) -> cache_not_ahead (now_seconds B) (db w) ->
  let d := db (snd (processFeed B cfg ai (FetchBody (content ++ [SaxEnd])) w)) in
  DB.stats_cache d = Some (Z.of_nat (List.length (DB.jobs d)), now_seconds B)
  /\ forall t ttl,
       fst (DB.getCachedCount t ttl d) = Z.of_nat (List.length (DB.jobs d)).
Proof.
  intros _ Hflag Hurl Hc Hok Hcache. cbv zeta.
  destruct (processFeed_whole_feed B cfg ai content w Hflag Hurl Hc)
    as (rows & c & _ & ->).
  cbn [snd db].
  assert (Hexact : DB.stats_cache (prune B cfg (insertBatch B rows (db w)))
                   = Some (Z.of_nat (List.length
                                       (DB.jobs (prune B cfg (insertBatch B rows (db w))))),
                           now_seconds B)).
  { apply prune_cache_exact.
    - apply (insertBatch_ok B rows (db w) Hok).
    - unfold cache_not_ahead. rewrite insertBatch_cache. exact Hcache. }
  split; [exact Hexact|].
  intros t ttl. now apply (getCachedCount_exact t ttl (now_seconds B)).
Qed.

Lemma count_exact_after_run_sample :
  let d := db (snd (processFeed Sample.builtins Sample.config no_backend
                      (FetchBody (one_record ++ [SaxEnd])) Sample.idle)) in
  DB.stats_cache d
  = Some (Z.of_nat (List.length (DB.jobs d)), now_seconds Sample.builtins)
  /\ forall t ttl,
       fst (DB.getCachedCount t ttl d) = Z.of_nat (List.length (DB.jobs d)).
Proof.
  apply (count_exact_after_run Sample.builtins Sample.config no_backend one_record
           Sample.idle).
  - apply ownKey_by_test; vm_compute; reflexivity.
  - reflexivity.
  - discriminate.
  - unfold one_record. simpl. repeat constructor.
  - exact store_ok_empty.
  - intros value updated_at H. discriminate H.
Defined.

(* ------------------------------------------------------------------ *)
(** ** The click route *)

Section ClickFacts.
Variable B : Builtins.
Variable K : Click.

Lemma find_unique_key {A : Type} (key : DB.job -> A) (eqb : A -> A -> bool)
    (l : list DB.job) (x : DB.job) :
  (forall a b, eqb a b = true <-> a = b) ->
  NoDup (map key l) -> In x l ->
  find (fun r => eqb (key r) (key x)) l = Some x.
Proof.
  intros Heq Hnd Hx. induction l as [|a l IH]; [contradiction|].
  cbn [map] in Hnd. inversion Hnd as [|? ? Ha Hl]; subst. cbn [find].
  destruct Hx as [->|Hx].
  - now rewrite (proj2 (Heq _ _) eq_refl).
  - destruct (eqb (key a) (key x)) eqn:E; [|now apply IH].
    exfalso. apply Heq in E. apply Ha. rewrite E. now apply in_map.
Qed.

End ClickFacts.



(** The form of the posting page is accepted by the click route.  In a
    store whose slugs and ids are unique, whenever the posting page is
    served, the fields id and t of its form, posted to /go, are answered
    with the redirect to the source link of the posting of that page, or
    with status 404 when the posting has no link; never with status 400 or
    403 (the digest being never empty). *)
Theorem apply_form_is_accepted (B : Builtins) (K : Click)
    (URL_hostname : jsstring -> option jsstring) (SITE_URL : jsstring) (d : DB.t)
    (slug : jsstring) (page : job_page) :
  store_ok d ->
  (forall key message, hmac_sha256_hex K key message <> []) ->
  jobPage B K URL_hostname SITE_URL slug d = JobPage page ->
  exists job,
    In job (DB.jobs d) /\ DB.slug job = slug
    /\ go K (Some (JStr (form_id page))) (Some (JStr (form_t page))) d
       = if nonempty (DB.url job) then GoRedirect (DB.url job) else GoNotFound.
Proof.
  intros (Hg & Hs & Hi & Hq & Hb) Hmac Hpage.
  unfold jobPage, stmtBySlug in Hpage.
  destruct (find _ (DB.jobs d)) as [job|] eqn:Ej; [|discriminate Hpage].
  destruct (negb (validTime (published_ms job))); [discriminate Hpage|].
  injection Hpage as <-.
  apply find_some in Ej. destruct Ej as [Hjob Eslug].
  apply jsstr_eqb_eq in Eslug.
  exists job. split; [exact Hjob|]. split; [exact Eslug|].
  cbn [form_id form_t].
  unfold go. cbv zeta.
  assert (Hpos : (0 < DB.id job)%Z) by (specialize (Hb job Hjob); lia).
  assert (Hn : Number_of (JStr (Z_to_string (DB.id job))) = Some (DB.id job)).
  { cbn [Number_of]. rewrite (Z_to_string_pos _ Hpos), toNumber_N_to_string.
    f_equal. lia. }
  assert (Hid : truthy (JStr (Z_to_string (DB.id job))) = true).
  { cbn [truthy]. rewrite (Z_to_string_pos _ Hpos). apply N_to_string_nonempty. }
  assert (Htok : nonempty (clickToken K (DB.id job)) = true).
  { unfold clickToken, slice. cbn [skipn Nat.sub].
    specialize (Hmac (CLICK_SECRET K) (Z_to_string (DB.id job))).
    destruct (hmac_sha256_hex K _ _); [contradiction | reflexivity]. }
  rewrite Hid, Hn. cbn [truthy]. rewrite Htok. cbn [ToString].
  replace (truthyNumber (Some (DB.id job))) with true
    by (symmetry; cbn [truthyNumber]; apply negb_true_iff, Z.eqb_neq; lia).
  rewrite Htok. cbn [negb orb]. rewrite jsstr_eqb_refl. cbn [negb].
  unfold stmtById.
  now rewrite (find_unique_key DB.id Z.eqb _ _ Z.eqb_eq Hi Hjob).
Qed.

Lemma apply_form_is_accepted_sample :
  exists job,
    In job (DB.jobs linked_store) /\ DB.slug job = JS "chauffeur-spl-acme"
    /\ go sample_click (Some (JStr (form_id linked_page)))
         (Some (JStr (form_t linked_page))) linked_store
       = if nonempty (DB.url job) then GoRedirect (DB.url job) else GoNotFound.
Proof.
  apply (apply_form_is_accepted Sample.builtins sample_click sample_hostname
           (JS "https://emplois.example.be") linked_store
           (JS "chauffeur-spl-acme") linked_page).
  - unfold store_ok, linked_store. cbn [DB.jobs DB.jobs_seq map].
    repeat split; try (repeat constructor; simpl; tauto); try lia;
      destruct H as [<-|[]]; simpl; lia.
  - intros key message. unfold sample_click. cbn [hmac_sha256_hex].
    destruct key; discriminate.
  - vm_compute. reflexivity.
Defined.

(** A posting dated beyond the range of Date has no page: the route
    throws. *)
Example jobPage_throws_on_far_date :
  jobPage Sample.builtins sample_click sample_hostname
    (JS "https://emplois.example.be") (JS "chauffeur-spl-acme")
    {| DB.jobs := [far_posting]; DB.jobs_seq := 7; DB.tags := [];
       DB.tags_seq := 0; DB.job_tags := []; DB.stats_cache := None |}
  = JobThrows.
Proof. vm_compute. reflexivity. Qed.

(* ------------------------------------------------------------------ *)
(** ** The location of a posting *)

Lemma lookup_country_code (key code : jsstring) :
  lookup_country key country_map = Some code -> In code country_codes.
Proof.
  unfold country_map. cbn [map fst snd lookup_country].
  repeat (destruct (JSStr.eqb key _);
          [intros H; injection H as <-; vm_compute; tauto|]).
  discriminate.
Qed.

(** A posting always has one location, and the location a country.
    inferJobLocations returns exactly one place.  Its country is FR when
    the site URL does not parse; otherwise, unless the last label of the
    host names a property that object literals inherit (constructor,
    __proto__, ...), it is a country code of the table, FR when the label
    is not a key of the table.  The place has a locality exactly when a
    city of the list occurs in the text, the first one in the order of the
    list, with its first letter in upper case. *)
Theorem inferJobLocations_one_place (B : Builtins)
    (URL_hostname : jsstring -> option jsstring) (html title siteUrl : jsstring) :
  exists p,
    inferJobLocations B URL_hostname html title siteUrl = [p]
    /\ (URL_hostname siteUrl = None -> addressCountry p = Country (JS "FR"))
    /\ (forall hostname,
          URL_hostname siteUrl = Some hostname ->
          ~ In (tldOf (toLowerCase B hostname)) inherited_names ->
          exists code, addressCountry p = Country code /\ In code country_codes)
    /\ match addressLocality p with
       | Some l =>
         exists c, find (fun c => includes (metaText B html title) c) citiesFR = Some c
                   /\ l = toUpperCase B (firstn 1 c) ++ skipn 1 c
       | None =>
         forall c, In c citiesFR -> includes (metaText B html title) c = false
       end.
Proof.
  unfold inferJobLocations. cbv zeta.
  assert (Hc : (URL_hostname siteUrl = None ->
                getCountryFromHost B URL_hostname siteUrl = Country (JS "FR"))
               /\ (forall hostname,
                     URL_hostname siteUrl = Some hostname ->
                     ~ In (tldOf (toLowerCase B hostname)) inherited_names ->
                     exists code,
                       getCountryFromHost B URL_hostname siteUrl = Country code
                       /\ In code country_codes)).
  { unfold getCountryFromHost. split.
    - now intros ->.
    - intros hostname -> Hn. cbv zeta.
      destruct (lookup_country _ country_map) as [code|] eqn:E.
      + exists code. split; [reflexivity | now apply (lookup_country_code _ _ E)].
      + destruct (existsb _ inherited_names) eqn:Ei.
        * exfalso. apply Hn. now apply existsb_eqb_In.
        * exists (JS "FR"). split; [reflexivity | now left]. }
  destruct Hc as [Hc1 Hc2].
  destruct (find _ citiesFR) as [c|] eqn:Ef; eexists; (split; [reflexivity|]);
    cbn [addressCountry addressLocality]; repeat split; try assumption.
  - exists c. now split.
  - intros c Hcity. apply (find_none _ _ Ef c Hcity).
Qed.

Lemma inferJobLocations_one_place_sample :
  exists p,
    inferJobLocations Sample.builtins sample_hostname
      (JS "<p>Poste de nuit, Lyon puis Paris</p>") (JS "Chauffeur SPL")
      (JS "https://emplois.example.be/") = [p]
    /\ addressCountry p = Country (JS "BE")
    /\ addressLocality p = Some (JS "Paris").
Proof.
  destruct (inferJobLocations_one_place Sample.builtins sample_hostname
              (JS "<p>Poste de nuit, Lyon puis Paris</p>") (JS "Chauffeur SPL")
              (JS "https://emplois.example.be/")) as [p [E _]].
  exists p. split; [exact E|].
  vm_compute in E. injection E as <-. split; reflexivity.
Defined.

(* ------------------------------------------------------------------ *)
(** ** Canonical URLs *)

Section LongerInput.
Import Regex.
Variable t : jsstring.

Lemma oneChar_carries (p : N -> bool) : carries t (oneChar p) (oneChar p).
Proof.
  intros x x' k k' (Hb & Hp & Hr) Hk. unfold oneChar. rewrite Hr.
  destruct (rest x) as [|c tl]; [easy|]. cbn [app].
  destruct (p c); [|easy]. apply Hk. now repeat split; cbn; try congruence.
Qed.

Lemma orElse_some (a : option mstate) (b : Datatypes.unit -> option mstate) :
  orElse a b <> None <-> a <> None \/ b tt <> None.
Proof.
  unfold orElse. destruct a; split; intros H; try (left; discriminate);
    try discriminate; [now right | now destruct H].
Qed.

Lemma repeat_carries (m m' : matcher) (greedy : bool) :
  carries t m m' ->
  forall fuel fuel' lo hi, fuel <= fuel' ->
    carries t (fun x k => repeat fuel m greedy lo hi x k)
              (fun x k => repeat fuel' m' greedy lo hi x k).
Proof.
  intros Hm. induction fuel as [|fuel IH]; intros fuel' lo hi Hf x x' k k' Hx Hk;
    [easy|].
  destruct fuel' as [|fuel']; [lia|]. cbn [repeat].
  assert (Hkx : k x <> None -> k' x' <> None) by now apply Hk.
  assert (Hd : m x (fun y => if Nat.eqb lo 0 && Nat.eqb (pos y) (pos x) then None
                             else repeat fuel m greedy (Nat.pred lo)
                                    (option_map Nat.pred hi) y k) <> None ->
               m' x' (fun y => if Nat.eqb lo 0 && Nat.eqb (pos y) (pos x') then None
                               else repeat fuel' m' greedy (Nat.pred lo)
                                      (option_map Nat.pred hi) y k') <> None).
  { apply Hm; [exact Hx|]. intros y y' Hy.
    destruct Hx as (_ & Hpx & _). pose proof Hy as (_ & Hpy & _).
    rewrite Hpx, Hpy.
    destruct (Nat.eqb lo 0 && Nat.eqb (pos y) (pos x)); [easy|].
    apply (IH fuel' _ _ ltac:(lia) y y' k k' Hy Hk). }
  destruct hi as [[|n]|]; try exact Hkx;
    destruct (negb (Nat.eqb lo 0)); try exact Hd;
    destruct greedy; rewrite !orElse_some; tauto.
Qed.

Lemma run_carries (ignoreCase : bool) (r : regex) :
  assertion_free r = true -> carries t (run ignoreCase r) (run ignoreCase r).
Proof.
  induction r as [| | | | | | |r1 IH1 r2 IH2|r1 IH1 r2 IH2|greedy lo hi r1 IH1
                  |i r1 IH1|r1 IH1]; cbn [run assertion_free]; intros Ha;
    try discriminate; try apply oneChar_carries.
  - intros x x' k k' Hx Hk. now apply Hk.
  - apply andb_true_iff in Ha. destruct Ha as [A1 A2].
    intros x x' k k' Hx Hk. apply (IH1 A1 x x' _ _ Hx).
    intros y y' Hy. now apply (IH2 A2).
  - apply andb_true_iff in Ha. destruct Ha as [A1 A2].
    intros x x' k k' Hx Hk. rewrite !orElse_some. intros [H|H].
    + left. now apply (IH1 A1 x x' k k' Hx Hk).
    + right. now apply (IH2 A2 x x' k k' Hx Hk).
  - intros x x' k k' Hx Hk.
    apply (repeat_carries _ _ greedy (IH1 Ha) _ _ lo hi); try assumption.
    destruct Hx as (_ & _ & ->). rewrite length_app. lia.
  - intros x x' k k' Hx Hk. apply (IH1 Ha x x' _ _ Hx).
    intros y y' Hy. apply Hk. destruct Hy as (Hb & Hp & Hr). now repeat split.
Qed.

End LongerInput.

Lemma test_from_start_app (ignoreCase : bool) (r : Regex.regex) (s t : jsstring) :
  assertion_free r = true ->
  test_from_start ignoreCase r s = true -> test_from_start ignoreCase r (s ++ t) = true.
Proof.
  intros Ha. unfold test_from_start, Regex.match_at. cbn [Regex.before Regex.rest Regex.pos].
  destruct (Regex.run ignoreCase r _ _) eqn:E1; [|discriminate]. intros _.
  destruct (Regex.run ignoreCase r
              {| Regex.before := None; Regex.rest := s ++ t; Regex.pos := 0;
                 Regex.caps := [] |} (fun y => Some y)) eqn:E2; [reflexivity|].
  exfalso. revert E2.
  apply (run_carries t ignoreCase r Ha
           {| Regex.before := None; Regex.rest := s; Regex.pos := 0; Regex.caps := [] |}
           _ (fun y => Some y) (fun y => Some y)).
  - now repeat split.
  - intros y y' _ _. discriminate.
  - rewrite E1. discriminate.
Qed.

(** Canonical URLs are absolute.  With a site URL that starts with http://
    or https://, canonical returns an URL that does, whatever path it is
    given: an absolute URL unchanged, any other path behind the site URL
    with one slash between them unless the path brings its own.  Applied
    to its own result it changes nothing. *)
Theorem canonical_is_absolute (SITE_URL path : jsstring) :
  isAbsoluteUrl SITE_URL = true ->
  isAbsoluteUrl (canonical SITE_URL path) = true
  /\ canonical SITE_URL (canonical SITE_URL path) = canonical SITE_URL path
  /\ (isAbsoluteUrl path = true -> canonical SITE_URL path = path)
  /\ (isAbsoluteUrl path = false -> startsWith (JS "/") path = true ->
      canonical SITE_URL path = SITE_URL ++ path).
Proof.
  intros Hsite.
  assert (Habs : isAbsoluteUrl (canonical SITE_URL path) = true).
  { unfold canonical. destruct (isAbsoluteUrl path) eqn:E; [exact E|].
    unfold isAbsoluteUrl. apply test_from_start_app; [reflexivity | exact Hsite]. }
  split; [exact Habs|]. split; [|split].
  - unfold canonical at 1. now rewrite Habs.
  - intros H. unfold canonical. now rewrite H.
  - intros H1 H2. unfold canonical. now rewrite H1, H2.
Qed.

Lemma canonical_is_absolute_sample :
  isAbsoluteUrl (canonical (JS "https://emplois.example") (JS "job/chauffeur-spl"))
  = true
  /\ canonical (JS "https://emplois.example")
       (canonical (JS "https://emplois.example") (JS "job/chauffeur-spl"))
     = canonical (JS "https://emplois.example") (JS "job/chauffeur-spl")
  /\ (isAbsoluteUrl (JS "job/chauffeur-spl") = true ->
      canonical (JS "https://emplois.example") (JS "job/chauffeur-spl")
      = JS "job/chauffeur-spl")
  /\ (isAbsoluteUrl (JS "job/chauffeur-spl") = false ->
      startsWith (JS "/") (JS "job/chauffeur-spl") = true ->
      canonical (JS "https://emplois.example") (JS "job/chauffeur-spl")
      = JS "https://emplois.example" ++ JS "job/chauffeur-spl").
Proof.
  apply (canonical_is_absolute (JS "https://emplois.example") (JS "job/chauffeur-spl")).
  vm_compute. reflexivity.
Defined.

Example canonical_adds_one_slash :
  canonical (JS "https://emplois.example") (JS "job/chauffeur-spl")
  = JS "https://emplois.example/job/chauffeur-spl"
  /\ canonical (JS "https://emplois.example") (JS "/feed.xml")
     = JS "https://emplois.example/feed.xml"
  /\ canonical (JS "https://emplois.example") (JS "HTTPS://autre.example/x")
     = JS "HTTPS://autre.example/x".
Proof. repeat split; vm_compute; reflexivity. Qed.

(* ------------------------------------------------------------------ *)
(** ** The site URL *)

Section TrailingSlashes.
Import Regex.

Lemma run_slash (x : mstate) (k : cont) :
  run false (Chr 47) x k
  = match rest x with
    | c :: tl =>
      if (47 =? c)%N
      then k {| before := Some c; rest := tl; pos := S (pos x); caps := caps x |}
      else None
    | [] => None
    end.
Proof. reflexivity. Qed.

Lemma star_slashes (s : jsstring) :
  forall fuel y, rest y = s -> List.length s < fuel ->
    if forallb (N.eqb 47) s
    then exists z, repeat fuel (run false (Chr 47)) true 0 None y atEnd = Some z
                   /\ rest z = [] /\ pos z = pos y + List.length s
    else repeat fuel (run false (Chr 47)) true 0 None y atEnd = None.
Proof.
  induction s as [|c s IH]; intros fuel y Hy Hfuel;
    (destruct fuel as [|fuel]; [simpl in Hfuel; lia|]);
    rewrite repeat_star_step, run_slash, Hy.
  - cbn [forallb orElse]. unfold atEnd. cbn [run]. rewrite Hy.
    exists y. repeat split; [assumption | simpl; lia].
  - cbn [forallb]. destruct (47 =? c)%N eqn:Ec; cbn [andb].
    + cbn [pos].
      replace (Nat.eqb (S (pos y)) (pos y)) with false
        by (symmetry; apply Nat.eqb_neq; lia).
      specialize (IH fuel {| before := Some c; rest := s; pos := S (pos y);
                             caps := caps y |} eq_refl ltac:(simpl in Hfuel; lia)).
      destruct (forallb (N.eqb 47) s).
      * destruct IH as [z [Hz [Hr Hp]]]. rewrite Hz. cbn [orElse].
        exists z. cbn [pos List.length] in *. repeat split; [assumption | lia].
      * rewrite IH. cbn [orElse]. unfold atEnd. cbn [run]. now rewrite Hy.
    + cbn [orElse]. unfold atEnd. cbn [run]. now rewrite Hy.
Qed.

Lemma match_at_trailing (x : mstate) :
  if forallb (N.eqb 47) (rest x) && nonempty (rest x)
  then exists res, match_at false (seq [plus (Chr 47); Eoi]) x = Some res
                   /\ index res = pos x /\ rest (after res) = []
  else match_at false (seq [plus (Chr 47); Eoi]) x = None.
Proof.
  unfold match_at. cbn [seq]. unfold plus.
  change (run false (Seq (Rep true 1 None (Chr 47)) Eoi)
            {| before := before x; rest := rest x; pos := pos x; caps := [] |}
            (fun y => Some y))
    with (repeat (S (1 + List.length (rest x))) (run false (Chr 47)) true 1 None
            {| before := before x; rest := rest x; pos := pos x; caps := [] |}
            atEnd).
  rewrite repeat_plus_first, run_slash. cbn [rest pos caps].
  destruct (rest x) as [|c tl]; [reflexivity|].
  cbn [forallb nonempty]. rewrite andb_true_r.
  destruct (47 =? c)%N; cbn [andb]; [|reflexivity].
  pose proof (star_slashes tl (1 + List.length (c :: tl))
                {| before := Some c; rest := tl; pos := S (pos x); caps := [] |}
                eq_refl ltac:(simpl; lia)) as H.
  destruct (forallb (N.eqb 47) tl).
  - destruct H as [z [Hz [Hr Hp]]]. rewrite Hz.
    eexists. split; [reflexivity|]. cbn [index after]. now split.
  - now rewrite H.
Qed.

Lemma untrail_scan (s : jsstring) :
  forall bef pre,
    match scan false (seq [plus (Chr 47); Eoi]) bef s (List.length pre) with
    | Some res =>
      firstn (index res) (pre ++ s) ++ rest (after res) = pre ++ untrail s
    | None => untrail s = s
    end.
Proof.
  induction s as [|c s IH]; intros bef pre.
  - cbn [scan].
    pose proof (match_at_trailing {| before := bef; rest := []; pos := List.length pre;
                                     caps := [] |}) as H.
    cbn [rest forallb nonempty andb] in H. now rewrite H.
  - cbn [scan].
    pose proof (match_at_trailing {| before := bef; rest := c :: s;
                                     pos := List.length pre; caps := [] |}) as H.
    cbn [rest pos nonempty] in H. rewrite andb_true_r in H.
    cbn [untrail].
    destruct (forallb (N.eqb 47) (c :: s)).
    + destruct H as [res [-> [Hi Hr]]]. rewrite Hi, Hr, !app_nil_r.
      rewrite firstn_app, firstn_all, Nat.sub_diag. cbn [firstn].
      now rewrite app_nil_r.
    + rewrite H. specialize (IH (Some c) (pre ++ [c])).
      rewrite length_app in IH. cbn [List.length] in IH.
      replace (List.length pre + 1) with (S (List.length pre)) in IH by lia.
      destruct (scan _ _ _ s _) as [res|].
      * rewrite <- !app_assoc in IH. exact IH.
      * now rewrite IH.
Qed.

Lemma SITE_URL_of_untrail (configured : jsstring) :
  SITE_URL_of configured = untrail configured.
Proof.
  unfold SITE_URL_of, replace_first, exec.
  pose proof (untrail_scan configured None []) as H. cbn [List.length app] in H.
  destruct (scan _ _ _ configured 0) as [res|]; [exact H | now rewrite H].
Qed.

End TrailingSlashes.

Lemma untrail_nil (s : jsstring) : untrail s = [] -> forallb (N.eqb 47) s = true.
Proof.
  destruct s as [|c s]; [reflexivity|]. cbn [untrail].
  destruct (forallb (N.eqb 47) (c :: s)); [reflexivity | discriminate].
Qed.

Lemma untrail_slashes (s : jsstring) :
  exists n, s = untrail s ++ List.repeat 47%N n.
Proof.
  induction s as [|c s [n IH]]; [now exists 0|]. cbn [untrail].
  destruct (forallb (N.eqb 47) (c :: s)) eqn:E.
  - exists (List.length (c :: s)). cbn [app].
    clear IH. induction (c :: s) as [|a l IHl]; [reflexivity|].
    cbn [forallb] in E. apply andb_true_iff in E. destruct E as [Ea El].
    apply N.eqb_eq in Ea. subst a. cbn [List.length List.repeat]. f_equal.
    now apply IHl.
  - exists n. cbn [app]. now f_equal.
Qed.

Lemma untrail_no_slash (s pre : jsstring) : untrail s <> pre ++ [47%N].
Proof.
  revert pre. induction s as [|c s IH]; intros pre; [now destruct pre|].
  cbn [untrail]. destruct (forallb (N.eqb 47) (c :: s)) eqn:E; [now destruct pre|].
  destruct pre as [|a pre]; cbn [app].
  - intros H. injection H as -> Hs. apply untrail_nil in Hs.
    cbn [forallb] in E. now rewrite Hs in E.
  - intros H. injection H as _ Hs. now apply (IH pre).
Qed.

(** The site URL ends with no slash.  Whatever is configured, SITE_URL is
    the configured text without the slashes it ends with; so canonical
    puts exactly one slash between the site URL and a relative path. *)
Theorem SITE_URL_ends_with_no_slash (configured : jsstring) :
  (exists n, configured = SITE_URL_of configured ++ List.repeat 47%N n)
  /\ (forall pre, SITE_URL_of configured <> pre ++ [47%N]).
Proof.
  rewrite SITE_URL_of_untrail. split; [apply untrail_slashes|].
  intros pre. apply untrail_no_slash.
Qed.

Example SITE_URL_of_samples :
  SITE_URL_of (JS "https://emplois.example///") = JS "https://emplois.example"
  /\ SITE_URL_of (JS "http://localhost:3000") = JS "http://localhost:3000"
  /\ SITE_URL_of (JS "https://a.example/x//y/") = JS "https://a.example/x//y".
Proof. repeat split; vm_compute; reflexivity. Qed.

(* ------------------------------------------------------------------ *)
(** ** The tag page *)

Lemma list_sum_cons (x : nat) (l : list nat) : list_sum (x :: l) = x + list_sum l.
Proof. reflexivity. Qed.

Lemma list_sum_map_add {A : Type} (f g : A -> nat) (l : list A) :
  list_sum (map (fun a => f a + g a) l) = list_sum (map f l) + list_sum (map g l).
Proof.
  induction l as [|a l IH]; [reflexivity|].
  cbn [map]. rewrite !list_sum_cons, IH. lia.
Qed.

Lemma list_sum_map_zero {A : Type} (l : list A) :
  list_sum (map (fun _ => 0) l) = 0.
Proof.
  induction l as [|a l IH]; [reflexivity|]. cbn [map]. now rewrite list_sum_cons.
Qed.

Lemma list_sum_swap {A C : Type} (n : A -> C -> nat) (la : list A) (lc : list C) :
  list_sum (map (fun a => list_sum (map (n a) lc)) la)
  = list_sum (map (fun c => list_sum (map (fun a => n a c) la)) lc).
Proof.
  induction la as [|a la IH].
  - cbn [map]. now rewrite list_sum_map_zero.
  - cbn [map]. rewrite list_sum_cons, IH.
    rewrite <- (list_sum_map_add (n a)
                  (fun c => list_sum (map (fun a0 => n a0 c) la))).
    f_equal.
Qed.

Lemma length_flat_map_swap {A C D : Type} (F : A -> C -> list D)
    (la : list A) (lc : list C) :
  List.length (flat_map (fun a => flat_map (F a) lc) la)
  = List.length (flat_map (fun c => flat_map (fun a => F a c) la) lc).
Proof.
  rewrite !length_flat_map.
  rewrite (map_ext _ (fun a => list_sum (map (fun c => List.length (F a c)) lc)))
    by (intros a; apply length_flat_map).
  rewrite (map_ext (fun c => List.length (flat_map (fun a => F a c) la))
             (fun c => list_sum (map (fun a => List.length (F a c)) la)))
    by (intros c; apply length_flat_map).
  apply (list_sum_swap (fun a c => List.length (F a c))).
Qed.

Lemma length_flat_map_le {A C : Type} (f : A -> list C) (g : A -> nat)
    (l : list A) :
  (forall a, In a l -> List.length (f a) <= g a) ->
  List.length (flat_map f l) <= list_sum (map g l).
Proof.
  induction l as [|a l IH]; intros H; [reflexivity|].
  cbn [flat_map map]. rewrite list_sum_cons, length_app.
  specialize (H a (or_introl eq_refl)) as Ha.
  specialize (IH (fun x Hx => H x (or_intror Hx))). lia.
Qed.

Lemma list_sum_indicator {A : Type} (p : A -> bool) (l : list A) :
  list_sum (map (fun a => if p a then 1 else 0) l) = List.length (filter p l).
Proof.
  induction l as [|a l IH]; [reflexivity|]. cbn [map filter].
  rewrite list_sum_cons. destruct (p a); cbn [List.length]; lia.
Qed.

(** At most one element of a list without repeated keys has a given
    key. *)
Lemma length_flat_map_key {A : Type} (key : A -> Z) (k : Z) (l : list A)
    {C : Type} (out : A -> list C) :
  NoDup (map key l) ->
  (forall a, List.length (out a) <= 1) ->
  List.length (flat_map (fun a => if (k =? key a)%Z then out a else []) l) <= 1.
Proof.
  intros Hnd Hout. induction l as [|a l IH]; [simpl; lia|].
  cbn [map] in Hnd. inversion Hnd as [|? ? Ha Hl]; subst.
  cbn [flat_map]. rewrite length_app.
  destruct (k =? key a)%Z eqn:E.
  - apply Z.eqb_eq in E. subst k.
    assert (H0 : flat_map (fun x => if (key a =? key x)%Z then out x else []) l = []).
    { clear IH Hl Hnd. induction l as [|b l IHl]; [reflexivity|].
      cbn [flat_map]. destruct (key a =? key b)%Z eqn:Eb.
      - exfalso. apply Z.eqb_eq in Eb. apply Ha. left. now symmetry.
      - cbn [app]. apply IHl. intros C0. apply Ha. now right. }
    rewrite H0. specialize (Hout a). simpl. lia.
  - cbn [List.length]. now apply IH.
Qed.

Section TagPage.

Lemma In_firstn_job (n : nat) (l : list DB.job) (x : DB.job) :
  In x (firstn n l) -> In x l.
Proof.
  intros H. rewrite <- (firstn_skipn n l). apply in_or_app. now left.
Qed.

Lemma jobsJoinedByTag_row (s : jsstring) (d : DB.t) (row : DB.job) :
  In row (jobsJoinedByTag s d) ->
  In row (DB.jobs d)
  /\ exists t, In t (DB.tags d) /\ DB.tag_slug t = s
               /\ In (DB.id row, DB.tag_id t) (DB.job_tags d).
Proof.
  unfold jobsJoinedByTag. intros H.
  apply in_flat_map in H. destruct H as [j [Hj H]].
  apply in_flat_map in H. destruct H as [[a b] [Hjt H]].
  apply in_flat_map in H. destruct H as [t [Ht H]].
  cbn [fst snd] in H.
  destruct ((a =? DB.id j)%Z && (DB.tag_id t =? b)%Z && JSStr.eqb (DB.tag_slug t) s)
    eqn:E; [|contradiction].
  destruct H as [<-|[]].
  apply andb_true_iff in E. destruct E as [E E3].
  apply andb_true_iff in E. destruct E as [E1 E2].
  apply Z.eqb_eq in E1, E2. apply jsstr_eqb_eq in E3. subst.
  split; [assumption|]. exists t. now repeat split.
Qed.

Lemma flat_map_all_nil {A C : Type} (f : A -> list C) (l : list A) :
  (forall a, In a l -> f a = []) -> flat_map f l = [].
Proof.
  induction l as [|a l IH]; intros H; [reflexivity|]. cbn [flat_map].
  rewrite (H a (or_introl eq_refl)). cbn [app].
  apply IH. intros x Hx. apply H. now right.
Qed.

Lemma NoDup_map_same {A C : Type} (f : A -> C) (l : list A) (x y : A) :
  NoDup (map f l) -> In x l -> In y l -> f x = f y -> x = y.
Proof.
  induction l as [|a l IH]; intros Hnd Hx Hy E; [contradiction|].
  cbn [map] in Hnd. inversion Hnd as [|? ? Ha Hl]; subst.
  destruct Hx as [->|Hx]; destruct Hy as [->|Hy]; try reflexivity.
  - exfalso. apply Ha. rewrite E. now apply in_map.
  - exfalso. apply Ha. rewrite <- E. now apply in_map.
  - now apply IH.
Qed.

(** The join has at most as many rows as the tag has links. *)
Lemma jobsJoinedByTag_count (s : jsstring) (d : DB.t) (tag : DB.tag) :
  NoDup (map DB.id (DB.jobs d)) ->
  NoDup (map DB.tag_id (DB.tags d)) ->
  NoDup (map DB.tag_slug (DB.tags d)) ->
  In tag (DB.tags d) -> DB.tag_slug tag = s ->
  List.length (jobsJoinedByTag s d) <= stmtCountJobsByTagId (DB.tag_id tag) d.
Proof.
  intros Hjobs Htid Hslug Htag Hs. unfold jobsJoinedByTag, stmtCountJobsByTagId.
  rewrite (length_flat_map_swap
             (fun j jt =>
                flat_map (fun t => if (fst jt =? DB.id j)%Z && (DB.tag_id t =? snd jt)%Z
                                      && JSStr.eqb (DB.tag_slug t) s
                                   then [j] else []) (DB.tags d))).
  rewrite <- (list_sum_indicator (fun l => (snd l =? DB.tag_id tag)%Z)).
  apply length_flat_map_le. intros [a b] _. cbn [fst snd].
  set (T := fun j : DB.job =>
              flat_map (fun t => if (b =? DB.tag_id t)%Z
                                 then (if JSStr.eqb (DB.tag_slug t) s then [j] else [])
                                 else []) (DB.tags d)).
  assert (Hinner : forall j : DB.job,
             flat_map (fun t => if (a =? DB.id j)%Z && (DB.tag_id t =? b)%Z
                                   && JSStr.eqb (DB.tag_slug t) s
                                then [j] else []) (DB.tags d)
             = if (a =? DB.id j)%Z then T j else []).
  { intros j. destruct (a =? DB.id j)%Z; cbn [andb].
    - apply flat_map_ext. intros t. rewrite (Z.eqb_sym (DB.tag_id t) b).
      now destruct (b =? DB.tag_id t)%Z.
    - now apply flat_map_all_nil. }
  rewrite (flat_map_ext _ _ Hinner).
  assert (HT1 : forall j, List.length (T j) <= 1).
  { intros j. apply (length_flat_map_key DB.tag_id b (DB.tags d)
                       (fun t => if JSStr.eqb (DB.tag_slug t) s then [j] else []) Htid).
    intros t. destruct (JSStr.eqb _ _); simpl; lia. }
  destruct (b =? DB.tag_id tag)%Z eqn:Eb.
  - now apply (length_flat_map_key DB.id a (DB.jobs d) T Hjobs).
  - apply Nat.le_0_r, length_zero_iff_nil, flat_map_all_nil. intros j _.
    destruct (a =? DB.id j)%Z; [|reflexivity].
    apply flat_map_all_nil. intros t Ht.
    destruct (b =? DB.tag_id t)%Z eqn:Et; [|reflexivity].
    destruct (JSStr.eqb (DB.tag_slug t) s) eqn:Es; [|reflexivity].
    exfalso. apply jsstr_eqb_eq in Es. apply Z.eqb_eq in Et. apply Z.eqb_neq in Eb.
    apply Eb. rewrite Et. f_equal.
    apply (NoDup_map_same DB.tag_slug (DB.tags d) t tag Hslug Ht Htag). congruence.
Qed.

End TagPage.

Lemma tag_rows_facts (slug : jsstring) (d : DB.t) (tag : DB.tag)
    (l : list DB.job) :
  NoDup (map DB.id (DB.jobs d)) ->
  NoDup (map DB.tag_id (DB.tags d)) ->
  NoDup (map DB.tag_slug (DB.tags d)) ->
  In tag (DB.tags d) -> DB.tag_slug tag = slug ->
  (forall x, In x l -> In x (jobsJoinedByTag slug d)) ->
  List.length l <= List.length (jobsJoinedByTag slug d) ->
  List.length (firstn pageSize (DB.order_desc l))
  <= stmtCountJobsByTagId (DB.tag_id tag) d
  /\ List.length (firstn pageSize (DB.order_desc l)) <= 50
  /\ forall row, In row (firstn pageSize (DB.order_desc l)) ->
       In row (DB.jobs d)
       /\ exists t, In t (DB.tags d) /\ DB.tag_slug t = slug
                    /\ In (DB.id row, DB.tag_id t) (DB.job_tags d).
Proof.
  intros Hids Htids Hslugs Htag Hs Hin Hlen.
  pose proof (jobsJoinedByTag_count slug d tag Hids Htids Hslugs Htag Hs) as Hcount.
  assert (Hl : List.length (firstn pageSize (DB.order_desc l)) <= List.length l).
  { rewrite length_firstn, (Permutation_length (order_desc_perm l)). lia. }
  split; [lia|]. split; [rewrite length_firstn; unfold pageSize; lia|].
  intros row Hrow. apply In_firstn_job in Hrow.
  apply (Permutation_in _ (order_desc_perm l)) in Hrow.
  now apply jobsJoinedByTag_row, Hin.
Qed.

(** The count of the tag page covers its rows, not the other way round.
    In a store whose tables are consistent, a page of the tag page holds 50
    rows at most, each of them a stored posting that a link joins to the
    tag of that slug, and never more rows than the count shown above them.
    The count is the number of links of the tag, whether their posting is
    still stored or not. *)
Theorem tagPage_count_covers_rows (slug cursor : jsstring) (d : DB.t)
    (rows : list DB.job) (cnt : nat) (next : option jsstring) :
  store_ok d -> tags_ok d ->
  tagPage slug cursor d = TagPage rows cnt next ->
  List.length rows <= cnt /\ List.length rows <= 50
  /\ (exists tag, stmtGetTagBySlug slug d = Some tag
                  /\ cnt = List.length (filter (fun l => (snd l =? DB.tag_id tag)%Z)
                                          (DB.job_tags d)))
  /\ forall row, In row rows ->
       In row (DB.jobs d)
       /\ exists t, In t (DB.tags d) /\ DB.tag_slug t = slug
                    /\ In (DB.id row, DB.tag_id t) (DB.job_tags d).
Proof.
  intros (_ & _ & Hids & _) (_ & Hslugs & Htids & _).
  unfold tagPage. destruct (stmtGetTagBySlug slug d) as [tag|] eqn:Et;
    [|discriminate].
  pose proof Et as Ef. apply find_some in Ef. destruct Ef as [Htag Hs].
  apply jsstr_eqb_eq in Hs. cbv zeta.
  assert (Hgoal : forall l,
             (forall x, In x l -> In x (jobsJoinedByTag slug d)) ->
             List.length l <= List.length (jobsJoinedByTag slug d) ->
             rows = firstn pageSize (DB.order_desc l) ->
             cnt = stmtCountJobsByTagId (DB.tag_id tag) d ->
             List.length rows <= cnt /\ List.length rows <= 50
             /\ (exists tag0, Some tag = Some tag0
                              /\ cnt = List.length
                                         (filter (fun l => (snd l =? DB.tag_id tag0)%Z)
                                            (DB.job_tags d)))
             /\ forall row, In row rows ->
                  In row (DB.jobs d)
                  /\ exists t, In t (DB.tags d) /\ DB.tag_slug t = slug
                               /\ In (DB.id row, DB.tag_id t) (DB.job_tags d)).
  { intros l Hin Hlen -> ->.
    destruct (tag_rows_facts slug d tag l Hids Htids Hslugs Htag Hs Hin Hlen)
      as (F1 & F2 & F3).
    split; [exact F1|]. split; [exact F2|]. split; [|exact F3].
    exists tag. now split. }
  destruct (negb (nonempty cursor)).
  - intros H.
    apply (Hgoal (jobsJoinedByTag slug d)); auto; unfold stmtJobsByTagFirst in H;
      congruence.
  - set (parts := map toNumber (splitOn (JS "-") cursor)).
    destruct (negb (truthyNumber _) || negb (truthyNumber _)); [discriminate|].
    destruct (nth 0 parts None) as [pub|]; [|discriminate].
    destruct (nth 1 parts None) as [i|]; [|discriminate].
    intros H. unfold stmtJobsByTagCursor in H.
    apply (Hgoal (filter (DB.beyond_cursor pub pub i) (jobsJoinedByTag slug d)));
      try congruence.
    + intros x Hx. apply filter_In in Hx. tauto.
    + apply filter_length_le.
Qed.

Lemma tagPage_count_covers_rows_sample :
  List.length spl_rows <= 3 /\ List.length spl_rows <= 50
  /\ (exists tag, stmtGetTagBySlug (JS "spl") after_three_records = Some tag
                  /\ 3 = List.length (filter (fun l => (snd l =? DB.tag_id tag)%Z)
                                        (DB.job_tags after_three_records)))
  /\ forall row, In row spl_rows ->
       In row (DB.jobs after_three_records)
       /\ exists t, In t (DB.tags after_three_records) /\ DB.tag_slug t = JS "spl"
                    /\ In (DB.id row, DB.tag_id t) (DB.job_tags after_three_records).
Proof.
  apply (tagPage_count_covers_rows (JS "spl") [] after_three_records spl_rows 3 None).
  - apply processFeed_store, store_ok_empty.
  - apply processFeed_tags, tags_ok_empty.
  - vm_compute. reflexivity.
Defined.

(** After the retention step deleted the posting B1, the page of the tag
    spl shows the two postings left under a count of three. *)
Example tagPage_counts_deleted_postings :
  map DB.guid (DB.jobs after_three_records) = [JS "B2"; JS "B3"]
  /\ (exists rows, tagPage (JS "spl") [] after_three_records = TagPage rows 3 None
                   /\ map DB.guid rows = [JS "B2"; JS "B3"]).
Proof.
  split; [vm_compute; reflexivity|].
  exists spl_rows. split; vm_compute; reflexivity.
Qed.

(* ------------------------------------------------------------------ *)
(** ** The ids of postings are never given out twice *)

Lemma later_refl (d : DB.t) : later d d.
Proof. split; [lia | auto]. Qed.

Lemma later_trans (a b c : DB.t) : later a b -> later b c -> later a c.
Proof.
  intros [H1 H2] [G1 G2]. split; [lia|].
  intros r Hr. destruct (G2 r Hr) as [Hb|Hb]; [|right; lia].
  destruct (H2 r Hb) as [Ha|Ha]; [now left | now right].
Qed.

Lemma ids_issued_empty : ids_issued DB.empty.
Proof. split; intros x []. Qed.

Lemma stmtInsertJob_issued (p : DB.job_params) (d : DB.t) :
  ids_issued d ->
  ids_issued (DB.stmtInsertJob p d) /\ later d (DB.stmtInsertJob p d).
Proof.
  intros [Hj Hl]. unfold DB.stmtInsertJob.
  destruct (existsb _ (DB.jobs d)); [split; [now split | apply later_refl]|].
  cbv zeta. unfold ids_issued, later, DB.with_jobs.
  cbn [DB.jobs DB.jobs_seq DB.job_tags].
  split; [split|split].
  - intros r Hr. apply in_app_or in Hr. destruct Hr as [Hr|[<-|[]]].
    + specialize (Hj r Hr). lia.
    + cbn [DB.id]. lia.
  - intros l Hin. specialize (Hl l Hin). lia.
  - lia.
  - intros r Hr. apply in_app_or in Hr. destruct Hr as [Hr|[<-|[]]].
    + now left.
    + right. cbn [DB.id]. lia.
Qed.

Section IdsUnderRun.
Variable B : Builtins.
Variable cfg : Config.
Variable ai : ai_backend.

Lemma upsertOne_issued (jobId : Z) (name : jsstring) (d : DB.t) :
  (jobId <= DB.jobs_seq d)%Z -> ids_issued d ->
  ids_issued (upsertOne B jobId d name)
  /\ DB.jobs (upsertOne B jobId d name) = DB.jobs d
  /\ DB.jobs_seq (upsertOne B jobId d name) = DB.jobs_seq d.
Proof.
  intros Hid [Hj Hl]. unfold upsertOne. cbv zeta.
  set (d1 := DB.stmtInsertTag name (tagSlug B name) d).
  assert (H1 : DB.jobs d1 = DB.jobs d /\ DB.jobs_seq d1 = DB.jobs_seq d
               /\ DB.job_tags d1 = DB.job_tags d).
  { unfold d1, DB.stmtInsertTag. now destruct (existsb _ (DB.tags d)). }
  destruct H1 as (E1 & E2 & E3).
  destruct (DB.stmtGetTagByName name d1) as [t|].
  - unfold DB.stmtInsertJobTag.
    destruct (existsb _ (DB.job_tags d1)).
    + unfold ids_issued. rewrite E1, E2, E3.
      exact (conj (conj Hj Hl) (conj eq_refl eq_refl)).
    + unfold ids_issued. cbn [DB.jobs DB.jobs_seq DB.job_tags].
      rewrite E1, E2, E3.
      refine (conj (conj Hj _) (conj eq_refl eq_refl)).
      intros l Hin. apply in_app_or in Hin. destruct Hin as [Hin|[<-|[]]].
      * now apply Hl.
      * exact Hid.
  - unfold ids_issued. rewrite E1, E2, E3.
    exact (conj (conj Hj Hl) (conj eq_refl eq_refl)).
Qed.

Lemma upsertTagsForJob_issued (jobId : Z) (names : list jsstring) :
  forall d, (jobId <= DB.jobs_seq d)%Z -> ids_issued d ->
    ids_issued (upsertTagsForJob B jobId names d)
    /\ DB.jobs (upsertTagsForJob B jobId names d) = DB.jobs d
    /\ DB.jobs_seq (upsertTagsForJob B jobId names d) = DB.jobs_seq d.
Proof.
  intros d. rewrite upsertTagsForJob_fold. revert d.
  induction names as [|name names IH]; intros d Hid H;
    [exact (conj H (conj eq_refl eq_refl))|].
  cbn [fold_left].
  destruct (upsertOne_issued jobId name d Hid H) as (H1 & E1 & E2).
  destruct (IH (upsertOne B jobId d name)) as (H2 & F1 & F2);
    [rewrite E2; exact Hid | exact H1 |].
  rewrite <- upsertTagsForJob_fold in *.
  split; [exact H2|]. split; congruence.
Qed.

Lemma insertOne_issued (p : DB.job_params) (d : DB.t) :
  ids_issued d -> ids_issued (insertOne B p d) /\ later d (insertOne B p d).
Proof.
  intros H. destruct (stmtInsertJob_issued p d H) as [H1 L1].
  unfold insertOne. cbv zeta.
  destruct (DB.stmtHasGuid (DB.p_guid p) (DB.stmtInsertJob p d)) as [inserted|] eqn:E;
    [|now split].
  apply find_some in E. destruct E as [Hin _].
  destruct (upsertTagsForJob_issued (DB.id inserted)
              (filter nonempty (splitOn (JS ", ") (DB.p_tags_csv p)))
              (DB.stmtInsertJob p d)) as (H2 & E1 & E2);
    [exact (proj1 H1 inserted Hin) | exact H1 |].
  split; [exact H2|].
  destruct L1 as [L1 L2]. unfold later. rewrite E1, E2. now split.
Qed.

Lemma insertBatch_issued (ps : list DB.job_params) :
  forall d, ids_issued d ->
    ids_issued (insertBatch B ps d) /\ later d (insertBatch B ps d).
Proof.
  induction ps as [|p ps IH]; intros d H; [split; [exact H | apply later_refl]|].
  rewrite insertBatch_cons.
  destruct (insertOne_issued p d H) as [H1 L1].
  destruct (IH _ H1) as [H2 L2].
  split; [exact H2 | now apply (later_trans _ _ _ L1 L2)].
Qed.

Lemma prune_issued (d : DB.t) :
  ids_issued d -> ids_issued (prune B cfg d) /\ later d (prune B cfg d).
Proof.
  intros [Hj Hl].
  assert (Hseq : DB.jobs_seq (prune B cfg d) = DB.jobs_seq d
                 /\ DB.job_tags (prune B cfg d) = DB.job_tags d).
  { unfold prune.
    destruct (DB.getCachedCount (now_seconds B) 0 d) as [total d1] eqn:E.
    assert (H1 : DB.jobs_seq d1 = DB.jobs_seq d /\ DB.job_tags d1 = DB.job_tags d).
    { unfold DB.getCachedCount in E. destruct (DB.stmtGetCache _ d);
        injection E as _ <-; now split. }
    destruct (Z.of_nat (MAX_JOBS cfg) <? total)%Z; exact H1. }
  destruct Hseq as [E1 E2]. unfold ids_issued, later. rewrite E1, E2.
  split; [split|split].
  - intros r Hr. apply Hj. now apply (prune_jobs_incl B cfg d r).
  - exact Hl.
  - lia.
  - intros r Hr. left. now apply (prune_jobs_incl B cfg d r).
Qed.

Lemma on_event_issued (r : run) (e : sax_event) :
  ids_issued (run_db r) ->
  ids_issued (run_db (on_event B cfg ai r e))
  /\ later (run_db r) (run_db (on_event B cfg ai r e)).
Proof.
  intros H. destruct (sax_event_eq_end e) as [->|Hne];
    [|rewrite (on_event_db B cfg ai r e Hne); split; [exact H | apply later_refl]].
  cbn [on_event]. destruct (on_end_db B cfg ai r) as [rows [_ ->]].
  now apply insertBatch_issued.
Qed.

Lemma events_issued (events : list sax_event) :
  forall r, ids_issued (run_db r) ->
    ids_issued (run_db (fold_left (on_event B cfg ai) events r))
    /\ later (run_db r) (run_db (fold_left (on_event B cfg ai) events r)).
Proof.
  induction events as [|e events IH]; intros r H; [split; [exact H | apply later_refl]|].
  cbn [fold_left]. destruct (on_event_issued r e H) as [H1 L1].
  destruct (IH _ H1) as [H2 L2].
  split; [exact H2 | now apply (later_trans _ _ _ L1 L2)].
Qed.

Lemma processFeed_issued (fetched : fetch_result) (w : world) :
  ids_issued (db w) ->
  ids_issued (db (snd (processFeed B cfg ai fetched w)))
  /\ later (db w) (db (snd (processFeed B cfg ai fetched w))).
Proof.
  intros H. unfold processFeed.
  destruct (FEED_RUNNING w); [split; [exact H | apply later_refl]|].
  destruct (negb (nonempty (FEED_URL cfg))); [split; [exact H | apply later_refl]|].
  unfold run_feed.
  destruct fetched as [message|events]; [split; [exact H | apply later_refl]|].
  set (r := fold_left (on_event B cfg ai) events _).
  assert (Hr : ids_issued (run_db r) /\ later (db w) (run_db r)).
  { apply (events_issued events
             (start_run {| FEED_RUNNING := true; db := db w; console := console w |})).
    exact H. }
  destruct Hr as [Hr Lr].
  destruct (promise r); cbn [snd db]; try (split; assumption).
  destruct (prune_issued (run_db r) Hr) as [H1 L1].
  split; [exact H1 | now apply (later_trans _ _ _ Lr L1)].
Qed.

End IdsUnderRun.

(** A posting never inherits the links of a deleted one.  If every id in
    the tables jobs and job_tags was given out by the AUTOINCREMENT counter
    of jobs, so it is after a call of processFeed, however it ends; and a
    posting stored by the call has an id that no link of the store before
    the call names.  So the links that retention leaves behind never join
    a later posting to the tags of a deleted one.  (The profession names
    no inherited property, see [ownKey].) *)
Theorem processFeed_never_reuses_ids (B : Builtins) (cfg : Config)
    (ai : ai_backend) (fetched : fetch_result) (w : world) :
  ownKey B cfg ->
  ids_issued (db w) ->
  ids_issued (db (snd (processFeed B cfg ai fetched w)))
  /\ forall row, In row (DB.jobs (db (snd (processFeed B cfg ai fetched w)))) ->
       In row (DB.jobs (db w))
       \/ forall l, In l (DB.job_tags (db w)) -> fst l <> DB.id row.
Proof.
  intros _ H. destruct (processFeed_issued B cfg ai fetched w H) as [H1 [_ L]].
  split; [exact H1|]. intros row Hrow.
  destruct (L row Hrow) as [Hold|Hnew]; [now left|right].
  intros l Hl C. pose proof (proj2 H l Hl). lia.
Qed.

Lemma processFeed_never_reuses_ids_sample :
  ids_issued (db (snd (processFeed Sample.builtins Sample.config no_backend
                         (FetchBody (one_record ++ [SaxEnd]))
                         {| FEED_RUNNING := false; db := two_of_three;
                            console := [] |})))
  /\ forall row,
       In row (DB.jobs (db (snd (processFeed Sample.builtins Sample.config
                                   no_backend (FetchBody (one_record ++ [SaxEnd]))
                                   {| FEED_RUNNING := false; db := two_of_three;
                                      console := [] |})))) ->
       In row (DB.jobs two_of_three)
       \/ forall l, In l (DB.job_tags two_of_three) -> fst l <> DB.id row.
Proof.
  apply (processFeed_never_reuses_ids Sample.builtins Sample.config no_backend
           (FetchBody (one_record ++ [SaxEnd]))
           {| FEED_RUNNING := false; db := two_of_three; console := [] |});
    [apply ownKey_by_test; vm_compute; reflexivity|].
  cbn [db]. split.
  - intros r Hr. vm_compute in Hr.
    repeat (destruct Hr as [<-|Hr]; [vm_compute; discriminate|]). contradiction.
  - intros l Hl. vm_compute in Hl.
    repeat (destruct Hl as [<-|Hl]; [vm_compute; discriminate|]). contradiction.
Defined.

(** After retention deleted the posting with id 1, a run that stores the
    record of the same guid again gives it the id 4: the links of id 1 stay
    where they are and join nothing. *)
Example deleted_id_is_not_given_again :
  let d := db (snd (processFeed Sample.builtins Sample.config no_backend
                      (FetchBody (one_record ++ [SaxEnd]))
                      {| FEED_RUNNING := false; db := two_of_three;
                         console := [] |})) in
  map DB.id (DB.jobs two_of_three) = [2; 3]%Z
  /\ map DB.id (DB.jobs d) = [2; 4]%Z
  /\ filter (fun l => (fst l =? 1)%Z) (DB.job_tags d) = [(1, 1); (1, 2)]%Z.
Proof. vm_compute. repeat split. Qed.
